(** * Shortwave_subgrid: the ray-traced shortwave correction engine

    A shallow embedding of [subgrid_radiation/sun_position_comp.cpp].

    Conventions of the embedding.
    - [double] and [float] arithmetic is exact arithmetic on [R]; rounding
      and the narrowing [(float)] casts are not represented. Division is
      the total division of [R], and [Rpower] is total as well: where the
      source divides by zero, overflows or raises a negative number to a
      fractional power, and so gets an infinity or a NaN, the functions on
      [R] have some real value. A theorem whose statement needs the
      values of the source names the range of the operands in which this
      does not happen ([normalisable], [well_conditioned],
      [non_degenerate]). What the source computes outside that range is
      settled on binary64 itself, by the vector kernel of the module
      [Double].
    - The values a [float] cell of the output buffer and the [tfar] field
      of a ray can hold are [fval]: NaN, minus infinity or a real.
    - [size_t] counters are [nat]; the [int] configuration fields are [Z].
    - Buffers are lists; a read outside a list yields a default value and
      a write outside it does nothing (both are undefined in the source).
      A negative [int], which the interface excludes, counts as 0 where the
      source converts it to [size_t].
    - The Embree scene is an oracle of type [RTCScene] that tells whether
      a ray is occluded.
    - The rows of grid cells, which the source hands to
      [tbb::parallel_reduce], are visited in increasing order.
    - The header that declares the class [CppTerrain] is not among the
      sources; the types of its fields are those of the arguments of
      [initialise] they are assigned from. *)

From Stdlib Require Import Reals Lra Lia ZArith List Machin Zquot RNsatz.
From Stdlib Require Floats.
From stdpp Require Import base list strings.
Import ListNotations.

#[local] Open Scope R_scope.

(** ** Auxiliary functions *)

Definition deg2rad (ang : R) : R := (ang / 180) * PI.

Definition rad2deg (ang : R) : R := (ang / PI) * 180.

Definition K2degC (temp : R) : R := temp - 273.15.

Definition lin_ind_2d (dim_1 ind_0 ind_1 : nat) : nat :=
  (ind_0 * dim_1 + ind_1)%nat.

(** Three [double]s that the source passes around as [_x], [_y], [_z]. *)
Record vec : Type := Vec { v_x : R; v_y : R; v_z : R }.

Definition vec_sub (a b : vec) : vec :=
  Vec (v_x a - v_x b) (v_y a - v_y b) (v_z a - v_z b).

Definition dot (a b : vec) : R :=
  v_x a * v_x b + v_y a * v_y b + v_z a * v_z b.

(** The local [mag] of [vec_unit] and [triangle_normal_area]. *)
Definition vec_mag (v : vec) : R :=
  sqrt (v_x v * v_x v + v_y v * v_y v + v_z v * v_z v).

Definition vec_unit (v : vec) : vec :=
  let mag := vec_mag v in
  Vec (v_x v / mag) (v_y v / mag) (v_z v / mag).

Definition cross_prod (a b : vec) : vec :=
  Vec (v_y a * v_z b - v_z a * v_y b)
      (v_z a * v_x b - v_x a * v_z b)
      (v_x a * v_y b - v_y a * v_x b).

Definition vec_rot (k : vec) (theta : R) (v : vec) : vec :=
  let cos_theta := cos theta in
  let sin_theta := sin theta in
  let part := (v_x k * v_x v + v_y k * v_y v + v_z k * v_z v)
              * (1 - cos_theta) in
  Vec (v_x v * cos_theta + (v_y k * v_z v - v_z k * v_y v) * sin_theta
       + v_x k * part)
      (v_y v * cos_theta + (v_z k * v_x v - v_x k * v_z v) * sin_theta
       + v_y k * part)
      (v_z v * cos_theta + (v_x k * v_y v - v_y k * v_x v) * sin_theta
       + v_z k * part).

(** ** Triangle operations *)

(** The cross product [(v2 - v1) x (v0 - v1)] before it is normalised. *)
Definition triangle_cross (vert_0 vert_1 vert_2 : vec) : vec :=
  let a := vec_sub vert_2 vert_1 in
  let b := vec_sub vert_0 vert_1 in
  Vec (v_y a * v_z b - v_z a * v_y b)
      (v_z a * v_x b - v_x a * v_z b)
      (v_x a * v_y b - v_y a * v_x b).

Definition triangle_normal_area (vert_0 vert_1 vert_2 : vec) : vec * R :=
  let norm := triangle_cross vert_0 vert_1 vert_2 in
  let mag := sqrt (v_x norm * v_x norm + v_y norm * v_y norm
                   + v_z norm * v_z norm) in
  (Vec (v_x norm / mag) (v_y norm / mag) (v_z norm / mag), mag / 2).

Definition triangle_centroid (vert_0 vert_1 vert_2 : vec) : vec :=
  Vec ((v_x vert_0 + v_x vert_1 + v_x vert_2) / 3)
      ((v_y vert_0 + v_y vert_1 + v_y vert_2) / 3)
      ((v_z vert_0 + v_z vert_1 + v_z vert_2) / 3).

Definition triangle_vert_ll (dim_1 ind_0 ind_1 : nat) : nat * nat * nat :=
  ((ind_0 * dim_1 + ind_1) * 3,
   (ind_0 * dim_1 + ind_1 + 1) * 3,
   ((ind_0 + 1) * dim_1 + ind_1) * 3)%nat.

Definition triangle_vert_ur (dim_1 ind_0 ind_1 : nat) : nat * nat * nat :=
  ((ind_0 * dim_1 + ind_1 + 1) * 3,
   ((ind_0 + 1) * dim_1 + ind_1 + 1) * 3,
   ((ind_0 + 1) * dim_1 + ind_1) * 3)%nat.

(** The two-entry table [func_ptr]; the loops index it with 0 and 1 only. *)
Definition func_ptr (n : nat) : nat -> nat -> nat -> nat * nat * nat :=
  match n with
  | O => triangle_vert_ll
  | _ => triangle_vert_ur
  end.

(** ** Atmospheric refraction *)

Definition atmos_refrac (elev_ang_true temp pressure : R) : R :=
  let lower := -1 in
  let upper := 90 in
  let elev_ang_true := Rmax lower (Rmin elev_ang_true upper) in
  let refrac_cor :=
    1.02 / tan (deg2rad (elev_ang_true + 10.3 / (elev_ang_true + 5.11))) in
  let refrac_cor := refrac_cor + 0.0019279 in
  let refrac_cor := refrac_cor * ((pressure / 101) * (283 / (273 + temp))) in
  refrac_cor * (1 / 60).

(** ** Values of [float] cells, rays and the scene *)

(** What a [float] of the output buffer or the [tfar] of a ray holds. *)
Inductive fval : Type :=
  | FNaN
  | FNegInf
  | FVal (r : R).

(** [a + b] on [float]s. *)
Definition fadd (a b : fval) : fval :=
  match a, b with
  | FNaN, _ | _, FNaN => FNaN
  | FNegInf, _ | _, FNegInf => FNegInf
  | FVal x, FVal y => FVal (x + y)
  end.

(** [a / d] for a positive divisor [d] (the number of triangles of a
    grid cell). *)
Definition fdiv (a : fval) (d : R) : fval :=
  match a with
  | FNaN => FNaN
  | FNegInf => FNegInf
  | FVal x => FVal (x / d)
  end.

(** The test [a > 0.0]; it is false on NaN and on minus infinity. *)
Definition fgt0 (a : fval) : bool :=
  match a with
  | FVal x => if Rlt_dec 0 x then true else false
  | _ => false
  end.

(** The fields of [RTCRay] that the source sets. *)
Record RTCRay : Type := Ray {
  org : vec;
  dir : vec;
  tnear : R;
  tfar : fval;
  id : nat
}.

(** The committed Embree scene: whether the ray with the given origin,
    direction, [tnear] and [tfar] is occluded. *)
Definition RTCScene : Type := vec -> vec -> R -> fval -> bool.

(** [rtcOccluded1]: on a hit [tfar] becomes minus infinity, otherwise the
    ray is left as it is. *)
Definition rtcOccluded1 (scene : RTCScene) (ray : RTCRay) : RTCRay :=
  if scene (org ray) (dir ray) (tnear ray) (tfar ray)
  then Ray (org ray) (dir ray) (tnear ray) FNegInf (id ray)
  else ray.

(** [rtcOccluded1M]: the first [M] rays of the array are traced. *)
Definition rtcOccluded1M (scene : RTCScene) (rays : list RTCRay) (M : nat)
  : list RTCRay :=
  map (rtcOccluded1 scene) (take M rays) ++ drop M rays.

(** [rtcOccluded8]: the lanes whose entry of [valid] is -1 are traced, the
    others are not touched. *)
Definition rtcOccluded8 (valid : list Z) (scene : RTCScene)
  (ray8 : list RTCRay) : list RTCRay :=
  zip_with (fun (v : Z) (ray : RTCRay) =>
              if (v =? -1)%Z then rtcOccluded1 scene ray else ray)
           valid ray8.

(** Reading a [float] of a vertex buffer, and the vertex that starts at an
    offset. *)
Definition rd (buf : list R) (i : nat) : R := nth i buf 0.

Definition vertex (buf : list R) (ind : nat) : vec :=
  Vec (rd buf ind) (rd buf (ind + 1)) (rd buf (ind + 2)).

(** [for (k = lo; k < lo + len; k++) body], threading the state. *)
Definition for_range {S : Type} (lo len : nat) (body : nat -> S -> S)
  (s : S) : S :=
  fold_left (fun s k => body k s) (seq lo len) s.

(** [for (k = lo; k < lo + len; k += 2) body]. *)
Definition for_range2 {S : Type} (lo len : nat) (body : nat -> S -> S)
  (s : S) : S :=
  fold_left (fun s t => body (lo + 2 * t)%nat s)
            (seq 0 (Nat.div (len + 1) 2)) s.

(** ** The terrain object *)

Record CppTerrain : Type := Terrain {
  scene : RTCScene;
  vert_grid_cl : list R;
  dem_dim_0_cl : Z;
  dem_dim_1_cl : Z;
  vert_grid_in_cl : list R;
  dem_dim_in_0_cl : Z;
  dem_dim_in_1_cl : Z;
  pixel_per_gc_cl : Z;
  offset_gc_cl : Z;
  mask_cl : list Z;
  sw_dir_cor_max_cl : R;
  ang_max_cl : R;
  ray_org_elev_cl : R;
  num_gc_y_cl : Z;
  num_gc_x_cl : Z;
  num_tri_cl : Z;
  dot_prod_min_cl : R;
  dist_search_cl : R
}.

(** [CppTerrain::initialise]; [initializeScene] stands for the construction
    of the Embree scene over the outer DEM. *)
Definition initialise
  (initializeScene : list R -> Z -> Z -> string -> RTCScene)
  (vert_grid : list R) (dem_dim_0 dem_dim_1 : Z)
  (vert_grid_in : list R) (dem_dim_in_0 dem_dim_in_1 : Z)
  (pixel_per_gc offset_gc : Z) (mask : list Z) (dist_search : R)
  (geom_type : string) (sw_dir_cor_max ang_max : R) : CppTerrain :=
  {| scene := initializeScene vert_grid dem_dim_0 dem_dim_1 geom_type;
     vert_grid_cl := vert_grid;
     dem_dim_0_cl := dem_dim_0;
     dem_dim_1_cl := dem_dim_1;
     vert_grid_in_cl := vert_grid_in;
     dem_dim_in_0_cl := dem_dim_in_0;
     dem_dim_in_1_cl := dem_dim_in_1;
     pixel_per_gc_cl := pixel_per_gc;
     offset_gc_cl := offset_gc;
     mask_cl := mask;
     sw_dir_cor_max_cl := sw_dir_cor_max;
     ang_max_cl := ang_max;
     ray_org_elev_cl := 0.1;
     num_gc_y_cl := Z.quot (dem_dim_in_0 - 1) pixel_per_gc;
     num_gc_x_cl := Z.quot (dem_dim_in_1 - 1) pixel_per_gc;
     num_tri_cl := ((dem_dim_in_0 - 1) * (dem_dim_in_1 - 1) * 2)%Z;
     dot_prod_min_cl := cos (deg2rad ang_max);
     dist_search_cl := dist_search * 1000 |}.

#[global] Instance R_inhabited : Inhabited R := populate 0.
#[global] Instance fval_inhabited : Inhabited fval := populate FNaN.

(** The content of an array element that has not been written yet; it is
    never read. *)
Definition ray_uninit : RTCRay := Ray (Vec 0 0 0) (Vec 0 0 0) 0 FNaN 0.

#[global] Instance RTCRay_inhabited : Inhabited RTCRay := populate ray_uninit.

(** What a correction call writes to the standard output. *)
Inductive message : Type :=
  | Msg_error (text : string)
  | Msg_ray_tracing_time
  | Msg_number_of_rays (num_rays : nat)
  | Msg_fraction_of_rays (frac_ray : R).

(** The lines printed at the end of a completed correction call. *)
Definition report (T : CppTerrain) (num_rays : nat) : list message :=
  [Msg_ray_tracing_time; Msg_number_of_rays num_rays;
   Msg_fraction_of_rays (INR num_rays / IZR (num_tri_cl T))].

(** ** Correction factors: one ray at a time *)

(** Parameters for the reference atmosphere. *)
Definition temperature_ref : R := 283.15.
Definition pressure_ref : R := 101.
Definition lapse_rate : R := 0.0065.
Definition g : R := 9.81.
Definition R_d : R := 287.
Definition exp_baro : R := g / (R_d * lapse_rate).

(** The object and the local variables that are in scope where the
    triangle loop of [sw_dir_cor] considers refraction. [vert_0], [vert_1]
    and [vert_2] hold the vertices of the horizontal triangle there. *)
Record tri_scope : Type := Scope {
  this : CppTerrain;
  vert_0 : vec;
  vert_1 : vec;
  vert_2 : vec;
  cent : vec;
  norm_tilt : vec;
  area_tilt : R;
  ray_org : vec;
  norm_hori : vec;
  area_hori : R;
  surf_enl_fac : R;
  sun : vec;
  dot_prod_hs : R
}.

(** The block [if (refrac_cor == 1) { ... }]. *)
Definition refraction (f : tri_scope) : tri_scope :=
  let cent_base := triangle_centroid (vert_0 f) (vert_1 f) (vert_2 f) in
  let elevation := sqrt ((v_x (cent f) - v_x cent_base) ^ 2
                         + (v_y (cent f) - v_y cent_base) ^ 2
                         + (v_z (cent f) - v_z cent_base) ^ 2) in
  let elev_ang_true := 90 - rad2deg (acos (dot_prod_hs f)) in
  let temperature := temperature_ref - (lapse_rate * elevation) in
  let pressure :=
    pressure_ref * Rpower (temperature / temperature_ref) exp_baro in
  let refrac_cor := atmos_refrac elev_ang_true (K2degC temperature) pressure in
  let k := cross_prod (sun f) (norm_hori f) in
  let k := vec_unit k in
  let sun' := vec_rot k (deg2rad refrac_cor) (sun f) in
  let dot_prod_hs' := v_x (norm_hori f) * v_x sun'
                      + v_y (norm_hori f) * v_y sun'
                      + v_z (norm_hori f) * v_z sun' in
  Scope (this f) (vert_0 f) (vert_1 f) (vert_2 f) (cent f) (norm_tilt f)
        (area_tilt f) (ray_org f) (norm_hori f) (area_hori f)
        (surf_enl_fac f) sun' dot_prod_hs'.

(** The scope the triangle loop of [sw_dir_cor] has built for triangle [n]
    of pixel [(k, m)] when it reaches the refraction block. *)
Definition sw_dir_cor_scope (T : CppTerrain) (sun_pos : vec) (k m n : nat)
  : tri_scope :=
  let '(ind_tri_0, ind_tri_1, ind_tri_2) :=
    func_ptr n (Z.to_nat (dem_dim_1_cl T))
      (k + Z.to_nat (pixel_per_gc_cl T * offset_gc_cl T))
      (m + Z.to_nat (pixel_per_gc_cl T * offset_gc_cl T)) in
  let vert_0 := vertex (vert_grid_cl T) ind_tri_0 in
  let vert_1 := vertex (vert_grid_cl T) ind_tri_1 in
  let vert_2 := vertex (vert_grid_cl T) ind_tri_2 in
  let cent := triangle_centroid vert_0 vert_1 vert_2 in
  let '(norm_tilt, area_tilt) := triangle_normal_area vert_0 vert_1 vert_2 in
  let ray_org := Vec (v_x cent + v_x norm_tilt * ray_org_elev_cl T)
                     (v_y cent + v_y norm_tilt * ray_org_elev_cl T)
                     (v_z cent + v_z norm_tilt * ray_org_elev_cl T) in
  let '(ind_tri_0, ind_tri_1, ind_tri_2) :=
    func_ptr n (Z.to_nat (dem_dim_in_1_cl T)) k m in
  let vert_0 := vertex (vert_grid_in_cl T) ind_tri_0 in
  let vert_1 := vertex (vert_grid_in_cl T) ind_tri_1 in
  let vert_2 := vertex (vert_grid_in_cl T) ind_tri_2 in
  let '(norm_hori, area_hori) := triangle_normal_area vert_0 vert_1 vert_2 in
  let surf_enl_fac := area_tilt / area_hori in
  let sun := vec_unit (vec_sub sun_pos ray_org) in
  let dot_prod_hs := v_x norm_hori * v_x sun + v_y norm_hori * v_y sun
                     + v_z norm_hori * v_z sun in
  Scope T vert_0 vert_1 vert_2 cent norm_tilt area_tilt ray_org norm_hori
        area_hori surf_enl_fac sun dot_prod_hs.

(** The body of the loop over the two triangles of a pixel. *)
Definition sw_dir_cor_triangle (T : CppTerrain) (sun_pos : vec)
  (refrac_cor : Z) (lin_ind_gc k m n : nat) (st : list fval * nat)
  : list fval * nat :=
  let '(sw_dir_cor, num_rays) := st in
  let f := sw_dir_cor_scope T sun_pos k m n in
  let f := if (refrac_cor =? 1)%Z then refraction f else f in
  if Rle_dec (dot_prod_hs f) (dot_prod_min_cl (this f)) then st
  else
    let dot_prod_ts := v_x (norm_tilt f) * v_x (sun f)
                       + v_y (norm_tilt f) * v_y (sun f)
                       + v_z (norm_tilt f) * v_z (sun f) in
    if Rle_dec dot_prod_ts 0 then st
    else
      let ray := Ray (ray_org f) (sun f) 0
                     (FVal (dist_search_cl (this f))) 0 in
      let ray := rtcOccluded1 (scene (this f)) ray in
      let sw_dir_cor :=
        if fgt0 (tfar ray)
        then <[lin_ind_gc :=
                 fadd (sw_dir_cor !!! lin_ind_gc)
                      (FVal (Rmin ((dot_prod_ts / dot_prod_hs f)
                                   * surf_enl_fac f)
                                  (sw_dir_cor_max_cl (this f))))]>
             sw_dir_cor
        else sw_dir_cor in
      (sw_dir_cor, (num_rays + 1)%nat).

(** The body of the loop over the grid cells. *)
Definition sw_dir_cor_cell (T : CppTerrain) (sun_pos : vec) (refrac_cor : Z)
  (i j : nat) (st : list fval * nat) : list fval * nat :=
  let lin_ind_gc := lin_ind_2d (Z.to_nat (num_gc_x_cl T)) i j in
  let p := Z.to_nat (pixel_per_gc_cl T) in
  if (mask_cl T !!! lin_ind_gc =? 1)%Z
  then
    for_range (i * p) p (fun k =>
      for_range (j * p) p (fun m =>
        for_range 0 2 (fun n =>
          sw_dir_cor_triangle T sun_pos refrac_cor lin_ind_gc k m n))) st
  else (<[lin_ind_gc := FNaN]> (fst st), snd st).

(** The reduction over the rows of grid cells. *)
Definition sw_dir_cor_cells (T : CppTerrain) (sun_pos : vec)
  (refrac_cor : Z) (sw_dir_cor : list fval) : list fval * nat :=
  for_range 0 (Z.to_nat (num_gc_y_cl T)) (fun i =>
    for_range 0 (Z.to_nat (num_gc_x_cl T)) (fun j =>
      sw_dir_cor_cell T sun_pos refrac_cor i j)) (sw_dir_cor, 0%nat).

(** [CppTerrain::sw_dir_cor]: the output buffer after the call and what was
    printed. *)
Definition sw_dir_cor (T : CppTerrain) (sun_pos : vec)
  (sw_dir_cor : list fval) (refrac_cor : Z) : list fval * list message :=
  let '(sw_dir_cor, num_rays) :=
    sw_dir_cor_cells T sun_pos refrac_cor sw_dir_cor in
  let num_tri_per_gc := IZR (pixel_per_gc_cl T * pixel_per_gc_cl T) * 2 in
  let num_elem := Z.to_nat (num_gc_y_cl T * num_gc_x_cl T) in
  (for_range 0 num_elem
     (fun i sw_dir_cor =>
        <[i := fdiv (sw_dir_cor !!! i) num_tri_per_gc]> sw_dir_cor)
     sw_dir_cor,
   report T num_rays).

(** ** Correction factors with coherent rays *)

(** The arrays [rays] and [sw_dir_cor_ray] of a grid cell and the number of
    their elements in use. *)
Record coherent_batch : Type := Batch {
  rays : list RTCRay;
  sw_dir_cor_ray : list R;
  num_rays_gc : nat
}.

(** The body of the loop over the two triangles of a pixel. *)
Definition sw_dir_cor_coherent_triangle (T : CppTerrain) (sun_pos : vec)
  (k m n : nat) (b : coherent_batch) : coherent_batch :=
  let '(ind_tri_0, ind_tri_1, ind_tri_2) :=
    func_ptr n (Z.to_nat (dem_dim_1_cl T))
      (k + Z.to_nat (pixel_per_gc_cl T * offset_gc_cl T))
      (m + Z.to_nat (pixel_per_gc_cl T * offset_gc_cl T)) in
  let vert_0 := vertex (vert_grid_cl T) ind_tri_0 in
  let vert_1 := vertex (vert_grid_cl T) ind_tri_1 in
  let vert_2 := vertex (vert_grid_cl T) ind_tri_2 in
  let cent := triangle_centroid vert_0 vert_1 vert_2 in
  let '(norm_tilt, area_tilt) := triangle_normal_area vert_0 vert_1 vert_2 in
  let ray_org := Vec (v_x cent + v_x norm_tilt * ray_org_elev_cl T)
                     (v_y cent + v_y norm_tilt * ray_org_elev_cl T)
                     (v_z cent + v_z norm_tilt * ray_org_elev_cl T) in
  let '(ind_tri_0, ind_tri_1, ind_tri_2) :=
    func_ptr n (Z.to_nat (dem_dim_in_1_cl T)) k m in
  let vert_0 := vertex (vert_grid_in_cl T) ind_tri_0 in
  let vert_1 := vertex (vert_grid_in_cl T) ind_tri_1 in
  let vert_2 := vertex (vert_grid_in_cl T) ind_tri_2 in
  let '(norm_hori, area_hori) := triangle_normal_area vert_0 vert_1 vert_2 in
  let surf_enl_fac := area_tilt / area_hori in
  let sun := vec_unit (vec_sub sun_pos ray_org) in
  let dot_prod_hs := v_x norm_hori * v_x sun + v_y norm_hori * v_y sun
                     + v_z norm_hori * v_z sun in
  if Rle_dec dot_prod_hs (dot_prod_min_cl T) then b
  else
    let dot_prod_ts := v_x norm_tilt * v_x sun + v_y norm_tilt * v_y sun
                       + v_z norm_tilt * v_z sun in
    if Rle_dec dot_prod_ts 0 then b
    else
      Batch (<[num_rays_gc b :=
                 Ray ray_org sun 0 (FVal (dist_search_cl T)) (num_rays_gc b)]>
             (rays b))
            (<[num_rays_gc b :=
                 Rmin ((dot_prod_ts / dot_prod_hs) * surf_enl_fac)
                      (sw_dir_cor_max_cl T)]>
             (sw_dir_cor_ray b))
            (num_rays_gc b + 1)%nat.

(** The body of the loop over the grid cells. *)
Definition sw_dir_cor_coherent_cell (T : CppTerrain) (sun_pos : vec)
  (i j : nat) (st : list fval * nat) : list fval * nat :=
  let '(sw_dir_cor, num_rays) := st in
  let num_tri_per_gc := (pixel_per_gc_cl T * pixel_per_gc_cl T * 2)%Z in
  let lin_ind_gc := lin_ind_2d (Z.to_nat (num_gc_x_cl T)) i j in
  let p := Z.to_nat (pixel_per_gc_cl T) in
  if (mask_cl T !!! lin_ind_gc =? 1)%Z
  then
    let b :=
      for_range (i * p) p (fun k =>
        for_range (j * p) p (fun m =>
          for_range 0 2 (fun n =>
            sw_dir_cor_coherent_triangle T sun_pos k m n)))
        (Batch (replicate (Z.to_nat num_tri_per_gc) ray_uninit)
               (replicate (Z.to_nat num_tri_per_gc) 0) 0%nat) in
    let rays' := rtcOccluded1M (scene T) (rays b) (num_rays_gc b) in
    let num_rays := (num_rays + num_rays_gc b)%nat in
    let sw_dir_cor_agg :=
      for_range 0 (num_rays_gc b)
        (fun k sw_dir_cor_agg =>
           if fgt0 (tfar (rays' !!! k))
           then sw_dir_cor_agg + sw_dir_cor_ray b !!! id (rays' !!! k)
           else sw_dir_cor_agg) 0 in
    (<[lin_ind_gc := FVal (sw_dir_cor_agg / IZR num_tri_per_gc)]> sw_dir_cor,
     num_rays)
  else (<[lin_ind_gc := FNaN]> sw_dir_cor, num_rays).

(** The reduction over the rows of grid cells. *)
Definition sw_dir_cor_coherent_cells (T : CppTerrain) (sun_pos : vec)
  (sw_dir_cor : list fval) : list fval * nat :=
  for_range 0 (Z.to_nat (num_gc_y_cl T)) (fun i =>
    for_range 0 (Z.to_nat (num_gc_x_cl T)) (fun j =>
      sw_dir_cor_coherent_cell T sun_pos i j)) (sw_dir_cor, 0%nat).

(** [CppTerrain::sw_dir_cor_coherent]. *)
Definition sw_dir_cor_coherent (T : CppTerrain) (sun_pos : vec)
  (sw_dir_cor : list fval) : list fval * list message :=
  let '(sw_dir_cor, num_rays) :=
    sw_dir_cor_coherent_cells T sun_pos sw_dir_cor in
  (sw_dir_cor, report T num_rays).

(** ** Correction factors with coherent rays (packages with 8 rays) *)

(** The ray package of a block of 2 x 2 pixels: the eight lanes of [ray8],
    [valid8], [sw_dir_cor_ray] and the number of lanes in use. *)
Record ray_package : Type := Package {
  ray8 : list RTCRay;
  valid8 : list Z;
  sw_dir_cor_ray8 : list R;
  num_rays_gc8 : nat
}.

(** The body of the loop over the two triangles of a pixel. *)
Definition sw_dir_cor_coherent_rp8_triangle (T : CppTerrain) (sun_pos : vec)
  (k_block m_block n : nat) (b : ray_package) : ray_package :=
  let '(ind_tri_0, ind_tri_1, ind_tri_2) :=
    func_ptr n (Z.to_nat (dem_dim_1_cl T))
      (k_block + Z.to_nat (pixel_per_gc_cl T * offset_gc_cl T))
      (m_block + Z.to_nat (pixel_per_gc_cl T * offset_gc_cl T)) in
  let vert_0 := vertex (vert_grid_cl T) ind_tri_0 in
  let vert_1 := vertex (vert_grid_cl T) ind_tri_1 in
  let vert_2 := vertex (vert_grid_cl T) ind_tri_2 in
  let cent := triangle_centroid vert_0 vert_1 vert_2 in
  let '(norm_tilt, area_tilt) := triangle_normal_area vert_0 vert_1 vert_2 in
  let ray_org := Vec (v_x cent + v_x norm_tilt * ray_org_elev_cl T)
                     (v_y cent + v_y norm_tilt * ray_org_elev_cl T)
                     (v_z cent + v_z norm_tilt * ray_org_elev_cl T) in
  let '(ind_tri_0, ind_tri_1, ind_tri_2) :=
    func_ptr n (Z.to_nat (dem_dim_in_1_cl T)) k_block m_block in
  let vert_0 := vertex (vert_grid_in_cl T) ind_tri_0 in
  let vert_1 := vertex (vert_grid_in_cl T) ind_tri_1 in
  let vert_2 := vertex (vert_grid_in_cl T) ind_tri_2 in
  let '(norm_hori, area_hori) := triangle_normal_area vert_0 vert_1 vert_2 in
  let surf_enl_fac := area_tilt / area_hori in
  let sun := vec_unit (vec_sub sun_pos ray_org) in
  let dot_prod_hs := v_x norm_hori * v_x sun + v_y norm_hori * v_y sun
                     + v_z norm_hori * v_z sun in
  if Rle_dec dot_prod_hs (dot_prod_min_cl T) then b
  else
    let dot_prod_ts := v_x norm_tilt * v_x sun + v_y norm_tilt * v_y sun
                       + v_z norm_tilt * v_z sun in
    if Rle_dec dot_prod_ts 0 then b
    else
      Package (<[num_rays_gc8 b :=
                   Ray ray_org sun 0 (FVal (dist_search_cl T))
                       (num_rays_gc8 b)]> (ray8 b))
              (<[num_rays_gc8 b := (-1)%Z]> (valid8 b))
              (<[num_rays_gc8 b :=
                   Rmin ((dot_prod_ts / dot_prod_hs) * surf_enl_fac)
                        (sw_dir_cor_max_cl T)]> (sw_dir_cor_ray8 b))
              (num_rays_gc8 b + 1)%nat.

(** What a grid cell carries from one block of pixels to the next: [ray8],
    [sw_dir_cor_ray], [sw_dir_cor_agg] and the ray counter. *)
Record rp8_cell : Type := Rp8Cell {
  cell_ray8 : list RTCRay;
  cell_sw_dir_cor_ray : list R;
  sw_dir_cor_agg : R;
  cell_num_rays : nat
}.

(** The body of the loop over the blocks of 2 x 2 pixels. *)
Definition sw_dir_cor_coherent_rp8_block (T : CppTerrain) (sun_pos : vec)
  (k m : nat) (c : rp8_cell) : rp8_cell :=
  let b :=
    for_range k 2 (fun k_block =>
      for_range m 2 (fun m_block =>
        for_range 0 2 (fun n =>
          sw_dir_cor_coherent_rp8_triangle T sun_pos k_block m_block n)))
      (Package (cell_ray8 c) (replicate 8 0%Z) (cell_sw_dir_cor_ray c)
               0%nat) in
  let ray8' := rtcOccluded8 (valid8 b) (scene T) (ray8 b) in
  let num_rays := (cell_num_rays c + num_rays_gc8 b)%nat in
  let agg :=
    for_range 0 (num_rays_gc8 b)
      (fun n agg =>
         if fgt0 (tfar (ray8' !!! n))
         then agg + sw_dir_cor_ray8 b !!! n
         else agg) (sw_dir_cor_agg c) in
  Rp8Cell ray8' (sw_dir_cor_ray8 b) agg num_rays.

(** The body of the loop over the grid cells. *)
Definition sw_dir_cor_coherent_rp8_cell (T : CppTerrain) (sun_pos : vec)
  (i j : nat) (st : list fval * nat) : list fval * nat :=
  let '(sw_dir_cor, num_rays) := st in
  let num_tri_per_gc := IZR (pixel_per_gc_cl T * pixel_per_gc_cl T) * 2 in
  let lin_ind_gc := lin_ind_2d (Z.to_nat (num_gc_x_cl T)) i j in
  let p := Z.to_nat (pixel_per_gc_cl T) in
  if (mask_cl T !!! lin_ind_gc =? 1)%Z
  then
    let c :=
      for_range2 (i * p) p (fun k =>
        for_range2 (j * p) p (fun m =>
          sw_dir_cor_coherent_rp8_block T sun_pos k m))
        (Rp8Cell (replicate 8 ray_uninit) (replicate 8 0) 0 num_rays) in
    (<[lin_ind_gc := FVal (sw_dir_cor_agg c / num_tri_per_gc)]> sw_dir_cor,
     cell_num_rays c)
  else (<[lin_ind_gc := FNaN]> sw_dir_cor, num_rays).

(** The reduction over the rows of grid cells. *)
Definition sw_dir_cor_coherent_rp8_cells (T : CppTerrain) (sun_pos : vec)
  (sw_dir_cor : list fval) : list fval * nat :=
  for_range 0 (Z.to_nat (num_gc_y_cl T)) (fun i =>
    for_range 0 (Z.to_nat (num_gc_x_cl T)) (fun j =>
      sw_dir_cor_coherent_rp8_cell T sun_pos i j)) (sw_dir_cor, 0%nat).

(** [CppTerrain::sw_dir_cor_coherent_rp8]. *)
Definition sw_dir_cor_coherent_rp8 (T : CppTerrain) (sun_pos : vec)
  (sw_dir_cor : list fval) : list fval * list message :=
  if (Z.rem (pixel_per_gc_cl T) 2 =? 0)%Z
  then
    let '(sw_dir_cor, num_rays) :=
      sw_dir_cor_coherent_rp8_cells T sun_pos sw_dir_cor in
    (sw_dir_cor, report T num_rays)
  else
    (sw_dir_cor,
     [Msg_error
        "Error: method is only implemented for even 'pixel_per_gc' values"%string]).

(** ** Definitions used to state the properties *)

(** The vector [v] scaled by [a]. *)
Definition vec_scale (a : R) (v : vec) : vec :=
  Vec (a * v_x v) (a * v_y v) (a * v_z v).

(** The normal and the area the engines compute for triangle [n] of the
    pixel [(ind_0, ind_1)] of a vertex buffer with [dim_1] columns. *)
Definition pixel_triangle_normal_area (vert : list R)
  (dim_1 ind_0 ind_1 n : nat) : vec * R :=
  let '(ind_tri_0, ind_tri_1, ind_tri_2) := func_ptr n dim_1 ind_0 ind_1 in
  triangle_normal_area (vertex vert ind_tri_0) (vertex vert ind_tri_1)
                       (vertex vert ind_tri_2).

(** A flat DEM of 2 x 2 vertices whose rows run towards decreasing y. *)
Definition dem_rows_southward : list R :=
  [0; 0; 0;   1; 0; 0;
   0; -1; 0;  1; -1; 0].

(** A flat DEM of 2 x 2 vertices whose rows run towards increasing y. *)
Definition dem_rows_northward : list R :=
  [0; 0; 0;  1; 0; 0;
   0; 1; 0;  1; 1; 0].

(** A scene without occluders. *)
Definition open_sky : RTCScene := fun _ _ _ _ => false.

(** A terrain of one grid cell of one pixel over [dem_rows_northward], with
    [ang_max] 90 degree and [sw_dir_cor_max] 1. *)
Definition terrain_1x1 : CppTerrain :=
  initialise (fun _ _ _ _ => open_sky)
    dem_rows_northward 2 2 dem_rows_northward 2 2 1 0 [1%Z] 1
    "triangle"%string 1 90.

(** The sum of a list of reals. *)
Definition Rsum (l : list R) : R := foldr Rplus 0 l.

(** The triangles [(k, m, n)] of the grid cell [(i, j)], in the order in
    which the single-ray and the coherent-batch engine visit them; [p] is
    [pixel_per_gc]. *)
Definition cell_triangles (p i j : nat) : list (nat * nat * nat) :=
  flat_map (fun k =>
    flat_map (fun m => map (fun n => (k, m, n)) (seq 0 2)) (seq (j * p) p))
    (seq (i * p) p).

(** The triangles of the block of 2 x 2 pixels that starts at pixel
    [(k, m)], and the triangles of the grid cell [(i, j)] block by block,
    in the order in which the packet-8 engine visits them. *)
Definition block_triangles (k m : nat) : list (nat * nat * nat) :=
  flat_map (fun k_block =>
    flat_map (fun m_block => map (fun n => (k_block, m_block, n)) (seq 0 2))
             (seq m 2))
    (seq k 2).

Definition cell_blocks (p i j : nat) : list (nat * nat) :=
  flat_map (fun t =>
    map (fun s => (i * p + 2 * t, j * p + 2 * s)%nat)
        (seq 0 (Nat.div (p + 1) 2)))
    (seq 0 (Nat.div (p + 1) 2)).

(** The scope of triangle [n] of pixel [(k, m)] after the refraction
    block, which is entered when [refrac_cor] is 1. *)
Definition triangle_scope (T : CppTerrain) (sun_pos : vec) (refrac_cor : Z)
  (k m n : nat) : tri_scope :=
  let f := sw_dir_cor_scope T sun_pos k m n in
  if (refrac_cor =? 1)%Z then refraction f else f.

(** The per-triangle tuple of the specification: the ray of a triangle that
    passes both self-shadow tests, with the contribution the triangle makes
    if the ray is not occluded; [None] for a triangle that is culled. *)
Definition candidate (T : CppTerrain) (sun_pos : vec) (refrac_cor : Z)
  (t : nat * nat * nat) : option (RTCRay * R) :=
  let '(k, m, n) := t in
  let f := triangle_scope T sun_pos refrac_cor k m n in
  if Rle_dec (dot (norm_hori f) (sun f)) (dot_prod_min_cl T) then None
  else if Rle_dec (dot (norm_tilt f) (sun f)) 0 then None
  else Some (Ray (ray_org f) (sun f) 0 (FVal (dist_search_cl T)) 0,
             Rmin ((dot (norm_tilt f) (sun f) / dot (norm_hori f) (sun f))
                   * (area_tilt f / area_hori f))
                  (sw_dir_cor_max_cl T)).

(** Whether the ray of a candidate comes back from the scene with a
    positive [tfar]. *)
Definition unoccluded (T : CppTerrain) (ray : RTCRay) : bool :=
  fgt0 (tfar (rtcOccluded1 (scene T) ray)).

(** The contribution of a triangle to the sum of its grid cell. *)
Definition contribution (T : CppTerrain) (sun_pos : vec) (refrac_cor : Z)
  (t : nat * nat * nat) : R :=
  match candidate T sun_pos refrac_cor t with
  | None => 0
  | Some (ray, c) => if unoccluded T ray then c else 0
  end.

(** The number of rays a triangle makes the engines trace. *)
Definition rays_of (T : CppTerrain) (sun_pos : vec) (refrac_cor : Z)
  (t : nat * nat * nat) : nat :=
  match candidate T sun_pos refrac_cor t with
  | None => 0
  | Some _ => 1
  end.

(** The sum of the contributions and the number of rays of a grid cell. *)
Definition cell_sum (T : CppTerrain) (sun_pos : vec) (refrac_cor : Z)
  (i j : nat) : R :=
  Rsum (map (contribution T sun_pos refrac_cor)
            (cell_triangles (Z.to_nat (pixel_per_gc_cl T)) i j)).

Definition cell_rays (T : CppTerrain) (sun_pos : vec) (refrac_cor : Z)
  (i j : nat) : nat :=
  sum_list (map (rays_of T sun_pos refrac_cor)
                (cell_triangles (Z.to_nat (pixel_per_gc_cl T)) i j)).

(** The candidates of a list of triangles, in the order of the list, and
    the contribution a candidate makes. *)
Definition candidates (T : CppTerrain) (sun_pos : vec) (refrac_cor : Z)
  (ts : list (nat * nat * nat)) : list (RTCRay * R) :=
  omap (candidate T sun_pos refrac_cor) ts.

Definition candidate_contribution (T : CppTerrain) (rc : RTCRay * R) : R :=
  if unoccluded T (fst rc) then snd rc else 0.

(** The triangles of the grid cell [(i, j)] in the order in which the
    packet-8 engine visits them. *)
Definition cell_triangles_rp8 (p i j : nat) : list (nat * nat * nat) :=
  flat_map (fun b => block_triangles (fst b) (snd b)) (cell_blocks p i j).

(** The constraints of the interface on the arguments of [initialise], and
    the fields [initialise] derives from them. *)
Record valid_input (T : CppTerrain) : Prop := {
  valid_ang_max : 0 < ang_max_cl T <= 90;
  valid_sw_dir_cor_max : 0 < sw_dir_cor_max_cl T;
  valid_dist_search : 0 < dist_search_cl T;
  valid_pixel_per_gc : (1 <= pixel_per_gc_cl T)%Z;
  valid_offset_gc : (0 <= offset_gc_cl T)%Z;
  valid_dem_dim_in_0 :
    (1 <= dem_dim_in_0_cl T)%Z
    /\ dem_dim_in_0_cl T
       = (dem_dim_0_cl T - 2 * offset_gc_cl T * pixel_per_gc_cl T)%Z;
  valid_dem_dim_in_1 :
    (1 <= dem_dim_in_1_cl T)%Z
    /\ dem_dim_in_1_cl T
       = (dem_dim_1_cl T - 2 * offset_gc_cl T * pixel_per_gc_cl T)%Z;
  valid_vert_grid :
    length (vert_grid_cl T)
    = Z.to_nat (dem_dim_0_cl T * dem_dim_1_cl T * 3);
  valid_vert_grid_in :
    length (vert_grid_in_cl T)
    = Z.to_nat (dem_dim_in_0_cl T * dem_dim_in_1_cl T * 3);
  valid_num_gc_y :
    num_gc_y_cl T = Z.quot (dem_dim_in_0_cl T - 1) (pixel_per_gc_cl T);
  valid_num_gc_x :
    num_gc_x_cl T = Z.quot (dem_dim_in_1_cl T - 1) (pixel_per_gc_cl T);
  valid_mask :
    length (mask_cl T) = Z.to_nat (num_gc_y_cl T * num_gc_x_cl T);
  valid_dot_prod_min : dot_prod_min_cl T = cos (deg2rad (ang_max_cl T));
  valid_ray_org_elev : ray_org_elev_cl T = 0.1
}.

(** A triangle for which none of the divisions of the triangle loop has a
    zero divisor: the tilted and the horizontal triangle have an area, the
    sun is not at the ray origin and, when refraction is considered, the
    sun vector is not parallel to the horizontal normal. *)
Definition non_degenerate (T : CppTerrain) (sun_pos : vec) (refrac_cor : Z)
  (t : nat * nat * nat) : Prop :=
  let '(k, m, n) := t in
  let f := sw_dir_cor_scope T sun_pos k m n in
  area_tilt f <> 0
  /\ area_hori f <> 0
  /\ vec_sub sun_pos (ray_org f) <> Vec 0 0 0
  /\ (refrac_cor = 1%Z -> cross_prod (sun f) (norm_hori f) <> Vec 0 0 0).


(** The number of triangles of a grid cell, by which the engines divide. *)
Definition num_tri_per_gc (T : CppTerrain) : R :=
  IZR (pixel_per_gc_cl T * pixel_per_gc_cl T) * 2.

(** A sun position below the horizon of [terrain_1x1]. *)
Definition sun_low : vec := Vec 1000 0 (-1000).


(** A flat DEM of 3 x 3 vertices, and a terrain of one grid cell of 2 x 2
    pixels over it, with [ang_max] 90 degree and [sw_dir_cor_max] 5. *)
Definition dem_3x3 : list R :=
  [0; 0; 0;  1; 0; 0;  2; 0; 0;
   0; 1; 0;  1; 1; 0;  2; 1; 0;
   0; 2; 0;  1; 2; 0;  2; 2; 0].

Definition terrain_2x2 : CppTerrain :=
  initialise (fun _ _ _ _ => open_sky)
    dem_3x3 3 3 dem_3x3 3 3 2 0 [1%Z] 1 "triangle"%string 5 90.

(** A sun position above [terrain_2x2]. *)
Definition sun_high : vec := Vec 0 0 1000.

(** ** The geometry of the scene *)

(** [initializeScene] hands Embree a vertex buffer (the outer DEM, shared)
    and an index buffer and commits the scene. The embedding follows the
    function up to the commit: the geometry it builds and what it prints;
    the committed scene itself is the oracle [RTCScene]. The loop counters
    [i], [j] and [n], which are [int]s that are never negative, are [nat];
    [int] arithmetic is that of [Z] (a signed overflow is undefined in the
    source). *)

Inductive RTCGeometryType : Type :=
  | RTC_GEOMETRY_TYPE_TRIANGLE
  | RTC_GEOMETRY_TYPE_QUAD
  | RTC_GEOMETRY_TYPE_GRID.

Module Triangle.
Record t : Type := make { v0 : Z; v1 : Z; v2 : Z }.
End Triangle.

Module Quad.
Record t : Type := make { v0 : Z; v1 : Z; v2 : Z; v3 : Z }.
End Quad.

(** The fields of Embree's [RTCGrid]: [startVertexID] and [stride] are
    [unsigned int], [width] and [height] are [unsigned short]. *)
Record RTCGrid : Type := Grid {
  startVertexID : Z;
  stride : Z;
  width : Z;
  height : Z
}.

(** The conversion of an [int] to [unsigned int] and to [unsigned short],
    which an assignment to a field of [RTCGrid] makes. *)
Definition to_unsigned_int (a : Z) : Z := (a mod 2 ^ 32)%Z.

Definition to_unsigned_short (a : Z) : Z := (a mod 2 ^ 16)%Z.

(** The index buffer of the geometry, of the kind its type asks for. *)
Inductive index_buffer : Type :=
  | Index_triangles (triangles : list Triangle.t)
  | Index_quads (quads : list Quad.t)
  | Index_grid (grid : list RTCGrid).

Record RTCGeometry : Type := Geometry {
  rtc_geom_type : RTCGeometryType;
  vertex_buffer : list R;
  vertex_count : Z;
  index : index_buffer
}.

(** What [initializeScene] prints. *)
Inductive scene_message : Type :=
  | Msg_dem_dimensions (dem_dim_0 dem_dim_1 : Z)
  | Msg_number_of_vertices (num_vert : Z)
  | Msg_selected_geometry_type (name : string)
  | Msg_number_of_triangles (num_tri : Z)
  | Msg_number_of_quads (num_quad : Z)
  | Msg_bvh_build_time.

#[global] Instance Triangle_inhabited : Inhabited Triangle.t :=
  populate (Triangle.make 0 0 0).
#[global] Instance Quad_inhabited : Inhabited Quad.t :=
  populate (Quad.make 0 0 0 0).

(** The body of the loop over the pixels that fills [triangles]. *)
Definition initializeScene_triangle_pixel (dem_dim_1 : Z) (i j : nat)
  (st : list Triangle.t * nat) : list Triangle.t * nat :=
  let '(triangles, n) := st in
  let triangles :=
    <[n := Triangle.make (Z.of_nat i * dem_dim_1 + Z.of_nat j)
                         (Z.of_nat i * dem_dim_1 + Z.of_nat j + 1)
                         ((Z.of_nat i + 1) * dem_dim_1 + Z.of_nat j)]>
    triangles in
  let n := (n + 1)%nat in
  let triangles :=
    <[n := Triangle.make (Z.of_nat i * dem_dim_1 + Z.of_nat j + 1)
                         ((Z.of_nat i + 1) * dem_dim_1 + Z.of_nat j + 1)
                         ((Z.of_nat i + 1) * dem_dim_1 + Z.of_nat j)]>
    triangles in
  let n := (n + 1)%nat in
  (triangles, n).

(** The body of the loop over the pixels that fills [quads]. *)
Definition initializeScene_quad_pixel (dem_dim_1 : Z) (i j : nat)
  (st : list Quad.t * nat) : list Quad.t * nat :=
  let '(quads, n) := st in
  let quads :=
    <[n := Quad.make (Z.of_nat i * dem_dim_1 + Z.of_nat j)
                     (Z.of_nat i * dem_dim_1 + Z.of_nat j + 1)
                     ((Z.of_nat i + 1) * dem_dim_1 + Z.of_nat j + 1)
                     ((Z.of_nat i + 1) * dem_dim_1 + Z.of_nat j)]>
    quads in
  let n := (n + 1)%nat in
  (quads, n).

(** [initializeScene] up to the commit of the scene. The buffer that
    [rtcSetNewGeometryBuffer] returns holds default elements until they
    are written. *)
Definition initializeScene (vert_grid : list R) (dem_dim_0 dem_dim_1 : Z)
  (geom_type : string) : RTCGeometry * list scene_message :=
  let num_vert := (dem_dim_0 * dem_dim_1)%Z in
  let out := [Msg_dem_dimensions dem_dim_0 dem_dim_1;
              Msg_number_of_vertices num_vert] in
  let rtc_geom_type :=
    if String.eqb geom_type "triangle" then RTC_GEOMETRY_TYPE_TRIANGLE
    else if String.eqb geom_type "quad" then RTC_GEOMETRY_TYPE_QUAD
    else RTC_GEOMETRY_TYPE_GRID in
  let '(index, out) :=
    if String.eqb geom_type "triangle" then
      let out := out ++ [Msg_selected_geometry_type "triangle"] in
      let num_tri := ((dem_dim_0 - 1) * (dem_dim_1 - 1) * 2)%Z in
      let out := out ++ [Msg_number_of_triangles num_tri] in
      let triangles := replicate (Z.to_nat num_tri) inhabitant in
      let '(triangles, _) :=
        for_range 0 (Z.to_nat (dem_dim_0 - 1)) (fun i =>
          for_range 0 (Z.to_nat (dem_dim_1 - 1)) (fun j =>
            initializeScene_triangle_pixel dem_dim_1 i j))
          (triangles, 0%nat) in
      (Index_triangles triangles, out)
    else if String.eqb geom_type "quad" then
      let out := out ++ [Msg_selected_geometry_type "quad"] in
      let num_quad := ((dem_dim_0 - 1) * (dem_dim_1 - 1))%Z in
      let out := out ++ [Msg_number_of_quads num_quad] in
      let quads := replicate (Z.to_nat num_quad) inhabitant in
      let '(quads, _) :=
        for_range 0 (Z.to_nat (dem_dim_0 - 1)) (fun i =>
          for_range 0 (Z.to_nat (dem_dim_1 - 1)) (fun j =>
            initializeScene_quad_pixel dem_dim_1 i j))
          (quads, 0%nat) in
      (Index_quads quads, out)
    else
      let out := out ++ [Msg_selected_geometry_type "grid"] in
      (Index_grid [Grid (to_unsigned_int 0) (to_unsigned_int dem_dim_1)
                        (to_unsigned_short dem_dim_1)
                        (to_unsigned_short dem_dim_0)], out) in
  (Geometry rtc_geom_type vert_grid num_vert index,
   out ++ [Msg_bvh_build_time]).

(** * Coordinate transformations

    A shallow embedding of [subgrid_radiation/transform.pyx]. The
    functions are in the module [transform], because the file has a
    [deg2rad] of its own.
    - The [double] and [float] arithmetic is exact arithmetic on [R], as
      above; the narrowing to [float32] of the ENU coordinates is not
      represented.
    - The embedding has the functions that compute: [_lonlat2ecef_1d],
      [_ecef2enu_1d] and the constructor of [TransformerEcef2enu], on the
      elements of the arrays in row-major order. The wrappers
      [lonlat2ecef] and [ecef2enu], which check shapes and data types and
      hand the flattened arrays to them, are left out.
    - The constructor returns a value or raises [ValueError].
    - [np.empty] gives an array of zeros here; every element is written
      before the array is returned. The iterations of a [prange] loop,
      which write different elements, run in increasing order.
    - [np.deg2rad], [np.cos], [np.sin] and [np.sqrt] on a [double] are
      [deg2rad], [cos], [sin] and [sqrt]. *)

Module transform.

#[global] Instance Rlt_decision (x y : R) : Decision (x < y) := Rlt_dec x y.
#[global] Instance Rgt_decision (x y : R) : Decision (x > y) := Rgt_dec x y.

(** [raise ValueError(msg)]. *)
Inductive exn : Type :=
  | ValueError (msg : string).

Inductive result (A : Type) : Type :=
  | Raise (e : exn)
  | Return (a : A).

Arguments Raise {A} e.
Arguments Return {A} a.

Definition deg2rad (ang_in : R) : R :=
  let ang_out := ang_in * (PI / 180) in
  ang_out.

Definition _lonlat2ecef_1d (lon lat h : list R) (ellps : string)
  : list R * list R * list R :=
  let len_0 := length lon in
  let x_ecef := replicate len_0 0 in
  let y_ecef := replicate len_0 0 in
  let z_ecef := replicate len_0 0 in
  if String.eqb ellps "sphere" then
    let r := 6370997 in
    for_range 0 len_0 (fun i '(x_ecef, y_ecef, z_ecef) =>
      (<[i := (r + h !!! i) * cos (deg2rad (lat !!! i))
              * cos (deg2rad (lon !!! i))]> x_ecef,
       <[i := (r + h !!! i) * cos (deg2rad (lat !!! i))
              * sin (deg2rad (lon !!! i))]> y_ecef,
       <[i := (r + h !!! i) * sin (deg2rad (lat !!! i))]> z_ecef))
      (x_ecef, y_ecef, z_ecef)
  else
    let a := 6378137 in
    let f := if String.eqb ellps "GRS80" then 1 / 298.257222101
             else 1 / 298.257223563 in
    let b := a * (1 - f) in
    let e_2 := 1 - (b ^ 2 / a ^ 2) in
    for_range 0 len_0 (fun i '(x_ecef, y_ecef, z_ecef) =>
      let n := a / sqrt (1 - e_2 * sin (deg2rad (lat !!! i)) ^ 2) in
      (<[i := (n + h !!! i) * cos (deg2rad (lat !!! i))
              * cos (deg2rad (lon !!! i))]> x_ecef,
       <[i := (n + h !!! i) * cos (deg2rad (lat !!! i))
              * sin (deg2rad (lon !!! i))]> y_ecef,
       <[i := (b ^ 2 / a ^ 2 * n + h !!! i)
              * sin (deg2rad (lat !!! i))]> z_ecef))
      (x_ecef, y_ecef, z_ecef).

(** The attributes of an instance of the class [TransformerEcef2enu]. *)
Record TransformerEcef2enu : Type := Transformer {
  lon_or : R;
  lat_or : R;
  x_ecef_or : R;
  y_ecef_or : R;
  z_ecef_or : R
}.

(** [TransformerEcef2enu.__init__]. *)
Definition TransformerEcef2enu__init__ (lon_or lat_or : R) (ellps : string)
  : result TransformerEcef2enu :=
  if bool_decide (lon_or < -180) || bool_decide (lon_or > 180)
  then Raise (ValueError "Value for 'lon_or' is outside of valid range")
  else if bool_decide (lat_or < -90) || bool_decide (lat_or > 90)
  then Raise (ValueError "Value for 'lat_or' is outside of valid range")
  else if String.eqb ellps "sphere" then
    let r := 6370997 in
    Return (Transformer lon_or lat_or
              (r * cos (deg2rad lat_or) * cos (deg2rad lon_or))
              (r * cos (deg2rad lat_or) * sin (deg2rad lon_or))
              (r * sin (deg2rad lat_or)))
  else if bool_decide (elem_of ellps ["GRS80"; "WGS84"]%string) then
    let a := 6378137 in
    let f := if String.eqb ellps "GRS80" then 1 / 298.257222101
             else 1 / 298.257223563 in
    let b := a * (1 - f) in
    let e_2 := 1 - (b ^ 2 / a ^ 2) in
    let n := a / sqrt (1 - e_2 * sin (deg2rad lat_or) ^ 2) in
    Return (Transformer lon_or lat_or
              (n * cos (deg2rad lat_or) * cos (deg2rad lon_or))
              (n * cos (deg2rad lat_or) * sin (deg2rad lon_or))
              ((b ^ 2 / a ^ 2 * n) * sin (deg2rad lat_or)))
  else Raise (ValueError "Unknown value for 'ellps'").

Definition _ecef2enu_1d (x_ecef y_ecef z_ecef : list R)
  (trans_ecef2enu : TransformerEcef2enu) : list R * list R * list R :=
  let len_0 := length x_ecef in
  let x_enu := replicate len_0 0 in
  let y_enu := replicate len_0 0 in
  let z_enu := replicate len_0 0 in
  let x_ecef_or := x_ecef_or trans_ecef2enu in
  let y_ecef_or := y_ecef_or trans_ecef2enu in
  let z_ecef_or := z_ecef_or trans_ecef2enu in
  let lon_or := lon_or trans_ecef2enu in
  let lat_or := lat_or trans_ecef2enu in
  let sin_lon := sin (deg2rad lon_or) in
  let cos_lon := cos (deg2rad lon_or) in
  let sin_lat := sin (deg2rad lat_or) in
  let cos_lat := cos (deg2rad lat_or) in
  for_range 0 len_0 (fun i '(x_enu, y_enu, z_enu) =>
    (<[i := - sin_lon * (x_ecef !!! i - x_ecef_or)
            + cos_lon * (y_ecef !!! i - y_ecef_or)]> x_enu,
     <[i := - sin_lat * cos_lon * (x_ecef !!! i - x_ecef_or)
            - sin_lat * sin_lon * (y_ecef !!! i - y_ecef_or)
            + cos_lat * (z_ecef !!! i - z_ecef_or)]> y_enu,
     <[i := cos_lat * cos_lon * (x_ecef !!! i - x_ecef_or)
            + cos_lat * sin_lon * (y_ecef !!! i - y_ecef_or)
            + sin_lat * (z_ecef !!! i - z_ecef_or)]> z_enu))
    (x_enu, y_enu, z_enu).

End transform.

(** ** Definitions used to state the further properties *)



(** * The range of binary64 *)

(** ** The vector kernel on binary64

    [vec_unit] and [cross_prod] once more, on the binary64 numbers of the
    source, with the IEEE 754 operations of [PrimFloat]. They decide what
    the source computes where the functions on [R] cannot: at a divisor
    that is zero and where a square overflows or underflows. *)

Module Double.

Import PrimFloat.
#[local] Open Scope float_scope.

Record vec : Type := Vec { v_x : float; v_y : float; v_z : float }.

(** The local [mag] of [vec_unit]. *)
Definition vec_mag (v : vec) : float :=
  sqrt (v_x v * v_x v + v_y v * v_y v + v_z v * v_z v).

Definition vec_unit (v : vec) : vec :=
  let mag := sqrt (v_x v * v_x v + v_y v * v_y v + v_z v * v_z v) in
  Vec (v_x v / mag) (v_y v / mag) (v_z v / mag).

Definition cross_prod (a b : vec) : vec :=
  Vec (v_y a * v_z b - v_z a * v_y b)
      (v_z a * v_x b - v_x a * v_z b)
      (v_x a * v_y b - v_y a * v_x b).

(** The tests [v_x != 0.0 || v_y != 0.0 || v_z != 0.0] and [0.0 < a], and
    whether every component is a NaN. *)
Definition nonzero (v : vec) : bool :=
  negb (v_x v =? 0) || negb (v_y v =? 0) || negb (v_z v =? 0).

Definition positive (a : float) : bool := 0 <? a.

Definition all_nan (v : vec) : bool :=
  is_nan (v_x v) && is_nan (v_y v) && is_nan (v_z v).

(** The zero vector, the vertical unit vector, and two vectors whose
    squares leave the range of binary64: [2^600] and [2^-600] along x. *)
Definition vec_zero : vec := Vec 0 0 0.
Definition e_z : vec := Vec 0 0 1.
Definition vec_huge : vec := Vec 0x1p600 0 0.
Definition vec_tiny : vec := Vec 0x1p-600 0 0.

(** The vectors [2^511] and [2^-511] along x, at the two ends of the range
    of [normalisable], and the unit vector along x. *)
Definition vec_upper : vec := Vec 0x1p511 0 0.
Definition vec_lower : vec := Vec 0x1p-511 0 0.
Definition e_x : vec := Vec 1 0 0.

End Double.

(** ** Vectors that binary64 can normalise *)

(** The largest magnitude of a component of [v]. *)
Definition vec_max_abs (v : vec) : R :=
  Rmax (Rabs (v_x v)) (Rmax (Rabs (v_y v)) (Rabs (v_z v))).

(** The largest component of [v] has a magnitude between [2^-511] and
    [2^511]. The square of that component is then a normal number of
    binary64 (at least [2^-1022]) and the sum of the three squares is
    below [2^1024]: the magnitude that [vec_unit] and
    [triangle_normal_area] divide by neither underflows to 0 nor
    overflows to infinity. *)
Definition normalisable (v : vec) : Prop :=
  / 2 ^ 511 <= vec_max_abs v <= 2 ^ 511.




(** * The triangle loop in the words of the specification

    The quantities of a triangle as sections 3, 4.1, 4.2 and 4.5 of the
    specification define them, written down without the source: the
    theorem on the triangle loop of [sw_dir_cor] compares the loop with
    them. *)


(** Section 3. The vertex [(row, col)] of a DEM with [cols] columns starts
    at the offset [(row * cols + col) * 3] of the buffer. *)
Definition spec_vertex (vert : list R) (cols row col : nat) : vec :=
  let offset := ((row * cols + col) * 3)%nat in
  Vec (nth offset vert 0) (nth (offset + 1) vert 0) (nth (offset + 2) vert 0).

(** Section 3. The pixel [(i, j)] is split into the lower-left triangle
    [(i, j), (i, j + 1), (i + 1, j)], which is triangle 0, and the
    upper-right triangle [(i, j + 1), (i + 1, j + 1), (i + 1, j)]. *)
Definition spec_triangle (vert : list R) (cols i j n : nat)
  : vec * vec * vec :=
  match n with
  | O => (spec_vertex vert cols i j,
          spec_vertex vert cols i (j + 1),
          spec_vertex vert cols (i + 1) j)
  | _ => (spec_vertex vert cols i (j + 1),
          spec_vertex vert cols (i + 1) (j + 1),
          spec_vertex vert cols (i + 1) j)
  end.










(** ** Definitions used to state the properties of flat triangles *)

(** The z component of [(v2 - v1) x (v0 - v1)]: twice the area of the
    projection of the triangle on the xy-plane, positive when [vert_0],
    [vert_1], [vert_2] run counterclockwise seen from above. *)
Definition orientation (vert_0 vert_1 vert_2 : vec) : R :=
  (v_x vert_2 - v_x vert_1) * (v_y vert_0 - v_y vert_1)
  - (v_y vert_2 - v_y vert_1) * (v_x vert_0 - v_x vert_1).

(** A flat DEM of 2 x 2 vertices that is not aligned with the axes: the
    vertex [(r, c)] lies at [(c - r, c + r, 0)]. *)
Definition dem_rotated : list R :=
  [0; 0; 0;   1; 1; 0;
   -1; 1; 0;  0; 2; 0].



(** A flat DEM of 2 x 2 vertices with a spacing of 3, a terrain of one
    grid cell of one pixel over it, and the sun straight above the ray
    origin [(1, 1, 0.1)] of its lower-left triangle. *)
Definition dem_spacing_3 : list R :=
  [0; 0; 0;  3; 0; 0;
   0; 3; 0;  3; 3; 0].

Definition terrain_spacing_3 : CppTerrain :=
  initialise (fun _ _ _ _ => open_sky)
    dem_spacing_3 2 2 dem_spacing_3 2 2 1 0 [1%Z] 1 "triangle"%string 1 90.

Definition sun_zenith : vec := Vec 1 1 1000.

(** * Properties *)

(** ** The vector and triangle kernel *)

Lemma sum_sqr_pos (a b c : R) :
  a <> 0 \/ b <> 0 \/ c <> 0 -> 0 < a * a + b * b + c * c.
Proof. intros [H | [H | H]]; nra. Qed.

Lemma vec_neq_zero (v : vec) :
  v <> Vec 0 0 0 -> v_x v <> 0 \/ v_y v <> 0 \/ v_z v <> 0.
Proof.
  destruct v as [a b c]; simpl; intros Hv.
  destruct (Req_dec a 0) as [-> | Ha]; [| now left].
  destruct (Req_dec b 0) as [-> | Hb]; [| now right; left].
  destruct (Req_dec c 0) as [-> | Hc]; [| now right; right].
  now contradict Hv.
Qed.

Lemma vec_mag_pos (v : vec) : v <> Vec 0 0 0 -> 0 < vec_mag v.
Proof.
  intros Hv. unfold vec_mag. apply sqrt_lt_R0, sum_sqr_pos.
  now apply vec_neq_zero.
Qed.

Lemma vec_mag_unit (v : vec) : v <> Vec 0 0 0 -> vec_mag (vec_unit v) = 1.
Proof.
  intros Hv. pose proof (vec_mag_pos v Hv) as Hm.
  unfold vec_unit. set (mag := vec_mag v) in *.
  unfold vec_mag at 1; simpl.
  replace (v_x v / mag * (v_x v / mag) + v_y v / mag * (v_y v / mag)
           + v_z v / mag * (v_z v / mag))
    with ((v_x v * v_x v + v_y v * v_y v + v_z v * v_z v) / (mag * mag))
    by (field; lra).
  assert (Hsq : mag * mag = v_x v * v_x v + v_y v * v_y v + v_z v * v_z v).
  { unfold mag, vec_mag. apply sqrt_sqrt.
    pose proof (sum_sqr_pos _ _ _ (vec_neq_zero v Hv)); lra. }
  rewrite <- Hsq.
  replace (mag * mag / (mag * mag)) with 1 by (field; lra).
  apply sqrt_1.
Qed.


(** *** The range in which binary64 can normalise a vector *)

Lemma pow2_pos (n : nat) : 0 < 2 ^ n.
Proof. apply pow_lt. lra. Qed.

Lemma pow2_1022 : 2 ^ 1022 = 2 ^ 511 * 2 ^ 511.
Proof. rewrite <- pow_add. reflexivity. Qed.

Lemma pow2_512 : 2 ^ 512 = 2 * 2 ^ 511.
Proof. reflexivity. Qed.

(** Magnitudes between [2^-10] and [2^10] are well inside the range. *)
Lemma double_range_1024 : / 2 ^ 511 <= / 1024 /\ 1024 <= 2 ^ 511.
Proof.
  assert (H : 1024 <= 2 ^ 511).
  { replace 1024 with (2 ^ 10) by (simpl; lra).
    apply Rle_pow; [lra | lia]. }
  split; [| exact H].
  apply Rinv_le_contravar; [lra | exact H].
Qed.

Lemma Rabs_sqr (a : R) : Rabs a * Rabs a = a * a.
Proof.
  pose proof (Rsqr_abs a) as H. unfold Rsqr in H. symmetry. exact H.
Qed.

Lemma vec_max_abs_facts (v : vec) :
  Rabs (v_x v) <= vec_max_abs v
  /\ Rabs (v_y v) <= vec_max_abs v
  /\ Rabs (v_z v) <= vec_max_abs v
  /\ (vec_max_abs v = Rabs (v_x v) \/ vec_max_abs v = Rabs (v_y v)
      \/ vec_max_abs v = Rabs (v_z v)).
Proof.
  unfold vec_max_abs.
  set (a := Rabs (v_x v)). set (b := Rabs (v_y v)). set (c := Rabs (v_z v)).
  pose proof (Rmax_l a (Rmax b c)). pose proof (Rmax_r a (Rmax b c)).
  pose proof (Rmax_l b c). pose proof (Rmax_r b c).
  repeat split; try lra.
  destruct (Rmax_case a (Rmax b c) (fun r => r = a \/ r = Rmax b c));
    [now left | now right | now left |].
  destruct (Rmax_case b c (fun r => r = b \/ r = c));
    [now left | now right | right; left; congruence
     | right; right; congruence].
Qed.

(** The sum of the squares lies between the square of the largest
    magnitude and three times that square. *)
Lemma vec_max_abs_sqr (v : vec) :
  0 <= vec_max_abs v
  /\ vec_max_abs v * vec_max_abs v
     <= v_x v * v_x v + v_y v * v_y v + v_z v * v_z v
     <= 3 * (vec_max_abs v * vec_max_abs v).
Proof.
  destruct (vec_max_abs_facts v) as (Hx & Hy & Hz & HM).
  pose proof (Rabs_pos (v_x v)) as Px. pose proof (Rabs_pos (v_y v)) as Py.
  pose proof (Rabs_pos (v_z v)) as Pz.
  rewrite <- (Rabs_sqr (v_x v)), <- (Rabs_sqr (v_y v)),
    <- (Rabs_sqr (v_z v)).
  set (M := vec_max_abs v) in *.
  set (a := Rabs (v_x v)) in *. set (b := Rabs (v_y v)) in *.
  set (c := Rabs (v_z v)) in *.
  assert (HM0 : 0 <= M) by lra.
  split; [exact HM0 |].
  assert (Ha : a * a <= M * M) by nra.
  assert (Hb : b * b <= M * M) by nra.
  assert (Hc : c * c <= M * M) by nra.
  split; [| lra].
  destruct HM as [E | [E | E]]; rewrite E; nra.
Qed.

Lemma normalisable_neq (v : vec) : normalisable v -> v <> Vec 0 0 0.
Proof.
  intros [Hlo _] ->. unfold vec_max_abs in Hlo. cbn [v_x v_y v_z] in Hlo.
  rewrite Rabs_R0 in Hlo.
  rewrite (Rmax_left 0 0), (Rmax_left 0 0) in Hlo by lra.
  pose proof (Rinv_0_lt_compat _ (pow2_pos 511)). lra.
Qed.

(** For a vector that can be normalised the sum of the squares is a normal
    number of binary64 below [2^1024], and the magnitude lies between
    [2^-511] and [2^512]. *)
Lemma normalisable_mag (v : vec) :
  normalisable v ->
  / 2 ^ 1022 <= v_x v * v_x v + v_y v * v_y v + v_z v * v_z v <= 3 * 2 ^ 1022
  /\ / 2 ^ 511 <= vec_mag v <= 2 ^ 512.
Proof.
  intros [Hlo Hhi].
  destruct (vec_max_abs_sqr v) as (HM0 & Hs1 & Hs2).
  set (M := vec_max_abs v) in *.
  set (s := v_x v * v_x v + v_y v * v_y v + v_z v * v_z v) in *.
  pose proof (pow2_pos 511) as Hp.
  pose proof (Rinv_0_lt_compat _ Hp) as Hi.
  assert (HMM : / 2 ^ 511 * / 2 ^ 511 <= M * M <= 2 ^ 511 * 2 ^ 511)
    by (split; nra).
  rewrite pow2_1022, Rinv_mult.
  split; [split; lra |].
  unfold vec_mag. fold s. split.
  - apply Rle_trans with (sqrt (M * M)).
    + rewrite sqrt_square by exact HM0. exact Hlo.
    + apply sqrt_le_1_alt. exact Hs1.
  - apply Rle_trans with (sqrt ((2 * M) * (2 * M))).
    + apply sqrt_le_1_alt. nra.
    + rewrite sqrt_square by lra. rewrite pow2_512. lra.
Qed.

Lemma normalisable_intro (v : vec) :
  Rabs (v_x v) <= 2 ^ 511 -> Rabs (v_y v) <= 2 ^ 511 ->
  Rabs (v_z v) <= 2 ^ 511 ->
  / 2 ^ 511 <= Rabs (v_x v) \/ / 2 ^ 511 <= Rabs (v_y v)
  \/ / 2 ^ 511 <= Rabs (v_z v) ->
  normalisable v.
Proof.
  intros Hx Hy Hz Hlo.
  destruct (vec_max_abs_facts v) as (Mx & My & Mz & HM).
  unfold normalisable. split.
  - destruct Hlo as [H | [H | H]]; lra.
  - destruct HM as [E | [E | E]]; rewrite E; assumption.
Qed.


(** C10, as amended. [vec_unit] divides every component by the Euclidean
    magnitude [vec_mag v], the non-negative root of [v . v].
    - For a vector whose largest component has a magnitude between
      [2^-511] and [2^511], which is not the zero vector, the sum of the
      squares lies between [2^-1022] and [3 * 2^1022], within the normal
      numbers of binary64; the divisor lies between [2^-511] and [2^512]
      and is strictly positive; the result has magnitude 1; and it is the
      one vector that gives [v] when it is scaled by the magnitude.
    - For the zero vector the divisor is 0 and every vector gives [v] when
      it is scaled by the magnitude; on binary64 the three quotients
      [0 / 0] are NaN.
    - On binary64 the two ends of the range, [2^511] and [2^-511] along x,
      are normalised to the unit vector along x. *)
Theorem vec_unit_spec (v : vec) :
  0 <= vec_mag v
  /\ vec_mag v * vec_mag v = dot v v
  /\ (normalisable v ->
      v <> Vec 0 0 0
      /\ / 2 ^ 1022 <= dot v v <= 3 * 2 ^ 1022
      /\ / 2 ^ 511 <= vec_mag v <= 2 ^ 512
      /\ 0 < vec_mag v
      /\ vec_mag (vec_unit v) = 1
      /\ forall u : vec, vec_scale (vec_mag v) u = v <-> u = vec_unit v)
  /\ (v = Vec 0 0 0 ->
      vec_mag v = 0 /\ forall u : vec, vec_scale (vec_mag v) u = v)
  /\ Double.all_nan (Double.vec_unit Double.vec_zero) = true
  /\ Double.vec_unit Double.vec_upper = Double.e_x
  /\ Double.vec_unit Double.vec_lower = Double.e_x.
Proof.
  assert (Hnn : 0 <= dot v v) by (unfold dot; nra).
  split; [apply sqrt_pos |].
  split; [unfold vec_mag; fold (dot v v); now apply sqrt_sqrt |].
  split; [| split].
  - intros Hn. pose proof (normalisable_neq v Hn) as Hv.
    destruct (normalisable_mag v Hn) as [Hs Hm].
    pose proof (vec_mag_pos v Hv) as Hp.
    split; [exact Hv |]. split; [exact Hs |]. split; [exact Hm |].
    split; [exact Hp |]. split; [now apply vec_mag_unit |].
    intros [a b c]. unfold vec_scale, vec_unit. cbn [v_x v_y v_z].
    destruct v as [x y z]. cbn [v_x v_y v_z].
    set (mag := vec_mag (Vec x y z)) in *. split.
    + intros [= Ha Hb Hc]. rewrite <- Ha, <- Hb, <- Hc. f_equal; field; lra.
    + intros [= Ha Hb Hc]. rewrite Ha, Hb, Hc. f_equal; field; lra.
  - intros ->.
    assert (H0 : vec_mag (Vec 0 0 0) = 0).
    { unfold vec_mag; simpl.
      replace (0 * 0 + 0 * 0 + 0 * 0) with 0 by ring. apply sqrt_0. }
    split; [exact H0 |]. intros u. unfold vec_scale. rewrite H0.
    f_equal; ring.
  - repeat split; vm_compute; reflexivity.
Qed.

Lemma normalisable_3_0_4 : normalisable (Vec 3 0 4).
Proof.
  destruct double_range_1024 as [Hlo Hhi].
  apply normalisable_intro; cbn [v_x v_y v_z];
    rewrite ?Rabs_R0, ?(Rabs_pos_eq 3), ?(Rabs_pos_eq 4) by lra;
    lra.
Qed.

Lemma vec_unit_spec_witness :
  normalisable (Vec 3 0 4)
  /\ / 2 ^ 511 <= vec_mag (Vec 3 0 4) <= 2 ^ 512
  /\ 0 < vec_mag (Vec 3 0 4)
  /\ vec_mag (vec_unit (Vec 3 0 4)) = 1.
Proof.
  split; [exact normalisable_3_0_4 |].
  destruct (proj1 (proj2 (proj2 (vec_unit_spec (Vec 3 0 4))))
              normalisable_3_0_4)
    as (_ & _ & H1 & H2 & H3 & _).
  split; [exact H1 |]. split; [exact H2 | exact H3].
Defined.

(** C10, the claim as stated fails on binary64. The vector
    [(2^-600, 0, 0)] is not the zero vector, but its square underflows:
    the divisor is 0, not strictly positive, and the quotients are an
    infinity and two NaNs. The vector [(2^600, 0, 0)] is not the zero
    vector, but its square overflows: the divisor is infinite and the
    result is the zero vector, whose magnitude is 0 and not 1. *)
Lemma vec_unit_spec_counterexample :
  Double.nonzero Double.vec_tiny = true
  /\ Double.vec_mag Double.vec_tiny = PrimFloat.zero
  /\ Double.vec_unit Double.vec_tiny
     = Double.Vec PrimFloat.infinity PrimFloat.nan PrimFloat.nan
  /\ ~ (Double.nonzero Double.vec_tiny = true ->
        Double.positive (Double.vec_mag Double.vec_tiny) = true)
  /\ Double.nonzero Double.vec_huge = true
  /\ Double.vec_mag Double.vec_huge = PrimFloat.infinity
  /\ Double.vec_unit Double.vec_huge = Double.vec_zero
  /\ ~ (Double.nonzero Double.vec_huge = true ->
        Double.vec_mag (Double.vec_unit Double.vec_huge) = PrimFloat.one).
Proof.
  assert (Ht : Double.nonzero Double.vec_tiny = true)
    by (vm_compute; reflexivity).
  assert (Hh : Double.nonzero Double.vec_huge = true)
    by (vm_compute; reflexivity).
  assert (Zt : Double.positive (Double.vec_mag Double.vec_tiny) = false)
    by (vm_compute; reflexivity).
  assert (Zh : PrimFloat.eqb (Double.vec_mag (Double.vec_unit Double.vec_huge))
                             PrimFloat.one = false)
    by (vm_compute; reflexivity).
  split; [exact Ht |]. split; [vm_compute; reflexivity |].
  split; [vm_compute; reflexivity |].
  split; [intros H; specialize (H Ht); rewrite H in Zt; discriminate |].
  split; [exact Hh |]. split; [vm_compute; reflexivity |].
  split; [vm_compute; reflexivity |].
  intros H. specialize (H Hh). rewrite H in Zh.
  vm_compute in Zh. discriminate.
Qed.

Lemma triangle_normal_area_cross (vert_0 vert_1 vert_2 : vec) :
  triangle_normal_area vert_0 vert_1 vert_2
  = (vec_unit (triangle_cross vert_0 vert_1 vert_2),
     vec_mag (triangle_cross vert_0 vert_1 vert_2) / 2).
Proof. reflexivity. Qed.

Lemma triangle_normal_area_flat (vert_0 vert_1 vert_2 : vec) :
  v_z vert_0 = v_z vert_1 -> v_z vert_2 = v_z vert_1 ->
  let w := (v_x vert_2 - v_x vert_1) * (v_y vert_0 - v_y vert_1)
           - (v_y vert_2 - v_y vert_1) * (v_x vert_0 - v_x vert_1) in
  triangle_normal_area vert_0 vert_1 vert_2
  = (Vec 0 0 (w / Rabs w), Rabs w / 2).
Proof.
  intros H0 H2 w. unfold triangle_normal_area, triangle_cross, vec_sub.
  cbn [v_x v_y v_z]. rewrite H0, H2.
  replace (v_z vert_1 - v_z vert_1) with 0 by ring.
  replace ((v_y vert_2 - v_y vert_1) * 0 - 0 * (v_y vert_0 - v_y vert_1))
    with 0 by ring.
  replace (0 * (v_x vert_0 - v_x vert_1) - (v_x vert_2 - v_x vert_1) * 0)
    with 0 by ring.
  fold w.
  replace (0 * 0 + 0 * 0 + w * w) with (Rsqr w) by (unfold Rsqr; ring).
  rewrite sqrt_Rsqr_abs.
  unfold Rdiv at 1 2. rewrite !Rmult_0_l. reflexivity.
Qed.

Lemma triangle_normal_area_flat_up (vert_0 vert_1 vert_2 : vec) (w : R) :
  v_z vert_0 = v_z vert_1 -> v_z vert_2 = v_z vert_1 ->
  w = (v_x vert_2 - v_x vert_1) * (v_y vert_0 - v_y vert_1)
      - (v_y vert_2 - v_y vert_1) * (v_x vert_0 - v_x vert_1) ->
  0 < w ->
  triangle_normal_area vert_0 vert_1 vert_2 = (Vec 0 0 1, w / 2).
Proof.
  intros H0 H2 -> Hw. rewrite triangle_normal_area_flat by assumption.
  cbv zeta. rewrite Rabs_pos_eq by lra. f_equal. f_equal. field. lra.
Qed.

Lemma triangle_normal_area_flat_down (vert_0 vert_1 vert_2 : vec) (w : R) :
  v_z vert_0 = v_z vert_1 -> v_z vert_2 = v_z vert_1 ->
  w = (v_x vert_2 - v_x vert_1) * (v_y vert_0 - v_y vert_1)
      - (v_y vert_2 - v_y vert_1) * (v_x vert_0 - v_x vert_1) ->
  w < 0 ->
  triangle_normal_area vert_0 vert_1 vert_2 = (Vec 0 0 (-1), - w / 2).
Proof.
  intros H0 H2 -> Hw. rewrite triangle_normal_area_flat by assumption.
  cbv zeta. rewrite Rabs_left by lra. f_equal. f_equal. field. lra.
Qed.

(** The triangles of a pixel of a flat DEM whose vertex [(r, c)] lies at
    [(x c, y r, z0)], with x and y both increasing or both decreasing over
    the pixel. *)
Lemma pixel_triangle_normal_area_flat (vert : list R) (dim_1 i j n : nat)
  (x y : nat -> R) (z0 : R) :
  (forall r c : nat, (i <= r <= i + 1)%nat -> (j <= c <= j + 1)%nat ->
     vertex vert ((r * dim_1 + c) * 3) = Vec (x c) (y r) z0) ->
  0 < (x (j + 1)%nat - x j) * (y (i + 1)%nat - y i) ->
  (n < 2)%nat ->
  pixel_triangle_normal_area vert dim_1 i j n
  = (Vec 0 0 1, (x (j + 1)%nat - x j) * (y (i + 1)%nat - y i) / 2).
Proof.
  intros Hv Hw Hn.
  unfold pixel_triangle_normal_area.
  assert (Hn' : n = 0%nat \/ n = 1%nat) by lia.
  destruct Hn' as [-> | ->]; simpl func_ptr;
    unfold triangle_vert_ll, triangle_vert_ur.
  - replace (i * dim_1 + j + 1)%nat with (i * dim_1 + (j + 1))%nat by lia.
    rewrite !Hv by lia.
    apply triangle_normal_area_flat_up; simpl; try reflexivity; lra.
  - replace (i * dim_1 + j + 1)%nat with (i * dim_1 + (j + 1))%nat by lia.
    replace ((i + 1) * dim_1 + j + 1)%nat
      with ((i + 1) * dim_1 + (j + 1))%nat by lia.
    rewrite !Hv by lia.
    apply triangle_normal_area_flat_up; simpl; try reflexivity; lra.
Qed.



(** The vertices of the triangles of a pixel, by their rows and columns. *)
Lemma spec_triangle_func_ptr (vert : list R) (dim_1 i j n : nat) :
  spec_triangle vert dim_1 i j n
  = (let '(ind_tri_0, ind_tri_1, ind_tri_2) := func_ptr n dim_1 i j in
     (vertex vert ind_tri_0, vertex vert ind_tri_1, vertex vert ind_tri_2)).
Proof.
  destruct n as [| n]; cbn [func_ptr spec_triangle];
    unfold triangle_vert_ll, triangle_vert_ur, spec_vertex, vertex, rd;
    cbv zeta.
  - replace (i * dim_1 + (j + 1))%nat with (i * dim_1 + j + 1)%nat by lia.
    reflexivity.
  - replace (i * dim_1 + (j + 1))%nat with (i * dim_1 + j + 1)%nat by lia.
    replace ((i + 1) * dim_1 + (j + 1))%nat
      with ((i + 1) * dim_1 + j + 1)%nat by lia.
    reflexivity.
Qed.

Lemma pixel_triangle_normal_area_spec (vert : list R) (dim_1 i j n : nat)
  (vert_0 vert_1 vert_2 : vec) :
  spec_triangle vert dim_1 i j n = (vert_0, vert_1, vert_2) ->
  pixel_triangle_normal_area vert dim_1 i j n
  = triangle_normal_area vert_0 vert_1 vert_2.
Proof.
  rewrite spec_triangle_func_ptr. unfold pixel_triangle_normal_area.
  destruct (func_ptr n dim_1 i j) as [[a b] c].
  intros [= <- <- <-]. reflexivity.
Qed.

(** C8, as amended. [triangle_normal_area] returns the unit vector of
    [(v2 - v1) x (v0 - v1)] and half the magnitude of that cross product.
    For the lower-left triangle [(i, j), (i, j + 1), (i + 1, j)] and the
    upper-right triangle [(i, j + 1), (i + 1, j + 1), (i + 1, j)] of a
    pixel, which are the triangles the indexer gives, with the three
    vertices at the same z: the computed normal is [(0, 0, 1)] when the
    vertices run counterclockwise seen from above (positive
    [orientation]) and [(0, 0, -1)] when they run clockwise, and the area
    is half the magnitude of the orientation. The z component of the
    normal is positive exactly when the orientation is. *)
Theorem triangle_normal_area_flat_dem (vert : list R) (dim_1 i j n : nat)
  (vert_0 vert_1 vert_2 : vec) :
  spec_triangle vert dim_1 i j n = (vert_0, vert_1, vert_2) ->
  v_z vert_0 = v_z vert_1 -> v_z vert_2 = v_z vert_1 ->
  (forall a b c : vec,
     triangle_normal_area a b c
     = (vec_unit (cross_prod (vec_sub c b) (vec_sub a b)),
        vec_mag (cross_prod (vec_sub c b) (vec_sub a b)) / 2))
  /\ pixel_triangle_normal_area vert dim_1 i j n
     = triangle_normal_area vert_0 vert_1 vert_2
  /\ (0 < orientation vert_0 vert_1 vert_2 ->
      pixel_triangle_normal_area vert dim_1 i j n
      = (Vec 0 0 1, orientation vert_0 vert_1 vert_2 / 2))
  /\ (orientation vert_0 vert_1 vert_2 < 0 ->
      pixel_triangle_normal_area vert dim_1 i j n
      = (Vec 0 0 (-1), - orientation vert_0 vert_1 vert_2 / 2))
  /\ (0 < v_z (fst (pixel_triangle_normal_area vert dim_1 i j n))
      <-> 0 < orientation vert_0 vert_1 vert_2).
Proof.
  intros Hv H0 H2.
  pose proof (pixel_triangle_normal_area_spec _ _ _ _ _ _ _ _ Hv) as E.
  split; [reflexivity |]. split; [exact E |].
  rewrite E. unfold orientation.
  split; [intros Hw; now apply triangle_normal_area_flat_up |].
  split; [intros Hw; now apply triangle_normal_area_flat_down |].
  rewrite (triangle_normal_area_flat _ _ _ H0 H2). cbv zeta. cbn [fst v_z].
  set (w := (v_x vert_2 - v_x vert_1) * (v_y vert_0 - v_y vert_1)
            - (v_y vert_2 - v_y vert_1) * (v_x vert_0 - v_x vert_1)).
  destruct (Rtotal_order w 0) as [Hw | [Hw | Hw]].
  - rewrite Rabs_left by exact Hw.
    replace (w / - w) with (-1) by (field; lra). split; lra.
  - rewrite Hw, Rabs_R0. unfold Rdiv. rewrite Rmult_0_l. split; lra.
  - rewrite Rabs_pos_eq by lra.
    replace (w / w) with 1 by (field; lra). split; lra.
Qed.

Lemma dem_rows_northward_vertex (r c : nat) :
  (r <= 1)%nat -> (c <= 1)%nat ->
  vertex dem_rows_northward ((r * 2 + c) * 3) = Vec (INR c) (INR r) 0.
Proof.
  intros Hr Hc.
  assert (Hr' : r = 0%nat \/ r = 1%nat) by lia.
  assert (Hc' : c = 0%nat \/ c = 1%nat) by lia.
  destruct Hr' as [-> | ->], Hc' as [-> | ->]; reflexivity.
Qed.

(** The upper-right triangle of [dem_rotated], whose edges are not
    parallel to the axes, runs counterclockwise. *)
Lemma triangle_normal_area_flat_dem_witness :
  spec_triangle dem_rotated 2 0 0 1 = (Vec 1 1 0, Vec 0 2 0, Vec (-1) 1 0)
  /\ 0 < orientation (Vec 1 1 0) (Vec 0 2 0) (Vec (-1) 1 0)
  /\ pixel_triangle_normal_area dem_rotated 2 0 0 1
     = (Vec 0 0 1, orientation (Vec 1 1 0) (Vec 0 2 0) (Vec (-1) 1 0) / 2)
  /\ 0 < v_z (fst (pixel_triangle_normal_area dem_rotated 2 0 0 1)).
Proof.
  assert (Hw : 0 < orientation (Vec 1 1 0) (Vec 0 2 0) (Vec (-1) 1 0))
    by (unfold orientation; simpl; lra).
  destruct (triangle_normal_area_flat_dem dem_rotated 2 0 0 1
              (Vec 1 1 0) (Vec 0 2 0) (Vec (-1) 1 0)
              eq_refl eq_refl eq_refl) as (_ & _ & Hup & _ & Hz).
  split; [reflexivity |]. split; [exact Hw |].
  split; [exact (Hup Hw) | exact (proj2 Hz Hw)].
Defined.

(** C8, the claim as stated fails: the DEM [dem_rows_southward] is flat
    (every z is 0), and the normal computed for its lower-left triangle
    points downward. *)
Lemma triangle_normal_area_flat_dem_counterexample :
  map (fun q => rd dem_rows_southward (q * 3 + 2)) [0; 1; 2; 3]%nat
  = [0; 0; 0; 0]
  /\ pixel_triangle_normal_area dem_rows_southward 2 0 0 0
     = (Vec 0 0 (-1), 1 / 2)
  /\ ~ 0 < v_z (fst (pixel_triangle_normal_area dem_rows_southward 2 0 0 0)).
Proof.
  assert (E : pixel_triangle_normal_area dem_rows_southward 2 0 0 0
              = (Vec 0 0 (-1), 1 / 2)).
  { unfold pixel_triangle_normal_area. simpl func_ptr.
    unfold triangle_vert_ll. simpl.
    rewrite (triangle_normal_area_flat_down _ _ _ (-1));
      unfold vertex, rd, dem_rows_southward; simpl; try lra.
    f_equal. lra. }
  split; [reflexivity |]. split; [exact E |].
  rewrite E. simpl. lra.
Qed.

(** ** Atmospheric refraction *)

Lemma PI_bounds : 3.14159 < PI < 3.1416.
Proof.
  pose proof (PI_2_3_7_ineq 2) as H.
  unfold sum_f_R0, tg_alt, PI_2_3_7_tg, Ratan_seq in H.
  simpl in H. lra.
Qed.

Lemma small_tan_bounds (x : R) :
  0.00189011 < x < 0.00189013 ->
  0.001890108 < tan x < 0.001890134 /\ sin x <> 0 /\ cos x <> 0.
Proof.
  intros [Hlo Hhi].
  pose proof PI_bounds as [Hp1 Hp2].
  assert (Hs : sin_approx x (2 * 0 + 1) <= sin x
               <= sin_approx x (2 * (0 + 1))) by (apply sin_bound; lra).
  assert (Hc : cos_approx x (2 * 0 + 1) <= cos x
               <= cos_approx x (2 * (0 + 1))) by (apply cos_bound; lra).
  unfold sin_approx, sin_term, cos_approx, cos_term, sum_f_R0 in Hs, Hc.
  simpl in Hs, Hc. destruct Hs as [Hs _]. destruct Hc as [Hc _].
  rewrite !Rmult_1_r in Hs, Hc.
  assert (Hx2 : 0 < x * x < 0.000004) by nra.
  assert (Hx3 : 0 < x * (x * x) < 0.00000001) by nra.
  assert (Hsx : sin x < x) by (apply sin_lt_x; lra).
  assert (Hc1 : cos x <= 1) by apply COS_bound.
  assert (Hs0 : 0.001890108 < sin x) by lra.
  assert (Hc0 : 0.999998 < cos x) by lra.
  repeat split; try lra.
  - unfold tan. apply Rlt_le_trans with (sin x); [lra |].
    apply Rmult_le_reg_r with (cos x); [lra |].
    unfold Rdiv. rewrite Rmult_assoc, Rinv_l by lra. nra.
  - unfold tan. apply Rmult_lt_reg_r with (cos x); [lra |].
    unfold Rdiv. rewrite Rmult_assoc, Rinv_l by lra. nra.
Qed.

Lemma deg2rad_zenith_bounds :
  0.00189011 < deg2rad (10.3 / (90 + 5.11)) < 0.00189013.
Proof. pose proof PI_bounds. unfold deg2rad. lra. Qed.

Lemma refrac_zenith :
  1.02 / tan (deg2rad (90 + 10.3 / (90 + 5.11))) + 0.0019279
  = 0.0019279 - 1.02 * tan (deg2rad (10.3 / (90 + 5.11))).
Proof.
  destruct (small_tan_bounds _ deg2rad_zenith_bounds) as (_ & Hs & Hc).
  set (x := deg2rad (10.3 / (90 + 5.11))) in *.
  replace (deg2rad (90 + 10.3 / (90 + 5.11))) with (PI / 2 + x)
    by (unfold x, deg2rad; field; lra).
  unfold tan. rewrite sin_plus, cos_plus, sin_PI2, cos_PI2.
  field. split; lra.
Qed.

Lemma refrac_zenith_bounds :
  -0.00000004 < 1.02 / tan (deg2rad (90 + 10.3 / (90 + 5.11))) + 0.0019279
  < -0.00000001.
Proof.
  rewrite refrac_zenith.
  destruct (small_tan_bounds _ deg2rad_zenith_bounds) as (Ht & _). lra.
Qed.

Lemma clamp_bounds (elev_ang_true : R) :
  -1 <= Rmax (-1) (Rmin elev_ang_true 90) <= 90.
Proof.
  split; [apply Rmax_l |].
  apply Rmax_lub; [lra | apply Rmin_r].
Qed.

(** C7. [atmos_refrac] clamps the elevation angle to [-1, 90], computes
    [1.02 / tan (deg2rad (elev + 10.3 / (elev + 5.11)))], adds 0.0019279,
    scales by [(pressure / 101) * (283 / (273 + temp))] and divides by 60,
    as the claim says. The source adds the constant to
    [set R = 0.0 for h = 90.0 degree]; it misses that: at 90 degree the
    sum before the scaling lies between -4e-8 and -1e-8, so that the
    function does not return 0 there. *)
Theorem atmos_refrac_spec (elev_ang_true temp pressure : R) :
  -1 <= Rmax (-1) (Rmin elev_ang_true 90) <= 90
  /\ atmos_refrac elev_ang_true temp pressure
     = (1.02 / tan (deg2rad (Rmax (-1) (Rmin elev_ang_true 90)
                             + 10.3 / (Rmax (-1) (Rmin elev_ang_true 90)
                                       + 5.11)))
        + 0.0019279)
       * ((pressure / 101) * (283 / (273 + temp))) / 60
  /\ atmos_refrac 90 temp pressure
     = (1.02 / tan (deg2rad (90 + 10.3 / (90 + 5.11))) + 0.0019279)
       * ((pressure / 101) * (283 / (273 + temp))) / 60
  /\ -0.00000004
     < 1.02 / tan (deg2rad (90 + 10.3 / (90 + 5.11))) + 0.0019279
     < -0.00000001.
Proof.
  split; [apply clamp_bounds |]. split; [| split].
  - unfold atmos_refrac. cbv zeta. unfold Rdiv at 1 6. lra.
  - unfold atmos_refrac. cbv zeta.
    rewrite (Rmin_left 90 90) by lra. rewrite (Rmax_right (-1) 90) by lra.
    unfold Rdiv at 1 6. lra.
  - apply refrac_zenith_bounds.
Qed.

(** C7, the input on which the source misses what the claim and its own
    comment say: at an elevation angle of 90 degree, 10 degree Celsius and
    101 kPa the refraction correction is not 0. *)
Lemma atmos_refrac_zenith_counterexample : atmos_refrac 90 10 101 <> 0.
Proof.
  unfold atmos_refrac. cbv zeta.
  rewrite (Rmin_left 90 90) by lra. rewrite (Rmax_right (-1) 90) by lra.
  pose proof refrac_zenith_bounds as Hb.
  set (r := 1.02 / tan (deg2rad (90 + 10.3 / (90 + 5.11))) + 0.0019279) in *.
  lra.
Qed.

(** ** The refraction block of the single-ray engine *)

(** C9. The refraction block changes the sun vector, which it rotates
    about the unit vector of [sun x norm_hori], and the dot product
    [dot_prod_hs], which it recomputes from the horizontal normal and the
    rotated sun vector. The terrain object, the vertices, the centroid, the
    two normals, the two areas, the surface enlargement factor and the ray
    origin are as before. The triangle loop of [sw_dir_cor] goes on with
    the scope the block returns when [refrac_cor] is 1, and with the scope
    as it was when [refrac_cor] is 0. *)
Theorem refraction_frame (f : tri_scope) :
  this (refraction f) = this f
  /\ vert_0 (refraction f) = vert_0 f
  /\ vert_1 (refraction f) = vert_1 f
  /\ vert_2 (refraction f) = vert_2 f
  /\ cent (refraction f) = cent f
  /\ norm_tilt (refraction f) = norm_tilt f
  /\ area_tilt (refraction f) = area_tilt f
  /\ ray_org (refraction f) = ray_org f
  /\ norm_hori (refraction f) = norm_hori f
  /\ area_hori (refraction f) = area_hori f
  /\ surf_enl_fac (refraction f) = surf_enl_fac f
  /\ (exists theta : R,
        sun (refraction f)
        = vec_rot (vec_unit (cross_prod (sun f) (norm_hori f))) theta (sun f))
  /\ dot_prod_hs (refraction f) = dot (norm_hori f) (sun (refraction f))
  /\ (forall (T : CppTerrain) (sun_pos : vec) (k m n : nat),
        triangle_scope T sun_pos 1 k m n
        = refraction (sw_dir_cor_scope T sun_pos k m n)
        /\ triangle_scope T sun_pos 0 k m n = sw_dir_cor_scope T sun_pos k m n
        /\ this (triangle_scope T sun_pos 1 k m n) = T).
Proof.
  repeat (split; [reflexivity |]). split; [| split; [reflexivity |]].
  - eexists. reflexivity.
  - intros T sun_pos k m n. split; [reflexivity |]. split; [reflexivity |].
    unfold triangle_scope, sw_dir_cor_scope. cbn [Z.eqb Pos.eqb].
    destruct (func_ptr n (Z.to_nat (dem_dim_1_cl T)) _ _) as [[a0 a1] a2].
    destruct (func_ptr n (Z.to_nat (dem_dim_in_1_cl T)) k m) as [[b0 b1] b2].
    reflexivity.
Qed.

(** With the sun vector along the horizontal normal, the rotation axis of
    the refraction block is the zero vector, whose magnitude [vec_unit]
    divides by. *)
Lemma refraction_axis_zenith (f : tri_scope) :
  sun f = norm_hori f ->
  cross_prod (sun f) (norm_hori f) = Vec 0 0 0
  /\ vec_mag (cross_prod (sun f) (norm_hori f)) = 0.
Proof.
  intros ->.
  assert (E : cross_prod (norm_hori f) (norm_hori f) = Vec 0 0 0)
    by (unfold cross_prod; f_equal; ring).
  split; [exact E |]. rewrite E. unfold vec_mag. cbn [v_x v_y v_z].
  replace (0 * 0 + 0 * 0 + 0 * 0) with 0 by ring. apply sqrt_0.
Qed.

(** ** The packet-8 engine and odd [pixel_per_gc] *)

Lemma rem_2_odd (p : Z) : Z.odd p = true -> (Z.rem p 2 =? 0)%Z = false.
Proof.
  intros Hp. apply Z.eqb_neq. rewrite Zquot.Zrem_odd, Hp.
  destruct p; simpl; try discriminate.
Qed.

(** C6. With an odd [pixel_per_gc] a call of [sw_dir_cor_coherent_rp8]
    prints the error message and returns with the output buffer as the
    caller passed it. *)
Theorem sw_dir_cor_coherent_rp8_odd (T : CppTerrain) (sun_pos : vec)
  (sw_dir_cor : list fval) :
  Z.odd (pixel_per_gc_cl T) = true ->
  sw_dir_cor_coherent_rp8 T sun_pos sw_dir_cor
  = (sw_dir_cor,
     [Msg_error
        "Error: method is only implemented for even 'pixel_per_gc' values"]).
Proof.
  intros Hp. unfold sw_dir_cor_coherent_rp8.
  rewrite (rem_2_odd _ Hp). reflexivity.
Qed.

Lemma sw_dir_cor_coherent_rp8_odd_witness :
  Z.odd (pixel_per_gc_cl terrain_1x1) = true
  /\ sw_dir_cor_coherent_rp8 terrain_1x1 (Vec 0 0 1) [FVal 7]
     = ([FVal 7],
        [Msg_error
           "Error: method is only implemented for even 'pixel_per_gc' values"]).
Proof.
  split; [reflexivity |].
  apply (sw_dir_cor_coherent_rp8_odd terrain_1x1 (Vec 0 0 1) [FVal 7]).
  reflexivity.
Defined.

(** ** Loops and sums *)

Lemma fold_left_flat_map {A B S : Type} (f : A -> list B) (g : S -> B -> S)
  (l : list A) (s : S) :
  fold_left g (flat_map f l) s = fold_left (fun s a => fold_left g (f a) s) l s.
Proof.
  revert s. induction l as [| a l IH]; intros s; simpl; [reflexivity |].
  rewrite fold_left_app. apply IH.
Qed.

Lemma fold_left_map {A B S : Type} (f : A -> B) (g : S -> B -> S)
  (l : list A) (s : S) :
  fold_left g (map f l) s = fold_left (fun s a => g s (f a)) l s.
Proof.
  revert s. induction l as [| a l IH]; intros s; simpl; [reflexivity | apply IH].
Qed.

Lemma fold_left_ext_in {A S : Type} (g h : S -> A -> S) (l : list A) (s : S) :
  (forall s a, In a l -> g s a = h s a) -> fold_left g l s = fold_left h l s.
Proof.
  revert s. induction l as [| a l IH]; intros s Hgh; simpl; [reflexivity |].
  rewrite Hgh by now left. apply IH. intros s' a' Ha'. apply Hgh. now right.
Qed.

(** The three nested loops over the triangles of a grid cell are one loop
    over [cell_triangles]. *)
Lemma cell_loop {S : Type} (p i j : nat) (body : nat -> nat -> nat -> S -> S)
  (s : S) :
  for_range (i * p) p (fun k =>
    for_range (j * p) p (fun m => for_range 0 2 (fun n => body k m n))) s
  = fold_left (fun s t => let '(k, m, n) := t in body k m n s)
              (cell_triangles p i j) s.
Proof.
  unfold for_range, cell_triangles.
  rewrite fold_left_flat_map. apply fold_left_ext_in. intros s1 k _.
  rewrite fold_left_flat_map. apply fold_left_ext_in. intros s2 m _.
  rewrite fold_left_map. reflexivity.
Qed.

Lemma block_loop {S : Type} (k m : nat) (body : nat -> nat -> nat -> S -> S)
  (s : S) :
  for_range k 2 (fun k_block =>
    for_range m 2 (fun m_block => for_range 0 2 (fun n => body k_block m_block n)))
    s
  = fold_left (fun s t => let '(k, m, n) := t in body k m n s)
              (block_triangles k m) s.
Proof.
  unfold for_range, block_triangles.
  rewrite fold_left_flat_map. apply fold_left_ext_in. intros s1 k1 _.
  rewrite fold_left_flat_map. apply fold_left_ext_in. intros s2 m1 _.
  rewrite fold_left_map. reflexivity.
Qed.

Lemma blocks_loop {S : Type} (p i j : nat) (body : nat -> nat -> S -> S)
  (s : S) :
  for_range2 (i * p) p (fun k => for_range2 (j * p) p (fun m => body k m)) s
  = fold_left (fun s b => body (fst b) (snd b) s) (cell_blocks p i j) s.
Proof.
  unfold for_range2, cell_blocks.
  rewrite fold_left_flat_map. apply fold_left_ext_in. intros s1 t _.
  rewrite fold_left_map. reflexivity.
Qed.

Lemma Rsum_app (l1 l2 : list R) : Rsum (l1 ++ l2) = Rsum l1 + Rsum l2.
Proof.
  induction l1 as [| a l1 IH]; simpl; [lra |].
  unfold Rsum in *. simpl. rewrite IH. lra.
Qed.

Lemma length_cell_triangles (p i j : nat) :
  length (cell_triangles p i j) = (p * p * 2)%nat.
Proof.
  unfold cell_triangles.
  assert (H2 : forall (k : nat) l, length (flat_map (fun m : nat =>
                 map (fun n : nat => (k, m, n)) (seq 0 2)) l)
               = (length l * 2)%nat).
  { intros k l. induction l as [| a l IH]; simpl in *; [reflexivity | lia]. }
  assert (H1 : forall l, length (flat_map (fun k : nat => flat_map (fun m : nat =>
                 map (fun n : nat => (k, m, n)) (seq 0 2)) (seq (j * p) p)) l)
               = (length l * (p * 2))%nat).
  { induction l as [| a l IH]; [reflexivity |].
    cbn [flat_map]. rewrite length_app, IH, H2, length_seq. simpl. lia. }
  rewrite H1, length_seq. lia.
Qed.

(** ** The single-ray engine *)

Lemma sw_dir_cor_scope_facts (T : CppTerrain) (sun_pos : vec) (k m n : nat) :
  let f := sw_dir_cor_scope T sun_pos k m n in
  this f = T
  /\ dot_prod_hs f = dot (norm_hori f) (sun f)
  /\ surf_enl_fac f = area_tilt f / area_hori f.
Proof.
  unfold sw_dir_cor_scope.
  destruct (func_ptr n (Z.to_nat (dem_dim_1_cl T)) _ _) as [[a0 a1] a2].
  destruct (func_ptr n (Z.to_nat (dem_dim_in_1_cl T)) k m) as [[b0 b1] b2].
  cbn. repeat split.
Qed.

Lemma triangle_scope_facts (T : CppTerrain) (sun_pos : vec) (refrac_cor : Z)
  (k m n : nat) :
  let f := triangle_scope T sun_pos refrac_cor k m n in
  this f = T
  /\ dot_prod_hs f = dot (norm_hori f) (sun f)
  /\ surf_enl_fac f = area_tilt f / area_hori f.
Proof.
  unfold triangle_scope.
  destruct (sw_dir_cor_scope_facts T sun_pos k m n) as (H1 & H2 & H3).
  destruct (refrac_cor =? 1)%Z; cbn zeta; [| now repeat split].
  unfold refraction; cbn. repeat split; assumption.
Qed.

(** The scope of a triangle in terms of [pixel_triangle_normal_area]. *)
Lemma sw_dir_cor_scope_fields (T : CppTerrain) (sun_pos : vec) (k m n : nat) :
  let off := Z.to_nat (pixel_per_gc_cl T * offset_gc_cl T) in
  let f := sw_dir_cor_scope T sun_pos k m n in
  (norm_tilt f, area_tilt f)
  = pixel_triangle_normal_area (vert_grid_cl T) (Z.to_nat (dem_dim_1_cl T))
                               (k + off) (m + off) n
  /\ (norm_hori f, area_hori f)
     = pixel_triangle_normal_area (vert_grid_in_cl T)
                                  (Z.to_nat (dem_dim_in_1_cl T)) k m n
  /\ sun f = vec_unit (vec_sub sun_pos (ray_org f))
  /\ v_z (ray_org f)
     = v_z (cent f) + v_z (norm_tilt f) * ray_org_elev_cl T
  /\ (let '(ind_tri_0, ind_tri_1, ind_tri_2) :=
        func_ptr n (Z.to_nat (dem_dim_1_cl T)) (k + off) (m + off) in
      cent f = triangle_centroid (vertex (vert_grid_cl T) ind_tri_0)
                                 (vertex (vert_grid_cl T) ind_tri_1)
                                 (vertex (vert_grid_cl T) ind_tri_2)).
Proof.
  unfold sw_dir_cor_scope, pixel_triangle_normal_area.
  destruct (func_ptr n (Z.to_nat (dem_dim_1_cl T)) _ _) as [[a0 a1] a2].
  destruct (func_ptr n (Z.to_nat (dem_dim_in_1_cl T)) k m) as [[b0 b1] b2].
  cbn. repeat split.
Qed.

Lemma sw_dir_cor_scope_ray_org (T : CppTerrain) (sun_pos : vec)
  (k m n : nat) :
  let off := Z.to_nat (pixel_per_gc_cl T * offset_gc_cl T) in
  let f := sw_dir_cor_scope T sun_pos k m n in
  ray_org f
  = Vec (v_x (cent f) + v_x (norm_tilt f) * ray_org_elev_cl T)
        (v_y (cent f) + v_y (norm_tilt f) * ray_org_elev_cl T)
        (v_z (cent f) + v_z (norm_tilt f) * ray_org_elev_cl T)
  /\ exists vert_0 vert_1 vert_2 : vec,
       vert_0 = vertex (vert_grid_cl T)
                  (fst (fst (func_ptr n (Z.to_nat (dem_dim_1_cl T))
                                      (k + off) (m + off))))
       /\ vert_1 = vertex (vert_grid_cl T)
                     (snd (fst (func_ptr n (Z.to_nat (dem_dim_1_cl T))
                                         (k + off) (m + off))))
       /\ vert_2 = vertex (vert_grid_cl T)
                     (snd (func_ptr n (Z.to_nat (dem_dim_1_cl T))
                                    (k + off) (m + off)))
       /\ cent f = triangle_centroid vert_0 vert_1 vert_2
       /\ (norm_tilt f, area_tilt f)
          = triangle_normal_area vert_0 vert_1 vert_2.
Proof.
  unfold sw_dir_cor_scope.
  destruct (func_ptr n (Z.to_nat (dem_dim_1_cl T)) _ _) as [[a0 a1] a2].
  destruct (func_ptr n (Z.to_nat (dem_dim_in_1_cl T)) k m) as [[b0 b1] b2].
  cbn. split; [reflexivity |]. do 3 eexists. repeat split.
Qed.

(** What the body of the triangle loop does, in terms of the candidate of
    the triangle. *)
Lemma sw_dir_cor_triangle_candidate (T : CppTerrain) (sun_pos : vec)
  (refrac_cor : Z) (lin_ind_gc k m n : nat) (out : list fval) (nr : nat) :
  sw_dir_cor_triangle T sun_pos refrac_cor lin_ind_gc k m n (out, nr)
  = match candidate T sun_pos refrac_cor (k, m, n) with
    | None => (out, nr)
    | Some (ray, c) =>
        (if unoccluded T ray
         then <[lin_ind_gc := fadd (out !!! lin_ind_gc) (FVal c)]> out
         else out, (nr + 1)%nat)
    end.
Proof.
  unfold sw_dir_cor_triangle, candidate, unoccluded.
  fold (triangle_scope T sun_pos refrac_cor k m n).
  destruct (triangle_scope_facts T sun_pos refrac_cor k m n) as (H1 & H2 & H3).
  set (f := triangle_scope T sun_pos refrac_cor k m n) in *.
  cbv zeta. rewrite H1, H2, H3. fold (dot (norm_tilt f) (sun f)).
  destruct (Rle_dec (dot (norm_hori f) (sun f)) (dot_prod_min_cl T));
    [reflexivity |].
  destruct (Rle_dec (dot (norm_tilt f) (sun f)) 0); reflexivity.
Qed.

Lemma fadd_0_r (a : fval) : fadd a (FVal 0) = a.
Proof. destruct a; simpl; try reflexivity. f_equal. lra. Qed.

Lemma fadd_assoc_val (a : fval) (x y : R) :
  fadd (fadd a (FVal x)) (FVal y) = fadd a (FVal (x + y)).
Proof. destruct a; simpl; try reflexivity. f_equal. lra. Qed.

Lemma list_insert_lookup_total {A : Type} `{Inhabited A} (l : list A)
  (i : nat) : <[i := l !!! i]> l = l.
Proof.
  apply list_insert_id'. intros Hi. now apply list_lookup_lookup_total_lt.
Qed.

Lemma sw_dir_cor_triangle_contribution (T : CppTerrain) (sun_pos : vec)
  (refrac_cor : Z) (lin_ind_gc k m n : nat) (out : list fval) (nr : nat) :
  sw_dir_cor_triangle T sun_pos refrac_cor lin_ind_gc k m n (out, nr)
  = (<[lin_ind_gc :=
         fadd (out !!! lin_ind_gc)
              (FVal (contribution T sun_pos refrac_cor (k, m, n)))]> out,
     (nr + rays_of T sun_pos refrac_cor (k, m, n))%nat).
Proof.
  rewrite sw_dir_cor_triangle_candidate. unfold contribution, rays_of.
  destruct (candidate T sun_pos refrac_cor (k, m, n)) as [[ray c] |].
  - destruct (unoccluded T ray); [reflexivity |].
    rewrite fadd_0_r, list_insert_lookup_total. reflexivity.
  - rewrite fadd_0_r, list_insert_lookup_total. f_equal. lia.
Qed.

Lemma sw_dir_cor_triangles (T : CppTerrain) (sun_pos : vec) (refrac_cor : Z)
  (lin_ind_gc : nat) (ts : list (nat * nat * nat)) (out : list fval)
  (nr : nat) :
  fold_left (fun s t => let '(k, m, n) := t in
               sw_dir_cor_triangle T sun_pos refrac_cor lin_ind_gc k m n s)
            ts (out, nr)
  = (<[lin_ind_gc :=
         fadd (out !!! lin_ind_gc)
              (FVal (Rsum (map (contribution T sun_pos refrac_cor) ts)))]> out,
     (nr + sum_list (map (rays_of T sun_pos refrac_cor) ts))%nat).
Proof.
  revert out nr. induction ts as [| [[k m] n] ts IH]; intros out nr.
  - simpl. rewrite fadd_0_r, list_insert_lookup_total. f_equal. lia.
  - cbn [fold_left map]. rewrite sw_dir_cor_triangle_contribution, IH.
    rewrite list_insert_insert_eq. f_equal; [| simpl; lia].
    destruct (decide (lin_ind_gc < length out)%nat) as [Hl | Hl].
    + rewrite list_lookup_total_insert_eq by assumption.
      rewrite fadd_assoc_val. reflexivity.
    + rewrite !list_insert_ge by lia. reflexivity.
Qed.

(** The body of the loop over the grid cells, for a cell whose mask entry
    is 1 and for any other cell. *)
Lemma sw_dir_cor_cell_eq (T : CppTerrain) (sun_pos : vec) (refrac_cor : Z)
  (i j : nat) (out : list fval) (nr : nat) :
  let lin_ind_gc := lin_ind_2d (Z.to_nat (num_gc_x_cl T)) i j in
  sw_dir_cor_cell T sun_pos refrac_cor i j (out, nr)
  = (<[lin_ind_gc :=
         if (mask_cl T !!! lin_ind_gc =? 1)%Z
         then fadd (out !!! lin_ind_gc)
                   (FVal (cell_sum T sun_pos refrac_cor i j))
         else FNaN]> out,
     (nr + if (mask_cl T !!! lin_ind_gc =? 1)%Z
           then cell_rays T sun_pos refrac_cor i j else 0)%nat).
Proof.
  intros lin_ind_gc. unfold sw_dir_cor_cell. fold lin_ind_gc.
  destruct (mask_cl T !!! lin_ind_gc =? 1)%Z.
  - rewrite cell_loop. apply sw_dir_cor_triangles.
  - simpl. f_equal. lia.
Qed.

(** ** The loop over the grid cells *)

Lemma fold_left_pair {A : Type} (W : nat -> A -> A) (G : nat -> nat)
  (l : list nat) (out : A) (nr : nat) :
  fold_left (fun (s : A * nat) c => (W c (fst s), (snd s + G c)%nat)) l
            (out, nr)
  = (fold_left (fun o c => W c o) l out, (nr + sum_list (map G l))%nat).
Proof.
  revert out nr. induction l as [| c l IH]; intros out nr; simpl.
  - f_equal. lia.
  - rewrite IH. f_equal. lia.
Qed.

(** A loop whose step [c] rewrites element [c] of a buffer from its
    previous value. *)
Lemma seq_write_loop {A : Type} `{Inhabited A} (F : nat -> A -> A) (N : nat)
  (out : list A) :
  (N <= length out)%nat ->
  let res := fold_left (fun o c => <[c := F c (o !!! c)]> o) (seq 0 N) out in
  length res = length out
  /\ (forall c, (c < N)%nat -> res !!! c = F c (out !!! c))
  /\ (forall c, (N <= c)%nat -> res !!! c = out !!! c).
Proof.
  induction N as [| N IH]; intros HN; cbv zeta.
  - simpl. repeat split; intros; lia || reflexivity.
  - rewrite seq_S, fold_left_app. cbn [fold_left Nat.add].
    destruct IH as (IHl & IHlt & IHge); [lia |].
    set (res := fold_left _ (seq 0 N) out) in *.
    split; [| split].
    + rewrite length_insert. exact IHl.
    + intros c Hc. destruct (decide (c = N)) as [-> | Hne].
      * rewrite list_lookup_total_insert_eq by lia.
        rewrite IHge by lia. reflexivity.
      * rewrite list_lookup_total_insert_ne by lia. apply IHlt. lia.
    + intros c Hc. rewrite list_lookup_total_insert_ne by lia.
      apply IHge. lia.
Qed.

Lemma map_add_seq (b lo n : nat) :
  map (fun x => (b + x)%nat) (seq lo n) = seq (b + lo) n.
Proof.
  revert lo. induction n as [| n IH]; intros lo; [reflexivity |].
  cbn [seq map]. f_equal. rewrite IH. f_equal. lia.
Qed.

Lemma grid_cells_lin (ny nx : nat) :
  map (fun b : nat * nat => lin_ind_2d nx (fst b) (snd b))
      (flat_map (fun i => map (fun j => (i, j)) (seq 0 nx)) (seq 0 ny))
  = seq 0 (ny * nx).
Proof.
  induction ny as [| ny IH]; [reflexivity |].
  rewrite seq_S, flat_map_app, map_app, IH. cbn [flat_map Nat.add].
  rewrite app_nil_r, map_map. cbn [fst snd]. unfold lin_ind_2d.
  replace (S ny * nx)%nat with (ny * nx + nx)%nat by lia.
  rewrite seq_app. f_equal. cbn [Nat.add].
  rewrite map_add_seq, Nat.add_0_r. reflexivity.
Qed.

Lemma grid_loop {S : Type} (ny nx : nat) (step : nat -> nat -> S -> S)
  (s : S) :
  for_range 0 ny (fun i => for_range 0 nx (fun j => step i j)) s
  = fold_left (fun s c => step (Nat.div c nx) (Nat.modulo c nx) s)
              (seq 0 (ny * nx)) s.
Proof.
  rewrite <- grid_cells_lin, fold_left_map. unfold for_range.
  rewrite fold_left_flat_map. apply fold_left_ext_in. intros s1 i _.
  rewrite fold_left_map. apply fold_left_ext_in. intros s2 j Hj.
  apply in_seq in Hj. cbn [fst snd]. unfold lin_ind_2d.
  rewrite Nat.div_add_l, Nat.div_small, Nat.add_0_r by lia.
  rewrite Nat.add_comm, Nat.Div0.mod_add, Nat.mod_small by lia.
  reflexivity.
Qed.

Lemma lin_ind_2d_div_mod (nx c : nat) :
  (0 < nx)%nat -> lin_ind_2d nx (Nat.div c nx) (Nat.modulo c nx) = c.
Proof.
  intros Hnx. unfold lin_ind_2d.
  rewrite (Nat.div_mod_eq c nx) at 3. lia.
Qed.

Lemma lin_ind_2d_lt (ny nx i j : nat) :
  (i < ny)%nat -> (j < nx)%nat -> (lin_ind_2d nx i j < ny * nx)%nat.
Proof. unfold lin_ind_2d. nia. Qed.

Lemma lin_ind_2d_div (nx i j : nat) :
  (j < nx)%nat ->
  Nat.div (lin_ind_2d nx i j) nx = i /\ Nat.modulo (lin_ind_2d nx i j) nx = j.
Proof.
  intros Hj. unfold lin_ind_2d. split.
  - rewrite Nat.div_add_l, Nat.div_small by lia. lia.
  - rewrite Nat.add_comm, Nat.Div0.mod_add, Nat.mod_small by lia.
    reflexivity.
Qed.

(** The loop over the grid cells when the body of cell [(i, j)] rewrites
    the element [lin_ind_2d nx i j] of the buffer and counts rays. *)
Lemma cells_loop_spec (ny nx : nat)
  (step : nat -> nat -> list fval * nat -> list fval * nat)
  (V : nat -> nat -> fval -> fval) (G : nat -> nat -> nat) :
  (forall i j out nr,
     step i j (out, nr)
     = (<[lin_ind_2d nx i j := V i j (out !!! lin_ind_2d nx i j)]> out,
        (nr + G i j)%nat)) ->
  forall out0 : list fval,
  (ny * nx <= length out0)%nat ->
  let res := for_range 0 ny (fun i => for_range 0 nx (fun j => step i j))
                       (out0, 0%nat) in
  length (fst res) = length out0
  /\ (forall i j, (i < ny)%nat -> (j < nx)%nat ->
        fst res !!! lin_ind_2d nx i j = V i j (out0 !!! lin_ind_2d nx i j))
  /\ (forall c, (ny * nx <= c)%nat -> fst res !!! c = out0 !!! c)
  /\ snd res
     = sum_list (map (fun c => G (Nat.div c nx) (Nat.modulo c nx))
                     (seq 0 (ny * nx))).
Proof.
  intros Hstep out0 Hlen res. subst res. rewrite grid_loop.
  rewrite (fold_left_ext_in _
             (fun s c =>
                (<[c := V (Nat.div c nx) (Nat.modulo c nx) (fst s !!! c)]>
                   (fst s),
                 (snd s + G (Nat.div c nx) (Nat.modulo c nx))%nat))).
  2:{ intros [o n] c Hc. apply in_seq in Hc. rewrite Hstep.
      rewrite lin_ind_2d_div_mod by nia. reflexivity. }
  rewrite (fold_left_pair
             (fun c o => <[c := V (Nat.div c nx) (Nat.modulo c nx) (o !!! c)]> o)
             (fun c => G (Nat.div c nx) (Nat.modulo c nx))).
  cbn [fst snd].
  destruct (seq_write_loop
              (fun c => V (Nat.div c nx) (Nat.modulo c nx)) (ny * nx) out0 Hlen)
    as (Hl & Hlt & Hge).
  repeat split; try assumption.
  intros i j Hi Hj. rewrite Hlt by now apply lin_ind_2d_lt.
  destruct (lin_ind_2d_div nx i j Hj) as [-> ->]. reflexivity.
Qed.

(** The buffer and the number of rays after the loop over the grid cells
    of the single-ray engine. *)
Lemma sw_dir_cor_cells_spec (T : CppTerrain) (sun_pos : vec) (refrac_cor : Z)
  (out0 : list fval) :
  let ny := Z.to_nat (num_gc_y_cl T) in
  let nx := Z.to_nat (num_gc_x_cl T) in
  (ny * nx <= length out0)%nat ->
  let res := sw_dir_cor_cells T sun_pos refrac_cor out0 in
  length (fst res) = length out0
  /\ (forall i j, (i < ny)%nat -> (j < nx)%nat ->
        fst res !!! lin_ind_2d nx i j
        = if (mask_cl T !!! lin_ind_2d nx i j =? 1)%Z
          then fadd (out0 !!! lin_ind_2d nx i j)
                    (FVal (cell_sum T sun_pos refrac_cor i j))
          else FNaN)
  /\ (forall c, (ny * nx <= c)%nat -> fst res !!! c = out0 !!! c)
  /\ snd res
     = sum_list
         (map (fun c =>
                 if (mask_cl T !!! lin_ind_2d nx (Nat.div c nx) (Nat.modulo c nx)
                     =? 1)%Z
                 then cell_rays T sun_pos refrac_cor (Nat.div c nx)
                                (Nat.modulo c nx)
                 else 0%nat)
              (seq 0 (ny * nx))).
Proof.
  intros ny nx Hlen.
  apply (cells_loop_spec ny nx (sw_dir_cor_cell T sun_pos refrac_cor)
           (fun i j x =>
              if (mask_cl T !!! lin_ind_2d nx i j =? 1)%Z
              then fadd x (FVal (cell_sum T sun_pos refrac_cor i j))
              else FNaN)
           (fun i j =>
              if (mask_cl T !!! lin_ind_2d nx i j =? 1)%Z
              then cell_rays T sun_pos refrac_cor i j else 0%nat));
    [| exact Hlen].
  intros i j out nr. apply sw_dir_cor_cell_eq.
Qed.

(** The output buffer of [sw_dir_cor]. *)
Lemma sw_dir_cor_spec (T : CppTerrain) (sun_pos : vec) (refrac_cor : Z)
  (out0 : list fval) :
  let ny := Z.to_nat (num_gc_y_cl T) in
  let nx := Z.to_nat (num_gc_x_cl T) in
  (0 <= num_gc_y_cl T)%Z -> (0 <= num_gc_x_cl T)%Z ->
  (ny * nx <= length out0)%nat ->
  let out := fst (sw_dir_cor T sun_pos out0 refrac_cor) in
  length out = length out0
  /\ (forall i j, (i < ny)%nat -> (j < nx)%nat ->
        out !!! lin_ind_2d nx i j
        = fdiv (if (mask_cl T !!! lin_ind_2d nx i j =? 1)%Z
                then fadd (out0 !!! lin_ind_2d nx i j)
                          (FVal (cell_sum T sun_pos refrac_cor i j))
                else FNaN)
               (IZR (pixel_per_gc_cl T * pixel_per_gc_cl T) * 2))
  /\ (forall c, (ny * nx <= c)%nat -> out !!! c = out0 !!! c).
Proof.
  intros ny nx Hy Hx Hlen out. subst out. unfold sw_dir_cor.
  destruct (sw_dir_cor_cells_spec T sun_pos refrac_cor out0 Hlen)
    as (Hl & Hc & Hge & _).
  destruct (sw_dir_cor_cells T sun_pos refrac_cor out0) as [out1 nr].
  cbn [fst snd] in *. unfold for_range.
  replace (Z.to_nat (num_gc_y_cl T * num_gc_x_cl T)) with (ny * nx)%nat
    by (unfold ny, nx; lia).
  destruct (seq_write_loop
              (fun (_ : nat) x =>
                 fdiv x (IZR (pixel_per_gc_cl T * pixel_per_gc_cl T) * 2))
              (ny * nx) out1) as (Hl' & Hlt' & Hge'); [lia |].
  repeat split.
  - congruence.
  - intros i j Hi Hj. rewrite Hlt' by now apply lin_ind_2d_lt.
    rewrite Hc by assumption. reflexivity.
  - intros c Hc'. rewrite Hge' by assumption. now apply Hge.
Qed.

(** ** The coherent-batch engine *)

Lemma rtcOccluded1_id (sc : RTCScene) (ray : RTCRay) :
  id (rtcOccluded1 sc ray) = id ray.
Proof. unfold rtcOccluded1. now destruct (sc _ _ _ _). Qed.

Lemma rtcOccluded1_tfar_id (sc : RTCScene) (ray : RTCRay) (q : nat) :
  tfar (rtcOccluded1 sc (Ray (org ray) (dir ray) (tnear ray) (tfar ray) q))
  = tfar (rtcOccluded1 sc ray).
Proof. unfold rtcOccluded1. cbn. now destruct (sc _ _ _ _). Qed.

Lemma Rsum_candidates (T : CppTerrain) (sun_pos : vec) (refrac_cor : Z)
  (ts : list (nat * nat * nat)) :
  Rsum (map (candidate_contribution T) (candidates T sun_pos refrac_cor ts))
  = Rsum (map (contribution T sun_pos refrac_cor) ts)
  /\ length (candidates T sun_pos refrac_cor ts)
     = sum_list (map (rays_of T sun_pos refrac_cor) ts).
Proof.
  induction ts as [| t ts [IH1 IH2]]; [split; reflexivity |].
  change (Rsum (map (contribution T sun_pos refrac_cor) (t :: ts)))
    with (contribution T sun_pos refrac_cor t
          + Rsum (map (contribution T sun_pos refrac_cor) ts)).
  change (sum_list (map (rays_of T sun_pos refrac_cor) (t :: ts)))
    with (rays_of T sun_pos refrac_cor t
          + sum_list (map (rays_of T sun_pos refrac_cor) ts))%nat.
  change (candidates T sun_pos refrac_cor (t :: ts))
    with (match candidate T sun_pos refrac_cor t with
          | Some rc => rc :: candidates T sun_pos refrac_cor ts
          | None => candidates T sun_pos refrac_cor ts
          end).
  unfold contribution at 1, rays_of at 1.
  destruct (candidate T sun_pos refrac_cor t) as [[ray c] |].
  - cbn [map length]. rewrite <- IH1, <- IH2. split; reflexivity.
  - rewrite <- IH1, <- IH2. split; [lra | reflexivity].
Qed.

Lemma length_candidates (T : CppTerrain) (sun_pos : vec) (refrac_cor : Z)
  (ts : list (nat * nat * nat)) :
  (length (candidates T sun_pos refrac_cor ts) <= length ts)%nat.
Proof.
  rewrite (proj2 (Rsum_candidates T sun_pos refrac_cor ts)).
  induction ts as [| t ts IH]; [reflexivity |].
  change (sum_list (map (rays_of T sun_pos refrac_cor) (t :: ts)))
    with (rays_of T sun_pos refrac_cor t
          + sum_list (map (rays_of T sun_pos refrac_cor) ts))%nat.
  cbn [length]. unfold rays_of at 1.
  destruct (candidate T sun_pos refrac_cor t); lia.
Qed.

(** The accumulation loop after the occlusion call adds up one term for
    each ray. *)
Lemma accumulate_loop (h : nat -> R) (cond : nat -> bool) (n : nat) (a : R) :
  for_range 0 n (fun k agg => if cond k then agg + h k else agg) a
  = a + Rsum (map (fun k => if cond k then h k else 0) (seq 0 n)).
Proof.
  unfold for_range. induction n as [| n IH].
  - simpl. unfold Rsum. simpl. lra.
  - rewrite seq_S, fold_left_app, map_app, Rsum_app, IH. cbn.
    destruct (cond n); lra.
Qed.

Lemma map_seq_lookup {A B : Type} (h : nat -> B) (g : A -> B) (l : list A) :
  (forall k x, l !! k = Some x -> h k = g x) ->
  map h (seq 0 (length l)) = map g l.
Proof.
  revert h. induction l as [| a l IH]; intros h Hh; [reflexivity |].
  cbn [length seq map]. rewrite (Hh 0%nat a eq_refl). f_equal.
  rewrite <- seq_shift, map_map. apply IH.
  intros k x Hk. apply (Hh (S k)). exact Hk.
Qed.

(** What the body of the triangle loop does, in terms of the candidate of
    the triangle. *)
Lemma sw_dir_cor_coherent_triangle_candidate (T : CppTerrain) (sun_pos : vec)
  (k m n : nat) (b : coherent_batch) :
  sw_dir_cor_coherent_triangle T sun_pos k m n b
  = match candidate T sun_pos 0 (k, m, n) with
    | None => b
    | Some (ray, c) =>
        Batch (<[num_rays_gc b :=
                   Ray (org ray) (dir ray) (tnear ray) (tfar ray)
                       (num_rays_gc b)]> (rays b))
              (<[num_rays_gc b := c]> (sw_dir_cor_ray b))
              (num_rays_gc b + 1)%nat
    end.
Proof.
  unfold sw_dir_cor_coherent_triangle, candidate, triangle_scope,
    sw_dir_cor_scope.
  destruct (func_ptr n (Z.to_nat (dem_dim_1_cl T)) _ _) as [[a0 a1] a2].
  destruct (func_ptr n (Z.to_nat (dem_dim_in_1_cl T)) k m) as [[b0 b1] b2].
  cbn. unfold dot. cbn.
  destruct (Rle_dec _ (dot_prod_min_cl T)); [reflexivity |].
  destruct (Rle_dec _ 0); reflexivity.
Qed.

(** The batch after the loops over the triangles [ts]: the candidates of
    [ts] follow the rays that were in the batch. *)
Lemma sw_dir_cor_coherent_fill (T : CppTerrain) (sun_pos : vec)
  (ts : list (nat * nat * nat)) (b : coherent_batch) :
  let cs := candidates T sun_pos 0 ts in
  let b' := fold_left (fun b t => let '(k, m, n) := t in
                         sw_dir_cor_coherent_triangle T sun_pos k m n b)
                      ts b in
  (num_rays_gc b + length cs <= length (rays b))%nat ->
  length (sw_dir_cor_ray b) = length (rays b) ->
  num_rays_gc b' = (num_rays_gc b + length cs)%nat
  /\ length (rays b') = length (rays b)
  /\ length (sw_dir_cor_ray b') = length (rays b)
  /\ (forall q, (q < num_rays_gc b)%nat ->
        rays b' !!! q = rays b !!! q
        /\ sw_dir_cor_ray b' !!! q = sw_dir_cor_ray b !!! q)
  /\ (forall q ray c, cs !! q = Some (ray, c) ->
        rays b' !!! (num_rays_gc b + q)%nat
        = Ray (org ray) (dir ray) (tnear ray) (tfar ray) (num_rays_gc b + q)
        /\ sw_dir_cor_ray b' !!! (num_rays_gc b + q)%nat = c).
Proof.
  revert b. induction ts as [| [[k m] n] ts IH]; intros b cs b' Hn Hl.
  - subst cs b'. cbn. split; [lia |]. split; [reflexivity |].
    split; [assumption |].
    split; [intros q Hq; split; reflexivity | intros q ray c Hq; discriminate].
  - subst b'. cbn [fold_left].
    rewrite sw_dir_cor_coherent_triangle_candidate.
    subst cs. unfold candidates in *. cbn [omap list_omap] in *.
    unfold omap in *.
    destruct (candidate T sun_pos 0 (k, m, n)) as [[ray c] |]; cbn in Hn |- *.
    + set (b1 := Batch _ _ _).
      destruct (IH b1) as (H1 & H2 & H3 & H4 & H5);
        [subst b1; cbn; rewrite length_insert; lia
        | subst b1; cbn; rewrite !length_insert; exact Hl |].
      subst b1; cbn [num_rays_gc rays sw_dir_cor_ray] in *.
      rewrite !length_insert in *.
      split; [lia |]. split; [exact H2 |]. split; [exact H3 |]. split.
      * intros q Hq. destruct (H4 q) as [E1 E2]; [lia |].
        rewrite E1, E2, !list_lookup_total_insert_ne by lia. now split.
      * intros [| q] ray' c' Hq; cbn in Hq.
        -- injection Hq as <- <-. rewrite Nat.add_0_r.
           destruct (H4 (num_rays_gc b)) as [E1 E2]; [lia |].
           rewrite E1, E2, !list_lookup_total_insert_eq by lia. now split.
        -- replace (num_rays_gc b + S q)%nat
             with (num_rays_gc b + 1 + q)%nat by lia.
           apply H5. exact Hq.
    + apply IH; assumption.
Qed.

Lemma rtcOccluded1M_lookup (sc : RTCScene) (l : list RTCRay) (M k : nat) :
  (k < M)%nat -> (M <= length l)%nat ->
  rtcOccluded1M sc l M !!! k = rtcOccluded1 sc (l !!! k).
Proof.
  intros Hk HM. unfold rtcOccluded1M.
  apply list_lookup_total_correct.
  rewrite lookup_app_l by (rewrite length_map, length_take; lia).
  rewrite list_lookup_fmap, lookup_take_lt by lia.
  rewrite (list_lookup_lookup_total_lt l k) by lia. reflexivity.
Qed.

(** The body of the loop over the grid cells. *)
Lemma sw_dir_cor_coherent_cell_eq (T : CppTerrain) (sun_pos : vec)
  (i j : nat) (out : list fval) (nr : nat) :
  let lin_ind_gc := lin_ind_2d (Z.to_nat (num_gc_x_cl T)) i j in
  sw_dir_cor_coherent_cell T sun_pos i j (out, nr)
  = (<[lin_ind_gc :=
         if (mask_cl T !!! lin_ind_gc =? 1)%Z
         then FVal (cell_sum T sun_pos 0 i j
                    / IZR (pixel_per_gc_cl T * pixel_per_gc_cl T * 2))
         else FNaN]> out,
     (nr + if (mask_cl T !!! lin_ind_gc =? 1)%Z
           then cell_rays T sun_pos 0 i j else 0)%nat).
Proof.
  intros lin_ind_gc. unfold sw_dir_cor_coherent_cell. fold lin_ind_gc.
  destruct (mask_cl T !!! lin_ind_gc =? 1)%Z; [| f_equal; lia].
  rewrite cell_loop.
  set (p := Z.to_nat (pixel_per_gc_cl T)).
  set (N := Z.to_nat (pixel_per_gc_cl T * pixel_per_gc_cl T * 2)).
  set (ts := cell_triangles p i j).
  set (b0 := Batch (replicate N ray_uninit) (replicate N 0) 0).
  assert (HN : (length ts <= N)%nat).
  { unfold ts. rewrite length_cell_triangles. unfold N, p. nia. }
  destruct (sw_dir_cor_coherent_fill T sun_pos ts b0)
    as (H1 & H2 & H3 & _ & H5).
  { cbn. rewrite length_replicate.
    pose proof (length_candidates T sun_pos 0 ts). lia. }
  { cbn. now rewrite !length_replicate. }
  set (b := fold_left _ ts b0) in *.
  cbn [num_rays_gc rays b0] in H1, H2, H3, H5.
  rewrite length_replicate in H2, H3.
  destruct (Rsum_candidates T sun_pos 0 ts) as [Hsum Hlen].
  fold ts in Hsum, Hlen.
  set (cs := candidates T sun_pos 0 ts) in *. cbn [Nat.add] in H1, H5.
  f_equal; [| unfold cell_rays; fold p ts; rewrite H1, Hlen; reflexivity].
  f_equal. f_equal. f_equal.
  rewrite accumulate_loop, Rplus_0_l.
  unfold cell_sum. fold p ts. rewrite <- Hsum, H1. f_equal.
  apply map_seq_lookup. intros k [ray c] Hk.
  assert (Hk' : (k < length cs)%nat) by (eapply lookup_lt_Some; eassumption).
  destruct (H5 k ray c Hk) as [E1 E2].
  pose proof (length_candidates T sun_pos 0 ts) as Hcs. fold cs in Hcs.
  rewrite rtcOccluded1M_lookup by (rewrite ?H1, ?H2; lia).
  rewrite rtcOccluded1_id, E1. cbn [id]. rewrite E2.
  unfold candidate_contribution, unoccluded. cbn [fst snd].
  rewrite rtcOccluded1_tfar_id. reflexivity.
Qed.

(** The output buffer of [sw_dir_cor_coherent]. *)
Lemma sw_dir_cor_coherent_spec (T : CppTerrain) (sun_pos : vec)
  (out0 : list fval) :
  let ny := Z.to_nat (num_gc_y_cl T) in
  let nx := Z.to_nat (num_gc_x_cl T) in
  (ny * nx <= length out0)%nat ->
  let res := sw_dir_cor_coherent_cells T sun_pos out0 in
  fst (sw_dir_cor_coherent T sun_pos out0) = fst res
  /\ length (fst res) = length out0
  /\ (forall i j, (i < ny)%nat -> (j < nx)%nat ->
        fst res !!! lin_ind_2d nx i j
        = if (mask_cl T !!! lin_ind_2d nx i j =? 1)%Z
          then FVal (cell_sum T sun_pos 0 i j
                     / IZR (pixel_per_gc_cl T * pixel_per_gc_cl T * 2))
          else FNaN)
  /\ (forall c, (ny * nx <= c)%nat -> fst res !!! c = out0 !!! c)
  /\ snd res
     = sum_list
         (map (fun c =>
                 if (mask_cl T !!! lin_ind_2d nx (Nat.div c nx) (Nat.modulo c nx)
                     =? 1)%Z
                 then cell_rays T sun_pos 0 (Nat.div c nx) (Nat.modulo c nx)
                 else 0%nat)
              (seq 0 (ny * nx))).
Proof.
  intros ny nx Hlen res. split.
  { unfold sw_dir_cor_coherent. subst res.
    now destruct (sw_dir_cor_coherent_cells T sun_pos out0). }
  apply (cells_loop_spec ny nx (sw_dir_cor_coherent_cell T sun_pos)
           (fun i j _ =>
              if (mask_cl T !!! lin_ind_2d nx i j =? 1)%Z
              then FVal (cell_sum T sun_pos 0 i j
                         / IZR (pixel_per_gc_cl T * pixel_per_gc_cl T * 2))
              else FNaN)
           (fun i j =>
              if (mask_cl T !!! lin_ind_2d nx i j =? 1)%Z
              then cell_rays T sun_pos 0 i j else 0%nat));
    [| exact Hlen].
  intros i j out nr. apply sw_dir_cor_coherent_cell_eq.
Qed.

(** ** The packet-8 engine *)

Lemma flat_map_perm_ext {A B : Type} (f g : A -> list B) (l : list A) :
  (forall a, Permutation (f a) (g a)) ->
  Permutation (flat_map f l) (flat_map g l).
Proof.
  intros Hfg. induction l as [| a l IH]; [constructor |].
  cbn [flat_map]. now apply Permutation_app.
Qed.

Lemma flat_map_app_perm {A B : Type} (f g : A -> list B) (l : list A) :
  Permutation (flat_map (fun a => f a ++ g a) l)
              (flat_map f l ++ flat_map g l).
Proof.
  induction l as [| a l IH]; [constructor |].
  cbn [flat_map]. rewrite IH, <- !app_assoc.
  apply Permutation_app_head.
  rewrite !app_assoc. apply Permutation_app_tail, Permutation_app_comm.
Qed.

Lemma flat_map_flat_map {A B C : Type} (f : B -> list C) (g : A -> list B)
  (l : list A) :
  flat_map f (flat_map g l) = flat_map (fun a => flat_map f (g a)) l.
Proof.
  induction l as [| a l IH]; [reflexivity |].
  cbn [flat_map]. rewrite flat_map_app, IH. reflexivity.
Qed.

Lemma flat_map_map {A B C : Type} (f : B -> list C) (g : A -> B)
  (l : list A) :
  flat_map f (map g l) = flat_map (fun a => f (g a)) l.
Proof.
  induction l as [| a l IH]; [reflexivity |].
  cbn [flat_map map]. now rewrite IH.
Qed.

(** Stepping through a range of even length two at a time. *)
Lemma flat_map_seq_pairs {B : Type} (F : nat -> list B) (lo h : nat) :
  flat_map (fun t => F (lo + 2 * t)%nat ++ F (lo + 2 * t + 1)%nat) (seq 0 h)
  = flat_map F (seq lo (2 * h)).
Proof.
  revert lo. induction h as [| h IH]; intros lo; [reflexivity |].
  replace (2 * S h)%nat with (S (S (2 * h))) by lia.
  cbn [seq flat_map]. rewrite <- seq_shift, flat_map_map.
  replace (lo + 2 * 0)%nat with lo by lia.
  replace (lo + 1)%nat with (S lo) by lia.
  rewrite <- app_assoc. f_equal. f_equal.
  rewrite <- (IH (S (S lo))). apply flat_map_ext. intros t.
  f_equal; f_equal; lia.
Qed.

Lemma block_triangles_rows (k m : nat) :
  block_triangles k m
  = flat_map (fun m_block => map (fun n => (k, m_block, n)) (seq 0 2))
             (seq m 2)
    ++ flat_map (fun m_block => map (fun n => ((k + 1)%nat, m_block, n))
                                    (seq 0 2))
                (seq m 2).
Proof.
  unfold block_triangles. cbn [seq flat_map]. rewrite app_nil_r.
  replace (S k) with (k + 1)%nat by lia. reflexivity.
Qed.

(** For an even [pixel_per_gc] the packet-8 engine visits the triangles of
    a grid cell that the other two engines visit, in another order. *)
Lemma cell_triangles_rp8_perm (h i j : nat) :
  Permutation (cell_triangles_rp8 (2 * h) i j) (cell_triangles (2 * h) i j).
Proof.
  unfold cell_triangles_rp8, cell_blocks, cell_triangles.
  replace (Nat.div (2 * h + 1) 2) with h
    by (apply Nat.div_unique with 1%nat; lia).
  set (k0 := (i * (2 * h))%nat). set (m0 := (j * (2 * h))%nat).
  pose (row := fun (k m : nat) => map (fun n : nat => (k, m, n)) (seq 0 2)).
  change (Permutation
            (flat_map (fun b => block_triangles (fst b) (snd b))
               (flat_map (fun t => map (fun s => (k0 + 2 * t, m0 + 2 * s)%nat)
                                       (seq 0 h)) (seq 0 h)))
            (flat_map (fun k => flat_map (row k) (seq m0 (2 * h)))
                      (seq k0 (2 * h)))).
  rewrite <- (flat_map_seq_pairs
                (fun k => flat_map (row k) (seq m0 (2 * h))) k0 h).
  rewrite flat_map_flat_map.
  apply flat_map_perm_ext. intros t.
  rewrite flat_map_map. cbn [fst snd].
  rewrite <- !(flat_map_seq_pairs (row _) m0 h).
  rewrite <- flat_map_app_perm.
  apply flat_map_perm_ext. intros s.
  rewrite block_triangles_rows. cbn [seq flat_map]. rewrite !app_nil_r.
  fold (row (k0 + 2 * t)%nat (m0 + 2 * s)%nat).
  fold (row (k0 + 2 * t)%nat (S (m0 + 2 * s))).
  fold (row (k0 + 2 * t + 1)%nat (m0 + 2 * s)%nat).
  fold (row (k0 + 2 * t + 1)%nat (S (m0 + 2 * s))).
  replace (m0 + 2 * s + 1)%nat with (S (m0 + 2 * s)) by lia.
  reflexivity.
Qed.

Lemma Rsum_perm (l1 l2 : list R) : Permutation l1 l2 -> Rsum l1 = Rsum l2.
Proof.
  induction 1 as [| x l l' _ IH | x y l | l l' l'' _ IH1 _ IH2];
    unfold Rsum in *; cbn; lra.
Qed.

Lemma length_block_triangles (k m : nat) :
  length (block_triangles k m) = 8%nat.
Proof. reflexivity. Qed.

(** What the body of the triangle loop does, in terms of the candidate of
    the triangle. *)
Lemma sw_dir_cor_coherent_rp8_triangle_candidate (T : CppTerrain)
  (sun_pos : vec) (k m n : nat) (b : ray_package) :
  sw_dir_cor_coherent_rp8_triangle T sun_pos k m n b
  = match candidate T sun_pos 0 (k, m, n) with
    | None => b
    | Some (ray, c) =>
        Package (<[num_rays_gc8 b :=
                     Ray (org ray) (dir ray) (tnear ray) (tfar ray)
                         (num_rays_gc8 b)]> (ray8 b))
                (<[num_rays_gc8 b := (-1)%Z]> (valid8 b))
                (<[num_rays_gc8 b := c]> (sw_dir_cor_ray8 b))
                (num_rays_gc8 b + 1)%nat
    end.
Proof.
  unfold sw_dir_cor_coherent_rp8_triangle, candidate, triangle_scope,
    sw_dir_cor_scope.
  destruct (func_ptr n (Z.to_nat (dem_dim_1_cl T)) _ _) as [[a0 a1] a2].
  destruct (func_ptr n (Z.to_nat (dem_dim_in_1_cl T)) k m) as [[b0 b1] b2].
  cbn. unfold dot. cbn.
  destruct (Rle_dec _ (dot_prod_min_cl T)); [reflexivity |].
  destruct (Rle_dec _ 0); reflexivity.
Qed.

(** The package after the loops over the triangles [ts]. *)
Lemma sw_dir_cor_coherent_rp8_fill (T : CppTerrain) (sun_pos : vec)
  (ts : list (nat * nat * nat)) (b : ray_package) :
  let cs := candidates T sun_pos 0 ts in
  let b' := fold_left (fun b t => let '(k, m, n) := t in
                         sw_dir_cor_coherent_rp8_triangle T sun_pos k m n b)
                      ts b in
  (num_rays_gc8 b + length cs <= length (ray8 b))%nat ->
  length (valid8 b) = length (ray8 b) ->
  length (sw_dir_cor_ray8 b) = length (ray8 b) ->
  num_rays_gc8 b' = (num_rays_gc8 b + length cs)%nat
  /\ length (ray8 b') = length (ray8 b)
  /\ length (valid8 b') = length (ray8 b)
  /\ length (sw_dir_cor_ray8 b') = length (ray8 b)
  /\ (forall q, (q < num_rays_gc8 b)%nat ->
        ray8 b' !!! q = ray8 b !!! q
        /\ valid8 b' !!! q = valid8 b !!! q
        /\ sw_dir_cor_ray8 b' !!! q = sw_dir_cor_ray8 b !!! q)
  /\ (forall q ray c, cs !! q = Some (ray, c) ->
        ray8 b' !!! (num_rays_gc8 b + q)%nat
        = Ray (org ray) (dir ray) (tnear ray) (tfar ray) (num_rays_gc8 b + q)
        /\ valid8 b' !!! (num_rays_gc8 b + q)%nat = (-1)%Z
        /\ sw_dir_cor_ray8 b' !!! (num_rays_gc8 b + q)%nat = c).
Proof.
  revert b. induction ts as [| [[k m] n] ts IH]; intros b cs b' Hn Hv Hl.
  - subst cs b'. cbn. split; [lia |]. split; [reflexivity |].
    split; [assumption |]. split; [assumption |].
    split; [intros q Hq; repeat split | intros q ray c Hq; discriminate].
  - subst b'. cbn [fold_left].
    rewrite sw_dir_cor_coherent_rp8_triangle_candidate.
    subst cs.
    change (candidates T sun_pos 0 ((k, m, n) :: ts))
      with (match candidate T sun_pos 0 (k, m, n) with
            | Some rc => rc :: candidates T sun_pos 0 ts
            | None => candidates T sun_pos 0 ts
            end) in *.
    destruct (candidate T sun_pos 0 (k, m, n)) as [[ray c] |];
      cbn [length] in Hn.
    + set (b1 := Package _ _ _ _).
      destruct (IH b1) as (H1 & H2 & H3 & H4 & H5 & H6);
        [subst b1; cbn; rewrite length_insert; lia
        | subst b1; cbn; rewrite !length_insert; exact Hv
        | subst b1; cbn; rewrite !length_insert; exact Hl |].
      subst b1; cbn [num_rays_gc8 ray8 valid8 sw_dir_cor_ray8] in *.
      rewrite !length_insert in *.
      split; [cbn [length]; lia |]. split; [exact H2 |].
      split; [exact H3 |]. split; [exact H4 |]. split.
      * intros q Hq. destruct (H5 q) as (E1 & E2 & E3); [lia |].
        rewrite E1, E2, E3, !list_lookup_total_insert_ne by lia.
        now repeat split.
      * intros [| q] ray' c' Hq; cbn in Hq.
        -- injection Hq as <- <-. rewrite Nat.add_0_r.
           destruct (H5 (num_rays_gc8 b)) as (E1 & E2 & E3); [lia |].
           rewrite E1, E2, E3, !list_lookup_total_insert_eq by lia.
           now repeat split.
        -- replace (num_rays_gc8 b + S q)%nat
             with (num_rays_gc8 b + 1 + q)%nat by lia.
           apply H6. exact Hq.
    + apply IH; assumption.
Qed.

Lemma rtcOccluded8_lookup (sc : RTCScene) (valid : list Z)
  (l : list RTCRay) (k : nat) :
  (k < length l)%nat -> length valid = length l -> valid !!! k = (-1)%Z ->
  rtcOccluded8 valid sc l !!! k = rtcOccluded1 sc (l !!! k).
Proof.
  intros Hk Hl Hv. unfold rtcOccluded8.
  apply list_lookup_total_correct. rewrite lookup_zip_with.
  rewrite (list_lookup_lookup_total_lt valid k) by lia.
  rewrite (list_lookup_lookup_total_lt l k) by lia.
  cbn [mbind option_bind]. rewrite Hv. reflexivity.
Qed.

(** The body of the loop over the blocks of 2 x 2 pixels. *)
Lemma sw_dir_cor_coherent_rp8_block_eq (T : CppTerrain) (sun_pos : vec)
  (k m : nat) (c : rp8_cell) :
  length (cell_ray8 c) = 8%nat -> length (cell_sw_dir_cor_ray c) = 8%nat ->
  let c' := sw_dir_cor_coherent_rp8_block T sun_pos k m c in
  length (cell_ray8 c') = 8%nat
  /\ length (cell_sw_dir_cor_ray c') = 8%nat
  /\ sw_dir_cor_agg c'
     = sw_dir_cor_agg c
       + Rsum (map (contribution T sun_pos 0) (block_triangles k m))
  /\ cell_num_rays c'
     = (cell_num_rays c
        + sum_list (map (rays_of T sun_pos 0) (block_triangles k m)))%nat.
Proof.
  intros Hr Hs c'. subst c'. unfold sw_dir_cor_coherent_rp8_block.
  rewrite block_loop.
  set (ts := block_triangles k m).
  set (b0 := Package (cell_ray8 c) (replicate 8 0%Z) (cell_sw_dir_cor_ray c) 0).
  pose proof (length_candidates T sun_pos 0 ts) as Hcs.
  change (length ts) with 8%nat in Hcs.
  destruct (sw_dir_cor_coherent_rp8_fill T sun_pos ts b0)
    as (H1 & H2 & H3 & H4 & _ & H6).
  { unfold b0. cbn [num_rays_gc8 ray8 Nat.add]. lia. }
  { unfold b0. cbn [valid8 ray8]. rewrite length_replicate. lia. }
  { unfold b0. cbn [sw_dir_cor_ray8 ray8]. lia. }
  set (b := fold_left _ ts b0) in *.
  cbn [num_rays_gc8 ray8 b0 Nat.add] in H1, H2, H3, H4, H6.
  destruct (Rsum_candidates T sun_pos 0 ts) as [Hsum Hlen].
  set (cs := candidates T sun_pos 0 ts) in *.
  cbn [cell_ray8 cell_sw_dir_cor_ray sw_dir_cor_agg cell_num_rays].
  split; [unfold rtcOccluded8; rewrite length_zip_with; lia |].
  split; [lia |]. split; [| rewrite H1, Hlen; reflexivity].
  rewrite accumulate_loop. f_equal. rewrite <- Hsum, H1. f_equal.
  apply map_seq_lookup. intros q [ray x] Hq.
  assert (Hq' : (q < length cs)%nat) by (eapply lookup_lt_Some; eassumption).
  destruct (H6 q ray x Hq) as (E1 & E2 & E3).
  rewrite rtcOccluded8_lookup by (rewrite ?H2, ?H3; lia || assumption).
  rewrite E1, E3.
  unfold candidate_contribution, unoccluded. cbn [fst snd].
  rewrite rtcOccluded1_tfar_id. reflexivity.
Qed.

Lemma sum_list_app (l1 l2 : list nat) :
  sum_list (l1 ++ l2) = (sum_list l1 + sum_list l2)%nat.
Proof. unfold sum_list. apply sum_list_with_app. Qed.

Lemma sum_list_perm (l1 l2 : list nat) :
  Permutation l1 l2 -> sum_list l1 = sum_list l2.
Proof.
  induction 1 as [| x l l' _ IH | x y l | l l' l'' _ IH1 _ IH2];
    unfold sum_list in *; cbn [sum_list_with id] in *; lia.
Qed.

Lemma sw_dir_cor_coherent_rp8_blocks (T : CppTerrain) (sun_pos : vec)
  (bs : list (nat * nat)) (c : rp8_cell) :
  length (cell_ray8 c) = 8%nat -> length (cell_sw_dir_cor_ray c) = 8%nat ->
  let c' := fold_left (fun c b =>
                         sw_dir_cor_coherent_rp8_block T sun_pos (fst b)
                                                       (snd b) c) bs c in
  let ts := flat_map (fun b => block_triangles (fst b) (snd b)) bs in
  sw_dir_cor_agg c'
  = sw_dir_cor_agg c + Rsum (map (contribution T sun_pos 0) ts)
  /\ cell_num_rays c'
     = (cell_num_rays c + sum_list (map (rays_of T sun_pos 0) ts))%nat.
Proof.
  revert c. induction bs as [| b bs IH]; intros c Hr Hs; cbv zeta.
  - cbn. unfold Rsum. cbn. split; [lra | lia].
  - cbn [fold_left flat_map].
    destruct (sw_dir_cor_coherent_rp8_block_eq T sun_pos (fst b) (snd b) c
                Hr Hs) as (Hr' & Hs' & Ha & Hn).
    destruct (IH _ Hr' Hs') as [IHa IHn].
    rewrite IHa, IHn, Ha, Hn, !map_app, Rsum_app, sum_list_app.
    split; [lra | lia].
Qed.

(** The body of the loop over the grid cells, for an even
    [pixel_per_gc]. *)
Lemma sw_dir_cor_coherent_rp8_cell_eq (T : CppTerrain) (sun_pos : vec)
  (i j : nat) (out : list fval) (nr : nat) :
  Z.even (pixel_per_gc_cl T) = true ->
  let lin_ind_gc := lin_ind_2d (Z.to_nat (num_gc_x_cl T)) i j in
  sw_dir_cor_coherent_rp8_cell T sun_pos i j (out, nr)
  = (<[lin_ind_gc :=
         if (mask_cl T !!! lin_ind_gc =? 1)%Z
         then FVal (cell_sum T sun_pos 0 i j
                    / (IZR (pixel_per_gc_cl T * pixel_per_gc_cl T) * 2))
         else FNaN]> out,
     (nr + if (mask_cl T !!! lin_ind_gc =? 1)%Z
           then cell_rays T sun_pos 0 i j else 0)%nat).
Proof.
  intros Hp lin_ind_gc. unfold sw_dir_cor_coherent_rp8_cell. fold lin_ind_gc.
  destruct (mask_cl T !!! lin_ind_gc =? 1)%Z; [| f_equal; lia].
  rewrite blocks_loop.
  set (p := Z.to_nat (pixel_per_gc_cl T)).
  assert (Hh : exists h, p = (2 * h)%nat).
  { apply Z.even_spec in Hp. destruct Hp as [h Hh]. exists (Z.to_nat h).
    unfold p. lia. }
  destruct Hh as [h Hh].
  destruct (sw_dir_cor_coherent_rp8_blocks T sun_pos (cell_blocks p i j)
              (Rp8Cell (replicate 8 ray_uninit) (replicate 8 0) 0 nr))
    as [Ha Hn]; [reflexivity | reflexivity |].
  cbv zeta in Ha, Hn. cbn [sw_dir_cor_agg cell_num_rays] in Ha, Hn.
  fold (cell_triangles_rp8 p i j) in Ha, Hn.
  pose proof (cell_triangles_rp8_perm h i j) as Hperm. rewrite <- Hh in Hperm.
  rewrite Ha, Hn, Rplus_0_l. unfold cell_sum, cell_rays. fold p.
  rewrite (Rsum_perm _ _ (Permutation_map _ Hperm)).
  rewrite (sum_list_perm _ _ (Permutation_map _ Hperm)).
  reflexivity.
Qed.

(** The output buffer of [sw_dir_cor_coherent_rp8] for an even
    [pixel_per_gc]. *)
Lemma sw_dir_cor_coherent_rp8_spec (T : CppTerrain) (sun_pos : vec)
  (out0 : list fval) :
  let ny := Z.to_nat (num_gc_y_cl T) in
  let nx := Z.to_nat (num_gc_x_cl T) in
  Z.even (pixel_per_gc_cl T) = true ->
  (ny * nx <= length out0)%nat ->
  let res := sw_dir_cor_coherent_rp8_cells T sun_pos out0 in
  fst (sw_dir_cor_coherent_rp8 T sun_pos out0) = fst res
  /\ length (fst res) = length out0
  /\ (forall i j, (i < ny)%nat -> (j < nx)%nat ->
        fst res !!! lin_ind_2d nx i j
        = if (mask_cl T !!! lin_ind_2d nx i j =? 1)%Z
          then FVal (cell_sum T sun_pos 0 i j
                     / (IZR (pixel_per_gc_cl T * pixel_per_gc_cl T) * 2))
          else FNaN)
  /\ (forall c, (ny * nx <= c)%nat -> fst res !!! c = out0 !!! c)
  /\ snd res
     = sum_list
         (map (fun c =>
                 if (mask_cl T !!! lin_ind_2d nx (Nat.div c nx) (Nat.modulo c nx)
                     =? 1)%Z
                 then cell_rays T sun_pos 0 (Nat.div c nx) (Nat.modulo c nx)
                 else 0%nat)
              (seq 0 (ny * nx))).
Proof.
  intros ny nx Hp Hlen res. split.
  { unfold sw_dir_cor_coherent_rp8. subst res.
    assert (Hrem : (Z.rem (pixel_per_gc_cl T) 2 =? 0)%Z = true).
    { apply Z.eqb_eq. rewrite Zquot.Zrem_even, Hp. reflexivity. }
    rewrite Hrem.
    now destruct (sw_dir_cor_coherent_rp8_cells T sun_pos out0). }
  apply (cells_loop_spec ny nx (sw_dir_cor_coherent_rp8_cell T sun_pos)
           (fun i j _ =>
              if (mask_cl T !!! lin_ind_2d nx i j =? 1)%Z
              then FVal (cell_sum T sun_pos 0 i j
                         / (IZR (pixel_per_gc_cl T * pixel_per_gc_cl T) * 2))
              else FNaN)
           (fun i j =>
              if (mask_cl T !!! lin_ind_2d nx i j =? 1)%Z
              then cell_rays T sun_pos 0 i j else 0%nat));
    [| exact Hlen].
  intros i j out nr. now apply sw_dir_cor_coherent_rp8_cell_eq.
Qed.

(** ** Bounds on the contributions *)

Lemma valid_num_gc (T : CppTerrain) :
  valid_input T -> (0 <= num_gc_y_cl T)%Z /\ (0 <= num_gc_x_cl T)%Z.
Proof.
  intros V. rewrite (valid_num_gc_y T V), (valid_num_gc_x T V).
  pose proof (valid_pixel_per_gc T V).
  destruct (valid_dem_dim_in_0 T V) as [? _].
  destruct (valid_dem_dim_in_1 T V) as [? _].
  split; apply Z.quot_pos; lia.
Qed.

Lemma valid_dot_prod_min_nonneg (T : CppTerrain) :
  valid_input T -> 0 <= dot_prod_min_cl T.
Proof.
  intros V. rewrite (valid_dot_prod_min T V).
  destruct (valid_ang_max T V) as [H0 H90].
  pose proof PI_RGT_0 as Hpi.
  apply cos_ge_0; unfold deg2rad.
  - assert (0 <= ang_max_cl T / 180 * PI) by (apply Rmult_le_pos; lra). lra.
  - assert (ang_max_cl T / 180 * PI <= 90 / 180 * PI)
      by (apply Rmult_le_compat_r; lra). lra.
Qed.

Lemma valid_num_tri_per_gc (T : CppTerrain) :
  valid_input T ->
  0 < num_tri_per_gc T
  /\ num_tri_per_gc T
     = INR (length (cell_triangles (Z.to_nat (pixel_per_gc_cl T)) 0 0))
  /\ IZR (pixel_per_gc_cl T * pixel_per_gc_cl T * 2) = num_tri_per_gc T.
Proof.
  intros V. pose proof (valid_pixel_per_gc T V) as Hp.
  unfold num_tri_per_gc. rewrite length_cell_triangles.
  assert (H1 : 1 <= IZR (pixel_per_gc_cl T * pixel_per_gc_cl T))
    by (apply IZR_le; nia).
  split; [lra |]. split.
  - rewrite INR_IZR_INZ, <- (mult_IZR _ 2). f_equal. lia.
  - rewrite (mult_IZR _ 2). reflexivity.
Qed.








(** ** The output invariant *)




(** ** The value of a processed grid cell *)


(** ** Accumulation into the output buffer *)


Lemma Rsum_zero (l : list R) : (forall x, In x l -> x = 0) -> Rsum l = 0.
Proof.
  induction l as [| a l IH]; intros Hl; [reflexivity |].
  change (Rsum (a :: l)) with (a + Rsum l).
  rewrite IH, (Hl a) by (intros; apply Hl; now right) || now left. lra.
Qed.


(** ** Agreement of the three engines *)

Lemma candidates_perm (T : CppTerrain) (sun_pos : vec) (refrac_cor : Z)
  (l1 l2 : list (nat * nat * nat)) :
  Permutation l1 l2 ->
  Permutation (candidates T sun_pos refrac_cor l1)
              (candidates T sun_pos refrac_cor l2).
Proof.
  unfold candidates.
  induction 1 as [| x l l' _ IH | x y l | l l' l'' _ IH1 _ IH2].
  - constructor.
  - cbn. destruct (candidate T sun_pos refrac_cor x);
      [now constructor | exact IH].
  - cbn. destruct (candidate T sun_pos refrac_cor x),
      (candidate T sun_pos refrac_cor y); try reflexivity. constructor.
  - now transitivity (omap (candidate T sun_pos refrac_cor) l').
Qed.

(** C5, as amended. For a valid input with an even [pixel_per_gc]:
    - on every triangle the bodies of the three triangle loops compute the
      same candidate: the single-ray engine (with [refrac_cor] 0) traces
      its ray and adds its contribution if the ray is not occluded, the
      coherent-batch engine and the packet-8 engine store the ray and the
      contribution in the next free element of their arrays;
    - the packet-8 engine visits the triangles of a grid cell that the
      other two visit, in another order, so that the candidates of the
      cell are the same up to their order;
    - the three engines count the same number of rays;
    - the three output values of a grid cell are equal, provided that the
      buffer passed to [sw_dir_cor] holds 0 at the cell if its mask entry
      is 1. *)
Theorem engines_agree (T : CppTerrain) (sun_pos : vec)
  (out0 out1 out2 : list fval) (i j : nat) :
  valid_input T ->
  Z.even (pixel_per_gc_cl T) = true ->
  (i < Z.to_nat (num_gc_y_cl T))%nat -> (j < Z.to_nat (num_gc_x_cl T))%nat ->
  (Z.to_nat (num_gc_y_cl T) * Z.to_nat (num_gc_x_cl T) <= length out0)%nat ->
  (Z.to_nat (num_gc_y_cl T) * Z.to_nat (num_gc_x_cl T) <= length out1)%nat ->
  (Z.to_nat (num_gc_y_cl T) * Z.to_nat (num_gc_x_cl T) <= length out2)%nat ->
  (mask_cl T !!! lin_ind_2d (Z.to_nat (num_gc_x_cl T)) i j = 1%Z ->
   out0 !!! lin_ind_2d (Z.to_nat (num_gc_x_cl T)) i j = FVal 0) ->
  (forall (lin_ind_gc k m n : nat) (out : list fval) (nr : nat),
     sw_dir_cor_triangle T sun_pos 0 lin_ind_gc k m n (out, nr)
     = match candidate T sun_pos 0 (k, m, n) with
       | None => (out, nr)
       | Some (ray, c) =>
           (if unoccluded T ray
            then <[lin_ind_gc := fadd (out !!! lin_ind_gc) (FVal c)]> out
            else out, (nr + 1)%nat)
       end)
  /\ (forall (k m n : nat) (b : coherent_batch),
        sw_dir_cor_coherent_triangle T sun_pos k m n b
        = match candidate T sun_pos 0 (k, m, n) with
          | None => b
          | Some (ray, c) =>
              Batch (<[num_rays_gc b :=
                         Ray (org ray) (dir ray) (tnear ray) (tfar ray)
                             (num_rays_gc b)]> (rays b))
                    (<[num_rays_gc b := c]> (sw_dir_cor_ray b))
                    (num_rays_gc b + 1)%nat
          end)
  /\ (forall (k m n : nat) (b : ray_package),
        sw_dir_cor_coherent_rp8_triangle T sun_pos k m n b
        = match candidate T sun_pos 0 (k, m, n) with
          | None => b
          | Some (ray, c) =>
              Package (<[num_rays_gc8 b :=
                           Ray (org ray) (dir ray) (tnear ray) (tfar ray)
                               (num_rays_gc8 b)]> (ray8 b))
                      (<[num_rays_gc8 b := (-1)%Z]> (valid8 b))
                      (<[num_rays_gc8 b := c]> (sw_dir_cor_ray8 b))
                      (num_rays_gc8 b + 1)%nat
          end)
  /\ Permutation
       (candidates T sun_pos 0
          (cell_triangles_rp8 (Z.to_nat (pixel_per_gc_cl T)) i j))
       (candidates T sun_pos 0
          (cell_triangles (Z.to_nat (pixel_per_gc_cl T)) i j))
  /\ snd (sw_dir_cor_cells T sun_pos 0 out0)
     = snd (sw_dir_cor_coherent_cells T sun_pos out1)
  /\ snd (sw_dir_cor_coherent_cells T sun_pos out1)
     = snd (sw_dir_cor_coherent_rp8_cells T sun_pos out2)
  /\ fst (sw_dir_cor T sun_pos out0 0)
       !!! lin_ind_2d (Z.to_nat (num_gc_x_cl T)) i j
     = fst (sw_dir_cor_coherent T sun_pos out1)
         !!! lin_ind_2d (Z.to_nat (num_gc_x_cl T)) i j
  /\ fst (sw_dir_cor_coherent T sun_pos out1)
       !!! lin_ind_2d (Z.to_nat (num_gc_x_cl T)) i j
     = fst (sw_dir_cor_coherent_rp8 T sun_pos out2)
         !!! lin_ind_2d (Z.to_nat (num_gc_x_cl T)) i j.
Proof.
  intros V Hp Hi Hj Hl0 Hl1 Hl2 H0.
  destruct (valid_num_gc T V) as [Hy Hx].
  destruct (valid_num_tri_per_gc T V) as (HN & HNl & HN2).
  unfold num_tri_per_gc in *.
  destruct (sw_dir_cor_cells_spec T sun_pos 0 out0 Hl0) as (_ & _ & _ & Hn0).
  destruct (sw_dir_cor_spec T sun_pos 0 out0 Hy Hx Hl0) as (_ & Hc0 & _).
  destruct (sw_dir_cor_coherent_spec T sun_pos out1 Hl1)
    as (-> & _ & Hc1 & _ & Hn1).
  destruct (sw_dir_cor_coherent_rp8_spec T sun_pos out2 Hp Hl2)
    as (-> & _ & Hc2 & _ & Hn2).
  split; [intros; apply sw_dir_cor_triangle_candidate |].
  split; [intros; apply sw_dir_cor_coherent_triangle_candidate |].
  split; [intros; apply sw_dir_cor_coherent_rp8_triangle_candidate |].
  split.
  { apply candidates_perm.
    assert (Hh : exists h, Z.to_nat (pixel_per_gc_cl T) = (2 * h)%nat).
    { apply Z.even_spec in Hp. destruct Hp as [h Hh]. exists (Z.to_nat h).
      pose proof (valid_pixel_per_gc T V). lia. }
    destruct Hh as [h ->]. apply cell_triangles_rp8_perm. }
  split; [now rewrite Hn0, Hn1 |]. split; [now rewrite Hn1, Hn2 |].
  rewrite Hc0, Hc1, Hc2, HN2 by assumption.
  destruct (Z.eqb_spec
              (mask_cl T !!! lin_ind_2d (Z.to_nat (num_gc_x_cl T)) i j) 1)
    as [E | E]; [| split; reflexivity].
  rewrite (H0 E). cbn. rewrite Rplus_0_l. split; reflexivity.
Qed.

(** ** The triangle loop of the single-ray engine *)

(** *** The kernel and the quantities of the specification *)









(** ** Flat terrains *)

Lemma dem_3x3_vertex (r c : nat) :
  (r <= 2)%nat -> (c <= 2)%nat ->
  vertex dem_3x3 ((r * 3 + c) * 3) = Vec (INR c) (INR r) 0.
Proof.
  intros Hr Hc.
  assert (Hr' : r = 0%nat \/ r = 1%nat \/ r = 2%nat) by lia.
  assert (Hc' : c = 0%nat \/ c = 1%nat \/ c = 2%nat) by lia.
  destruct Hr' as [-> | [-> | ->]], Hc' as [-> | [-> | ->]];
    unfold vertex, rd, dem_3x3; simpl; f_equal; lra.
Qed.

(** A pixel [(k, m)] of a terrain whose two DEMs are flat around it, with
    the vertices of the outer DEM at [(x c, y r, z0)] and those of the
    inner DEM at [(x' c, y' r, z1)]. *)
Section Flat.

Variables (T : CppTerrain) (sun_pos : vec) (k m n : nat).
Variables (x y x' y' : nat -> R) (z0 z1 : R).

(** The pixel of the outer DEM is shifted by [off] rows and columns. *)
Variable off : nat.

Hypothesis off_eq : off = Z.to_nat (pixel_per_gc_cl T * offset_gc_cl T).

Hypothesis outer_flat :
  forall r c : nat,
    (k + off <= r <= k + off + 1)%nat ->
    (m + off <= c <= m + off + 1)%nat ->
    vertex (vert_grid_cl T) ((r * Z.to_nat (dem_dim_1_cl T) + c) * 3)
    = Vec (x c) (y r) z0.

Hypothesis outer_oriented :
  0 < (x (m + off + 1)%nat - x (m + off)%nat)
      * (y (k + off + 1)%nat - y (k + off)%nat).

Hypothesis inner_flat :
  forall r c : nat,
    (k <= r <= k + 1)%nat -> (m <= c <= m + 1)%nat ->
    vertex (vert_grid_in_cl T) ((r * Z.to_nat (dem_dim_in_1_cl T) + c) * 3)
    = Vec (x' c) (y' r) z1.

Hypothesis inner_oriented :
  0 < (x' (m + 1)%nat - x' m) * (y' (k + 1)%nat - y' k).

Hypothesis two_triangles : (n < 2)%nat.

Lemma sw_dir_cor_scope_flat :
  let f := sw_dir_cor_scope T sun_pos k m n in
  norm_tilt f = Vec 0 0 1
  /\ area_tilt f
     = (x (m + off + 1)%nat - x (m + off)%nat)
       * (y (k + off + 1)%nat - y (k + off)%nat) / 2
  /\ norm_hori f = Vec 0 0 1
  /\ area_hori f = (x' (m + 1)%nat - x' m) * (y' (k + 1)%nat - y' k) / 2
  /\ v_z (ray_org f) = z0 + ray_org_elev_cl T
  /\ sun f = vec_unit (vec_sub sun_pos (ray_org f)).
Proof.
  intros f.
  destruct (sw_dir_cor_scope_fields T sun_pos k m n)
    as (Ht & Hh & Hs & Hz & Hc).
  rewrite <- off_eq in Ht, Hc. fold f in Ht, Hh, Hs, Hz, Hc.
  rewrite (pixel_triangle_normal_area_flat _ _ _ _ _ x y z0
             outer_flat outer_oriented two_triangles) in Ht.
  rewrite (pixel_triangle_normal_area_flat _ _ _ _ _ x' y' z1
             inner_flat inner_oriented two_triangles) in Hh.
  injection Ht as Ht1 Ht2. injection Hh as Hh1 Hh2.
  rewrite Ht1, Ht2, Hh1, Hh2.
  split; [reflexivity |]. split; [reflexivity |]. split; [reflexivity |].
  split; [reflexivity |]. split; [| exact Hs].
  rewrite Hz, Ht1. cbn [v_z].
  assert (Hcz : v_z (cent f) = z0).
  { assert (Hn' : n = 0%nat \/ n = 1%nat) by lia.
    destruct Hn' as [E | E]; rewrite E in Hc; cbn [func_ptr] in Hc;
      unfold triangle_vert_ll, triangle_vert_ur in Hc; rewrite Hc.
    - replace ((k + off) * Z.to_nat (dem_dim_1_cl T) + (m + off) + 1)%nat
        with ((k + off) * Z.to_nat (dem_dim_1_cl T) + (m + off + 1))%nat
        by lia.
      rewrite !outer_flat by lia. cbn. field.
    - replace ((k + off) * Z.to_nat (dem_dim_1_cl T) + (m + off) + 1)%nat
        with ((k + off) * Z.to_nat (dem_dim_1_cl T) + (m + off + 1))%nat
        by lia.
      replace ((k + off + 1) * Z.to_nat (dem_dim_1_cl T) + (m + off) + 1)%nat
        with ((k + off + 1) * Z.to_nat (dem_dim_1_cl T)
              + (m + off + 1))%nat by lia.
      rewrite !outer_flat by lia. cbn. field. }
  rewrite Hcz. lra.
Qed.

(** The ray origin lies 0.1 m above the centroid of the tilted triangle. *)
Lemma ray_org_flat :
  ray_org (sw_dir_cor_scope T sun_pos k m n)
  = Vec ((x (m + off)%nat + x (m + off + 1)%nat + x (m + off + n)%nat) / 3)
        ((y (k + off)%nat + y (k + off + 1)%nat + y (k + off + n)%nat) / 3)
        (z0 + ray_org_elev_cl T).
Proof.
  destruct (sw_dir_cor_scope_ray_org T sun_pos k m n) as (Ho & _).
  destruct (sw_dir_cor_scope_fields T sun_pos k m n) as (_ & _ & _ & _ & Hc).
  destruct sw_dir_cor_scope_flat as (Ht & _).
  rewrite <- off_eq in Hc.
  set (f := sw_dir_cor_scope T sun_pos k m n) in *.
  rewrite Ho, Ht. cbn [v_x v_y v_z].
  assert (Hn' : n = 0%nat \/ n = 1%nat) by lia.
  destruct Hn' as [E | E]; rewrite E in Hc |- *; cbn [func_ptr] in Hc;
    unfold triangle_vert_ll, triangle_vert_ur in Hc; rewrite Hc.
  - replace ((k + off) * Z.to_nat (dem_dim_1_cl T) + (m + off) + 1)%nat
      with ((k + off) * Z.to_nat (dem_dim_1_cl T) + (m + off + 1))%nat
      by lia.
    rewrite !outer_flat by lia. rewrite !Nat.add_0_r.
    unfold triangle_centroid. cbn [v_x v_y v_z]. f_equal; field.
  - replace ((k + off) * Z.to_nat (dem_dim_1_cl T) + (m + off) + 1)%nat
      with ((k + off) * Z.to_nat (dem_dim_1_cl T) + (m + off + 1))%nat
      by lia.
    replace ((k + off + 1) * Z.to_nat (dem_dim_1_cl T) + (m + off) + 1)%nat
      with ((k + off + 1) * Z.to_nat (dem_dim_1_cl T)
            + (m + off + 1))%nat by lia.
    rewrite !outer_flat by lia.
    unfold triangle_centroid. cbn [v_x v_y v_z]. f_equal; field.
Qed.

(** With the sun below the plane of the ray origins the dot product with
    the horizontal normal is not positive, and the triangle is culled. *)
Lemma dot_flat_low_sun :
  v_z sun_pos < z0 + ray_org_elev_cl T ->
  dot (norm_hori (triangle_scope T sun_pos 0 k m n))
      (sun (triangle_scope T sun_pos 0 k m n)) <= 0.
Proof.
  intros Hz.
  destruct sw_dir_cor_scope_flat as (_ & _ & Hh & _ & Ho & Hs).
  unfold triangle_scope. cbn [Z.eqb].
  set (f := sw_dir_cor_scope T sun_pos k m n) in *.
  rewrite Hh, Hs. unfold dot, vec_unit. cbn [v_x v_y v_z].
  assert (Hm : 0 < vec_mag (vec_sub sun_pos (ray_org f))).
  { apply vec_mag_pos. intros E. apply (f_equal v_z) in E.
    unfold vec_sub in E. cbn [v_z] in E. lra. }
  assert (Hq : v_z (vec_sub sun_pos (ray_org f))
               / vec_mag (vec_sub sun_pos (ray_org f)) < 0).
  { unfold Rdiv. apply Rmult_neg_pos; [| now apply Rinv_0_lt_compat].
    unfold vec_sub. cbn [v_z]. lra. }
  lra.
Qed.

Lemma candidate_flat_low_sun :
  v_z sun_pos < z0 + ray_org_elev_cl T ->
  0 <= dot_prod_min_cl T ->
  candidate T sun_pos 0 (k, m, n) = None.
Proof.
  intros Hz Hmin. pose proof (dot_flat_low_sun Hz) as Hd.
  unfold candidate.
  destruct (Rle_dec _ (dot_prod_min_cl T)); [reflexivity | lra].
Qed.

(** With the sun above the plane of the ray origins and [ang_max] at 90
    degree, the triangle passes both tests and its ray carries the ratio
    of the two areas, clipped to [sw_dir_cor_max]. *)
Lemma candidate_flat_high_sun :
  z0 + ray_org_elev_cl T < v_z sun_pos ->
  dot_prod_min_cl T <= 0 ->
  candidate T sun_pos 0 (k, m, n)
  = Some (Ray (ray_org (sw_dir_cor_scope T sun_pos k m n))
              (sun (sw_dir_cor_scope T sun_pos k m n)) 0
              (FVal (dist_search_cl T)) 0,
          Rmin (area_tilt (sw_dir_cor_scope T sun_pos k m n)
                / area_hori (sw_dir_cor_scope T sun_pos k m n))
               (sw_dir_cor_max_cl T)).
Proof.
  intros Hz Hmin.
  destruct sw_dir_cor_scope_flat as (Ht & _ & Hh & _ & Ho & Hs).
  unfold candidate, triangle_scope. cbn [Z.eqb].
  set (f := sw_dir_cor_scope T sun_pos k m n) in *.
  rewrite Ht, Hh.
  assert (Hd : 0 < dot (Vec 0 0 1) (sun f)).
  { rewrite Hs. unfold dot, vec_unit. cbn [v_x v_y v_z].
    assert (Hm : 0 < vec_mag (vec_sub sun_pos (ray_org f))).
    { apply vec_mag_pos. intros E. apply (f_equal v_z) in E.
      unfold vec_sub in E. cbn [v_z] in E. lra. }
    assert (Hq : 0 < v_z (vec_sub sun_pos (ray_org f))
                     / vec_mag (vec_sub sun_pos (ray_org f))).
    { apply Rdiv_lt_0_compat; [| exact Hm]. unfold vec_sub. cbn [v_z]. lra. }
    lra. }
  destruct (Rle_dec _ (dot_prod_min_cl T)) as [H | _]; [lra |].
  destruct (Rle_dec _ 0) as [H | _]; [lra |].
  replace (dot (Vec 0 0 1) (sun f) / dot (Vec 0 0 1) (sun f)) with 1
    by (field; lra).
  rewrite Rmult_1_l. reflexivity.
Qed.

(** The triangle is not degenerate when the sun is not in the plane of
    the ray origins. *)
Lemma non_degenerate_flat :
  v_z sun_pos <> z0 + ray_org_elev_cl T ->
  non_degenerate T sun_pos 0 (k, m, n).
Proof.
  intros Hz.
  destruct sw_dir_cor_scope_flat as (_ & Ht & _ & Hh & Ho & _).
  unfold non_degenerate. rewrite Ht, Hh.
  repeat split; try lra; try discriminate.
  intros E. apply (f_equal v_z) in E. unfold vec_sub in E. cbn [v_z] in E.
  lra.
Qed.



End Flat.

(** ** The two example terrains *)

Lemma valid_terrain_1x1 : valid_input terrain_1x1.
Proof.
  constructor; unfold terrain_1x1, initialise; cbn;
    try reflexivity; try lia; try lra; split; reflexivity || lia.
Qed.

Lemma valid_terrain_2x2 : valid_input terrain_2x2.
Proof.
  constructor; unfold terrain_2x2, initialise; cbn;
    try reflexivity; try lia; try lra; split; reflexivity || lia.
Qed.

Lemma terrain_1x1_culled (n : nat) :
  (n < 2)%nat -> candidate terrain_1x1 sun_low 0 (0%nat, 0%nat, n) = None.
Proof.
  intros Hn.
  apply (candidate_flat_low_sun terrain_1x1 sun_low 0 0 n INR INR INR INR 0 0 0 eq_refl);
    try assumption.
  - intros r c Hr Hc. apply dem_rows_northward_vertex; cbn in *; lia.
  - simpl. lra.
  - intros r c Hr Hc. apply dem_rows_northward_vertex; lia.
  - simpl. lra.
  - simpl. lra.
  - apply valid_dot_prod_min_nonneg, valid_terrain_1x1.
Qed.


Lemma terrain_1x1_non_degenerate (t : nat * nat * nat) :
  In t (cell_triangles 1 0 0) -> non_degenerate terrain_1x1 sun_low 0 t.
Proof.
  intros Ht.
  assert (Hn : exists n, (n < 2)%nat /\ t = (0%nat, 0%nat, n)).
  { cbn in Ht. destruct Ht as [<- | [<- | []]]; eexists; split;
      try reflexivity; lia. }
  destruct Hn as (n & Hn & ->).
  apply (non_degenerate_flat terrain_1x1 sun_low 0 0 n INR INR INR INR 0 0 0 eq_refl);
    try assumption.
  - intros r c Hr Hc. apply dem_rows_northward_vertex; cbn in *; lia.
  - simpl. lra.
  - intros r c Hr Hc. apply dem_rows_northward_vertex; lia.
  - simpl. lra.
  - simpl. lra.
Qed.

Lemma terrain_1x1_cell_sum : cell_sum terrain_1x1 sun_low 0 0 0 = 0.
Proof.
  unfold cell_sum. apply Rsum_zero. intros x Hx.
  apply in_map_iff in Hx. destruct Hx as (t & <- & Ht).
  cbn in Ht. unfold contribution.
  destruct Ht as [<- | [<- | []]]; rewrite terrain_1x1_culled by lia;
    reflexivity.
Qed.

(** The three engines on [terrain_1x1] with the sun below the horizon and a
    buffer that holds [x]. *)
Lemma terrain_1x1_low_sun (x : fval) :
  fst (sw_dir_cor terrain_1x1 sun_low [x] 0) !!! 0%nat = fdiv x 2
  /\ fst (sw_dir_cor_coherent terrain_1x1 sun_low [x]) !!! 0%nat = FVal 0
  /\ fst (sw_dir_cor_coherent_rp8 terrain_1x1 sun_low [x]) !!! 0%nat = x.
Proof.
  pose proof valid_terrain_1x1 as V.
  destruct (valid_num_gc _ V) as [Hy Hx].
  assert (Hl : (Z.to_nat (num_gc_y_cl terrain_1x1)
                * Z.to_nat (num_gc_x_cl terrain_1x1) <= length [x])%nat)
    by (change (1 * 1 <= 1)%nat; lia).
  split; [| split].
  - destruct (sw_dir_cor_spec terrain_1x1 sun_low 0 [x] Hy Hx Hl)
      as (_ & Hc & _).
    specialize (Hc 0%nat 0%nat). cbn [lin_ind_2d Nat.mul Nat.add] in Hc.
    rewrite Hc by (change (0 < 1)%nat; lia). rewrite terrain_1x1_cell_sum.
    change (mask_cl terrain_1x1 !!! 0%nat =? 1)%Z with true.
    cbn iota. rewrite fadd_0_r. f_equal.
    change (pixel_per_gc_cl terrain_1x1) with 1%Z.
    change (IZR (1 * 1)) with 1. lra.
  - destruct (sw_dir_cor_coherent_spec terrain_1x1 sun_low [x] Hl)
      as (-> & _ & Hc & _).
    specialize (Hc 0%nat 0%nat). cbn [lin_ind_2d Nat.mul Nat.add] in Hc.
    rewrite Hc by (change (0 < 1)%nat; lia). rewrite terrain_1x1_cell_sum.
    change (mask_cl terrain_1x1 !!! 0%nat =? 1)%Z with true.
    cbn iota. f_equal. unfold Rdiv. ring.
  - unfold sw_dir_cor_coherent_rp8.
    rewrite (rem_2_odd (pixel_per_gc_cl terrain_1x1)) by reflexivity.
    reflexivity.
Qed.



Lemma Rsum_const (l : list R) (c : R) :
  (forall r, In r l -> r = c) -> Rsum l = INR (length l) * c.
Proof.
  induction l as [| r l IH]; intros H.
  - simpl. lra.
  - change (Rsum (r :: l)) with (r + Rsum l).
    change (length (r :: l)) with (S (length l)). rewrite S_INR.
    rewrite IH by (intros r' Hr'; apply H; right; exact Hr').
    rewrite (H r) by (left; reflexivity). lra.
Qed.

(** On [terrain_2x2] under [sun_high] every triangle contributes 1: tilted
    and horizontal surface coincide and nothing lies between the triangle
    and the sun. *)
Lemma terrain_2x2_contribution (t : nat * nat * nat) :
  In t (cell_triangles 2 0 0) -> contribution terrain_2x2 sun_high 0 t = 1.
Proof.
  intros Ht.
  assert (Hn : exists k m n, (k <= 1)%nat /\ (m <= 1)%nat /\ (n < 2)%nat
                             /\ t = (k, m, n)).
  { cbn in Ht.
    repeat (destruct Ht as [<- | Ht];
            [do 3 eexists; repeat split; try reflexivity; lia |]).
    destruct Ht. }
  destruct Hn as (k & m & n & Hk & Hm & Hn & ->).
  assert (Hof : forall r c : nat,
             (k + 0 <= r <= k + 0 + 1)%nat -> (m + 0 <= c <= m + 0 + 1)%nat ->
             vertex (vert_grid_cl terrain_2x2)
                    ((r * Z.to_nat (dem_dim_1_cl terrain_2x2) + c) * 3)
             = Vec (INR c) (INR r) 0)
    by (intros r c Hr Hc; apply dem_3x3_vertex; lia).
  assert (Hif : forall r c : nat,
             (k <= r <= k + 1)%nat -> (m <= c <= m + 1)%nat ->
             vertex (vert_grid_in_cl terrain_2x2)
                    ((r * Z.to_nat (dem_dim_in_1_cl terrain_2x2) + c) * 3)
             = Vec (INR c) (INR r) 0)
    by (intros r c Hr Hc; apply dem_3x3_vertex; lia).
  assert (Hoo : 0 < (INR (m + 0 + 1) - INR (m + 0))
                    * (INR (k + 0 + 1) - INR (k + 0)))
    by (rewrite !Nat.add_0_r, !plus_INR; simpl; lra).
  assert (Hio : 0 < (INR (m + 1) - INR m) * (INR (k + 1) - INR k))
    by (rewrite !plus_INR; simpl; lra).
  assert (Hz : 0 + ray_org_elev_cl terrain_2x2 < v_z sun_high)
    by (simpl; lra).
  assert (Hmin : dot_prod_min_cl terrain_2x2 <= 0).
  { change (dot_prod_min_cl terrain_2x2) with (cos (deg2rad 90)).
    replace (deg2rad 90) with (PI / 2) by (unfold deg2rad; lra).
    rewrite cos_PI2. lra. }
  pose proof (candidate_flat_high_sun terrain_2x2 sun_high k m n
                INR INR INR INR 0 0 0%nat eq_refl Hof Hoo Hif Hio Hn Hz Hmin)
    as Hc.
  destruct (sw_dir_cor_scope_flat terrain_2x2 sun_high k m n
              INR INR INR INR 0 0 0%nat eq_refl Hof Hoo Hif Hio Hn)
    as (_ & Hat & _ & Hah & _ & _).
  unfold contribution. rewrite Hc, Hat, Hah.
  unfold unoccluded, rtcOccluded1.
  cbn [scene terrain_2x2 initialise tfar org dir tnear].
  unfold open_sky, fgt0. cbn [tfar].
  rewrite !Nat.add_0_r, !plus_INR. simpl INR.
  replace ((INR m + 1 - INR m) * (INR k + 1 - INR k) / 2
           / ((INR m + 1 - INR m) * (INR k + 1 - INR k) / 2)) with 1
    by (field; lra).
  change (sw_dir_cor_max_cl terrain_2x2) with 5.
  unfold Rmin. destruct (Rle_dec 1 5) as [_ | H]; [| lra].
  destruct (Rlt_dec _ _) as [_ | H]; [reflexivity |].
  exfalso. apply H. simpl. lra.
Qed.

Lemma terrain_2x2_cell_sum : cell_sum terrain_2x2 sun_high 0 0 0 = 8.
Proof.
  unfold cell_sum. change (Z.to_nat (pixel_per_gc_cl terrain_2x2)) with 2%nat.
  rewrite (Rsum_const _ 1).
  - rewrite length_map, length_cell_triangles. simpl. lra.
  - intros r Hr. apply in_map_iff in Hr. destruct Hr as (t & <- & Ht).
    apply terrain_2x2_contribution, Ht.
Qed.

Lemma terrain_2x2_grid :
  (0 < Z.to_nat (num_gc_y_cl terrain_2x2))%nat
  /\ (0 < Z.to_nat (num_gc_x_cl terrain_2x2))%nat
  /\ forall x : fval,
       (Z.to_nat (num_gc_y_cl terrain_2x2)
        * Z.to_nat (num_gc_x_cl terrain_2x2) <= length [x])%nat.
Proof.
  change ((0 < 1)%nat /\ (0 < 1)%nat /\ (fval -> (1 * 1 <= 1)%nat)).
  repeat split; try intros _; lia.
Qed.

(** On the flat [terrain_2x2] under [sun_high] the three engines give a
    correction factor of 1 for the grid cell, the single-ray engine from a
    zeroed buffer. *)
Lemma terrain_2x2_high_sun (x : fval) :
  fst (sw_dir_cor terrain_2x2 sun_high [FVal 0] 0) !!! 0%nat = FVal 1
  /\ fst (sw_dir_cor_coherent terrain_2x2 sun_high [x]) !!! 0%nat = FVal 1
  /\ fst (sw_dir_cor_coherent_rp8 terrain_2x2 sun_high [x]) !!! 0%nat = FVal 1.
Proof.
  destruct terrain_2x2_grid as (Hi & Hj & Hl).
  destruct (sw_dir_cor_spec terrain_2x2 sun_high 0 [FVal 0])
    as (_ & H1 & _); [discriminate | discriminate | exact (Hl _) |].
  destruct (sw_dir_cor_coherent_spec terrain_2x2 sun_high [x] (Hl _))
    as (E2 & _ & H2 & _).
  destruct (sw_dir_cor_coherent_rp8_spec terrain_2x2 sun_high [x] eq_refl
              (Hl _)) as (E3 & _ & H3 & _).
  specialize (H1 0%nat 0%nat Hi Hj). specialize (H2 0%nat 0%nat Hi Hj).
  specialize (H3 0%nat 0%nat Hi Hj).
  rewrite E2, E3.
  change (lin_ind_2d (Z.to_nat (num_gc_x_cl terrain_2x2)) 0 0) with 0%nat
    in H1, H2, H3.
  rewrite H1, H2, H3, terrain_2x2_cell_sum.
  change (mask_cl terrain_2x2 !!! 0%nat =? 1)%Z with true.
  change (pixel_per_gc_cl terrain_2x2) with 2%Z.
  change ([FVal 0] !!! 0%nat) with (FVal 0).
  change (IZR (2 * 2 * 2)) with 8. change (IZR (2 * 2)) with 4.
  cbn [fadd fdiv].
  repeat split; f_equal; lra.
Qed.


(** ** Instances of the theorems, and inputs on which claims fail *)










Lemma engines_agree_witness :
  valid_input terrain_2x2
  /\ Z.even (pixel_per_gc_cl terrain_2x2) = true
  /\ fst (sw_dir_cor terrain_2x2 sun_high [FVal 0] 0) !!! 0%nat
     = fst (sw_dir_cor_coherent terrain_2x2 sun_high [FVal 7]) !!! 0%nat
  /\ fst (sw_dir_cor_coherent terrain_2x2 sun_high [FVal 7]) !!! 0%nat
     = fst (sw_dir_cor_coherent_rp8 terrain_2x2 sun_high [FVal 9]) !!! 0%nat.
Proof.
  destruct terrain_2x2_grid as (Hi & Hj & Hl).
  destruct (engines_agree terrain_2x2 sun_high [FVal 0] [FVal 7] [FVal 9] 0 0
              valid_terrain_2x2 eq_refl Hi Hj (Hl _) (Hl _) (Hl _)
              (fun _ => eq_refl))
    as (_ & _ & _ & _ & _ & _ & H7 & H8).
  split; [exact valid_terrain_2x2 |]. split; [reflexivity |].
  split; [exact H7 | exact H8].
Defined.

(** C5, the claim as stated fails: on [terrain_1x1] with the sun below the
    horizon and a buffer that holds 5, the single-ray engine ends at 5/2,
    the coherent-batch engine at 0 and the packet-8 engine, [pixel_per_gc]
    being odd, leaves the 5. *)
Lemma engines_agree_counterexample :
  fst (sw_dir_cor terrain_1x1 sun_low [FVal 5] 0) !!! 0%nat
  <> fst (sw_dir_cor_coherent terrain_1x1 sun_low [FVal 5]) !!! 0%nat
  /\ fst (sw_dir_cor_coherent_rp8 terrain_1x1 sun_low [FVal 5]) !!! 0%nat
     <> fst (sw_dir_cor_coherent terrain_1x1 sun_low [FVal 5]) !!! 0%nat.
Proof.
  destruct (terrain_1x1_low_sun (FVal 5)) as (H1 & H2 & H3).
  rewrite H1, H2, H3. split; intros E; injection E as E; lra.
Qed.

(** ** The sun straight above a triangle *)

Lemma dem_spacing_3_vertex (r c : nat) :
  (r <= 1)%nat -> (c <= 1)%nat ->
  vertex dem_spacing_3 ((r * 2 + c) * 3) = Vec (3 * INR c) (3 * INR r) 0.
Proof.
  intros Hr Hc.
  assert (Hr' : r = 0%nat \/ r = 1%nat) by lia.
  assert (Hc' : c = 0%nat \/ c = 1%nat) by lia.
  destruct Hr' as [-> | ->], Hc' as [-> | ->];
    unfold vertex, rd, dem_spacing_3; simpl; f_equal; lra.
Qed.

(** C7, the sun overhead in the engine. On [terrain_spacing_3], a valid
    input, the ray of the lower-left triangle starts at [(1, 1, 0.1)] and
    [sun_zenith] is straight above it: the sun vector is the horizontal
    normal [(0, 0, 1)] and the true elevation angle is 90 degree, for
    which [atmos_refrac] does not return 0. The axis [sun x norm_hori] of
    the rotation is the zero vector, which [vec_unit] turns into three
    NaNs on binary64. *)
Lemma sun_zenith_rotation_axis :
  valid_input terrain_spacing_3
  /\ mask_cl terrain_spacing_3 !!! 0%nat = 1%Z
  /\ ray_org (sw_dir_cor_scope terrain_spacing_3 sun_zenith 0 0 0)
     = Vec 1 1 0.1
  /\ sun (sw_dir_cor_scope terrain_spacing_3 sun_zenith 0 0 0) = Vec 0 0 1
  /\ norm_hori (sw_dir_cor_scope terrain_spacing_3 sun_zenith 0 0 0)
     = Vec 0 0 1
  /\ 90 - rad2deg (acos (dot_prod_hs
                           (sw_dir_cor_scope terrain_spacing_3 sun_zenith
                              0 0 0))) = 90
  /\ cross_prod (sun (sw_dir_cor_scope terrain_spacing_3 sun_zenith 0 0 0))
                (norm_hori (sw_dir_cor_scope terrain_spacing_3 sun_zenith
                              0 0 0))
     = Vec 0 0 0
  /\ Double.cross_prod Double.e_z Double.e_z = Double.vec_zero
  /\ Double.all_nan (Double.vec_unit (Double.cross_prod Double.e_z Double.e_z))
     = true.
Proof.
  assert (V : valid_input terrain_spacing_3).
  { constructor; unfold terrain_spacing_3, initialise; cbn;
      try reflexivity; try lia; try lra; split; reflexivity || lia. }
  assert (Hof : forall r c : nat,
             (0 + 0 <= r <= 0 + 0 + 1)%nat -> (0 + 0 <= c <= 0 + 0 + 1)%nat ->
             vertex (vert_grid_cl terrain_spacing_3)
               ((r * Z.to_nat (dem_dim_1_cl terrain_spacing_3) + c) * 3)
             = Vec (3 * INR c) (3 * INR r) 0)
    by (intros r c Hr Hc; apply dem_spacing_3_vertex; lia).
  assert (Hif : forall r c : nat,
             (0 <= r <= 0 + 1)%nat -> (0 <= c <= 0 + 1)%nat ->
             vertex (vert_grid_in_cl terrain_spacing_3)
               ((r * Z.to_nat (dem_dim_in_1_cl terrain_spacing_3) + c) * 3)
             = Vec (3 * INR c) (3 * INR r) 0)
    by (intros r c Hr Hc; apply dem_spacing_3_vertex; lia).
  assert (Hoo : 0 < (3 * INR (0 + 0 + 1) - 3 * INR (0 + 0))
                    * (3 * INR (0 + 0 + 1) - 3 * INR (0 + 0)))
    by (simpl; lra).
  assert (Hio : 0 < (3 * INR (0 + 1) - 3 * INR 0)
                    * (3 * INR (0 + 1) - 3 * INR 0)) by (simpl; lra).
  assert (Hn : (0 < 2)%nat) by lia.
  destruct (sw_dir_cor_scope_flat terrain_spacing_3 sun_zenith 0 0 0
              (fun c => 3 * INR c) (fun r => 3 * INR r)
              (fun c => 3 * INR c) (fun r => 3 * INR r)
              0 0 0%nat eq_refl Hof Hoo Hif Hio Hn)
    as (_ & _ & Hh & _ & _ & Hs).
  pose proof (ray_org_flat terrain_spacing_3 sun_zenith 0 0 0
                (fun c => 3 * INR c) (fun r => 3 * INR r)
                (fun c => 3 * INR c) (fun r => 3 * INR r)
                0 0 0%nat eq_refl Hof Hoo Hif Hio Hn) as Hr.
  destruct (sw_dir_cor_scope_facts terrain_spacing_3 sun_zenith 0 0 0)
    as (_ & Hd & _).
  set (f := sw_dir_cor_scope terrain_spacing_3 sun_zenith 0 0 0) in *.
  assert (Er : ray_org f = Vec 1 1 0.1).
  { rewrite Hr. change (ray_org_elev_cl terrain_spacing_3) with 0.1.
    simpl. f_equal; lra. }
  assert (Es : sun f = Vec 0 0 1).
  { rewrite Hs, Er. unfold vec_unit, vec_mag, vec_sub, sun_zenith.
    cbn [v_x v_y v_z].
    replace (1 - 1) with 0 by ring.
    replace (1000 - 0.1) with 999.9 by lra.
    replace (0 * 0 + 0 * 0 + 999.9 * 999.9) with (999.9 * 999.9) by ring.
    rewrite sqrt_square by lra.
    f_equal; field; lra. }
  split; [exact V |]. split; [reflexivity |]. split; [exact Er |].
  split; [exact Es |]. split; [exact Hh |].
  split.
  { rewrite Hd, Hh, Es. unfold dot. cbn [v_x v_y v_z].
    replace (0 * 0 + 0 * 0 + 1 * 1) with 1 by ring.
    rewrite acos_1. unfold rad2deg. unfold Rdiv. rewrite Rmult_0_l. lra. }
  split; [rewrite Es, Hh; unfold cross_prod; cbn [v_x v_y v_z];
          f_equal; ring |].
  split; vm_compute; reflexivity.
Qed.

(** * Further properties of the auxiliary functions *)

(** ** Unit conversion and linear indices *)

(** X1. [deg2rad] and [rad2deg] are inverse to each other, and 180 degree
    are [PI] radian. *)
Theorem deg2rad_rad2deg_inverse (ang : R) :
  rad2deg (deg2rad ang) = ang
  /\ deg2rad (rad2deg ang) = ang
  /\ deg2rad 180 = PI.
Proof.
  pose proof PI_neq0 as Hpi.
  unfold rad2deg, deg2rad. repeat split; field; exact Hpi.
Qed.

(** X2. For a two-dimensional array with [dim_0] rows and [dim_1] columns,
    [lin_ind_2d] maps the subscripts within the array to linear indices
    below [dim_0 * dim_1], two pairs of subscripts with the same linear
    index are equal, and every linear index below [dim_0 * dim_1] is that
    of its quotient and remainder by [dim_1]. *)
Theorem lin_ind_2d_bijective (dim_0 dim_1 ind_0 ind_1 : nat) :
  (ind_0 < dim_0)%nat -> (ind_1 < dim_1)%nat ->
  (lin_ind_2d dim_1 ind_0 ind_1 < dim_0 * dim_1)%nat
  /\ (forall ind_0' ind_1' : nat,
        (ind_1' < dim_1)%nat ->
        lin_ind_2d dim_1 ind_0' ind_1' = lin_ind_2d dim_1 ind_0 ind_1 ->
        ind_0' = ind_0 /\ ind_1' = ind_1)
  /\ (forall c : nat,
        (c < dim_0 * dim_1)%nat ->
        (Nat.div c dim_1 < dim_0)%nat
        /\ (Nat.modulo c dim_1 < dim_1)%nat
        /\ lin_ind_2d dim_1 (Nat.div c dim_1) (Nat.modulo c dim_1) = c).
Proof.
  intros H0 H1. split; [apply lin_ind_2d_lt; assumption |]. split.
  - intros i' j' Hj' E.
    destruct (lin_ind_2d_div dim_1 ind_0 ind_1 H1) as [Hd Hm].
    destruct (lin_ind_2d_div dim_1 i' j' Hj') as [Hd' Hm'].
    rewrite E in Hd', Hm'. split; congruence.
  - intros c Hc. assert (Hpos : (0 < dim_1)%nat) by lia.
    split; [apply Nat.Div0.div_lt_upper_bound; lia |].
    split; [apply Nat.mod_upper_bound; lia |].
    apply lin_ind_2d_div_mod, Hpos.
Qed.

Lemma lin_ind_2d_bijective_witness :
  (lin_ind_2d 4 2 3 < 3 * 4)%nat
  /\ lin_ind_2d 4 (Nat.div 11 4) (Nat.modulo 11 4) = 11%nat.
Proof.
  destruct (lin_ind_2d_bijective 3 4 2 3) as (H1 & _ & H3); [lia | lia |].
  split; [exact H1 | exact (proj2 (proj2 (H3 11%nat ltac:(lia))))].
Defined.

(** ** Vector operations *)


(** X3. The cross product is perpendicular to both of its arguments, it
    changes its sign when the arguments are swapped, it is the zero vector
    for equal arguments, and its squared magnitude is
    [|a|^2 |b|^2 - (a . b)^2]. *)
Theorem cross_prod_perpendicular (a b : vec) :
  dot (cross_prod a b) a = 0
  /\ dot (cross_prod a b) b = 0
  /\ cross_prod b a = vec_scale (-1) (cross_prod a b)
  /\ cross_prod a a = Vec 0 0 0
  /\ dot (cross_prod a b) (cross_prod a b)
     = dot a a * dot b b - dot a b * dot a b.
Proof.
  destruct a as [ax ay az], b as [bx by' bz].
  unfold dot, cross_prod, vec_scale. cbn [v_x v_y v_z].
  repeat split; try ring; f_equal; ring.
Qed.

Lemma vec_mag_sqr (v : vec) : vec_mag v * vec_mag v = dot v v.
Proof.
  unfold vec_mag, dot. apply sqrt_sqrt. nra.
Qed.

Lemma vec_mag_eq (u v : vec) : dot u u = dot v v -> vec_mag u = vec_mag v.
Proof. unfold vec_mag, dot. intros ->. reflexivity. Qed.

Lemma vec_rot_dot (k v : vec) (theta : R) :
  dot k k = 1 ->
  dot (vec_rot k theta v) (vec_rot k theta v) = dot v v
  /\ dot k (vec_rot k theta v) = dot k v.
Proof.
  intros Hk. pose proof (sin2_cos2 theta) as Hsc. unfold Rsqr in Hsc.
  destruct k as [kx ky kz], v as [vx vy vz].
  unfold dot, vec_rot in *. cbn [v_x v_y v_z] in *.
  set (c := cos theta) in *. set (s := sin theta) in *.
  split; nsatz.
Qed.

Lemma vec_rot_dot_perp (k v : vec) (theta : R) :
  dot k v = 0 -> dot v (vec_rot k theta v) = dot v v * cos theta.
Proof.
  intros Hp. destruct k as [kx ky kz], v as [vx vy vz].
  unfold dot, vec_rot in *. cbn [v_x v_y v_z] in *.
  set (c := cos theta) in *. set (s := sin theta) in *. nsatz.
Qed.

(** X4. The rotation [vec_rot] about a unit vector [k] keeps the magnitude
    of the rotated vector and its component along [k]; a vector
    perpendicular to [k] makes the angle [theta] with its image. *)
Theorem vec_rot_isometry (k v : vec) (theta : R) :
  vec_mag k = 1 ->
  vec_mag (vec_rot k theta v) = vec_mag v
  /\ dot k (vec_rot k theta v) = dot k v
  /\ (dot k v = 0 -> dot v (vec_rot k theta v) = dot v v * cos theta).
Proof.
  intros Hk.
  assert (Hkk : dot k k = 1) by (rewrite <- vec_mag_sqr, Hk; ring).
  destruct (vec_rot_dot k v theta Hkk) as [H1 H2].
  split; [apply vec_mag_eq, H1 |]. split; [exact H2 |].
  apply vec_rot_dot_perp.
Qed.

Lemma vec_mag_e_z : vec_mag (Vec 0 0 1) = 1.
Proof.
  unfold vec_mag. cbn [v_x v_y v_z].
  replace (0 * 0 + 0 * 0 + 1 * 1) with 1 by ring. apply sqrt_1.
Qed.

Lemma vec_rot_isometry_witness :
  vec_mag (Vec 0 0 1) = 1
  /\ vec_mag (vec_rot (Vec 0 0 1) 1 (Vec 3 4 5)) = vec_mag (Vec 3 4 5).
Proof.
  split; [exact vec_mag_e_z |].
  exact (proj1 (vec_rot_isometry (Vec 0 0 1) (Vec 3 4 5) 1 vec_mag_e_z)).
Defined.

(** X5. Rotations about the same unit vector compose by adding their
    angles; the rotation by the angle 0 changes nothing, about any vector;
    so the rotation by [- theta] undoes the rotation by [theta]. *)
Theorem vec_rot_compose (k v : vec) (theta_1 theta_2 : R) :
  vec_mag k = 1 ->
  vec_rot k theta_2 (vec_rot k theta_1 v) = vec_rot k (theta_1 + theta_2) v
  /\ vec_rot k 0 v = v
  /\ vec_rot k (- theta_1) (vec_rot k theta_1 v) = v.
Proof.
  intros Hk.
  assert (Hkk : dot k k = 1) by (rewrite <- vec_mag_sqr, Hk; ring).
  assert (Hc : forall t1 t2,
             vec_rot k t2 (vec_rot k t1 v) = vec_rot k (t1 + t2) v).
  { intros t1 t2.
    pose proof (sin2_cos2 t1) as H1. pose proof (sin2_cos2 t2) as H2.
    unfold Rsqr in H1, H2.
    destruct k as [kx ky kz], v as [vx vy vz].
    unfold dot, vec_rot in *. cbn [v_x v_y v_z] in *.
    rewrite cos_plus, sin_plus.
    set (c1 := cos t1) in *. set (s1 := sin t1) in *.
    set (c2 := cos t2) in *. set (s2 := sin t2) in *.
    f_equal; nsatz. }
  assert (H0 : vec_rot k 0 v = v).
  { destruct k as [kx ky kz], v as [vx vy vz].
    unfold vec_rot. cbn [v_x v_y v_z]. rewrite cos_0, sin_0.
    f_equal; ring. }
  split; [apply Hc |]. split; [exact H0 |].
  rewrite Hc. replace (theta_1 + - theta_1) with 0 by ring. exact H0.
Qed.

Lemma vec_rot_compose_witness :
  vec_mag (Vec 0 0 1) = 1
  /\ vec_rot (Vec 0 0 1) 2 (vec_rot (Vec 0 0 1) 1 (Vec 3 4 5))
     = vec_rot (Vec 0 0 1) (1 + 2) (Vec 3 4 5).
Proof.
  split; [exact vec_mag_e_z |].
  exact (proj1 (vec_rot_compose (Vec 0 0 1) (Vec 3 4 5) 1 2 vec_mag_e_z)).
Defined.

(** ** Triangle operations *)

Lemma triangle_cross_perpendicular (vert_0 vert_1 vert_2 : vec) :
  dot (triangle_cross vert_0 vert_1 vert_2) (vec_sub vert_2 vert_1) = 0
  /\ dot (triangle_cross vert_0 vert_1 vert_2) (vec_sub vert_0 vert_1) = 0
  /\ dot (triangle_cross vert_0 vert_1 vert_2) (vec_sub vert_0 vert_2) = 0.
Proof.
  destruct vert_0 as [x0 y0 z0], vert_1 as [x1 y1 z1], vert_2 as [x2 y2 z2].
  unfold dot, triangle_cross, vec_sub. cbn [v_x v_y v_z].
  repeat split; ring.
Qed.

Lemma dot_vec_unit_l (u v : vec) :
  dot (vec_unit u) v = dot u v / vec_mag u.
Proof.
  unfold dot, vec_unit. cbn [v_x v_y v_z]. unfold Rdiv. ring.
Qed.

(** X6. For three vertices that are not collinear, the normal that
    [triangle_normal_area] returns has magnitude 1 and is perpendicular to
    the three edges of the triangle, and the area is positive with
    [(2 area)^2 = |a|^2 |b|^2 - (a . b)^2] for the edge vectors
    [a = vert_2 - vert_1] and [b = vert_0 - vert_1]. *)
Theorem triangle_normal_area_unit_normal (vert_0 vert_1 vert_2 : vec) :
  triangle_cross vert_0 vert_1 vert_2 <> Vec 0 0 0 ->
  let norm := fst (triangle_normal_area vert_0 vert_1 vert_2) in
  let area := snd (triangle_normal_area vert_0 vert_1 vert_2) in
  let a := vec_sub vert_2 vert_1 in
  let b := vec_sub vert_0 vert_1 in
  vec_mag norm = 1
  /\ dot norm (vec_sub vert_2 vert_1) = 0
  /\ dot norm (vec_sub vert_0 vert_1) = 0
  /\ dot norm (vec_sub vert_0 vert_2) = 0
  /\ 0 < area
  /\ (2 * area) * (2 * area) = dot a a * dot b b - dot a b * dot a b.
Proof.
  intros Hc norm area a b. subst norm area.
  rewrite triangle_normal_area_cross. cbn [fst snd].
  destruct (triangle_cross_perpendicular vert_0 vert_1 vert_2)
    as (H1 & H2 & H3).
  pose proof (vec_mag_pos _ Hc) as Hm.
  split; [apply vec_mag_unit, Hc |].
  rewrite !dot_vec_unit_l, H1, H2, H3.
  repeat split; try (unfold Rdiv; ring); [lra |].
  replace (2 * (vec_mag (triangle_cross vert_0 vert_1 vert_2) / 2))
    with (vec_mag (triangle_cross vert_0 vert_1 vert_2)) by field.
  rewrite vec_mag_sqr. subst a b.
  destruct vert_0 as [x0 y0 z0], vert_1 as [x1 y1 z1], vert_2 as [x2 y2 z2].
  unfold dot, triangle_cross, vec_sub. cbn [v_x v_y v_z]. ring.
Qed.

Lemma triangle_cross_unit_triangle :
  triangle_cross (Vec 0 0 0) (Vec 1 0 0) (Vec 0 1 0) = Vec 0 0 1.
Proof.
  unfold triangle_cross, vec_sub. cbn [v_x v_y v_z]. f_equal; ring.
Qed.

Lemma unit_triangle_not_collinear :
  triangle_cross (Vec 0 0 0) (Vec 1 0 0) (Vec 0 1 0) <> Vec 0 0 0.
Proof.
  rewrite triangle_cross_unit_triangle. intros E.
  apply (f_equal v_z) in E. cbn [v_z] in E. lra.
Qed.

Lemma triangle_normal_area_unit_normal_witness :
  triangle_cross (Vec 0 0 0) (Vec 1 0 0) (Vec 0 1 0) <> Vec 0 0 0
  /\ vec_mag (fst (triangle_normal_area (Vec 0 0 0) (Vec 1 0 0) (Vec 0 1 0)))
     = 1.
Proof.
  split; [exact unit_triangle_not_collinear |].
  exact (proj1 (triangle_normal_area_unit_normal
                  (Vec 0 0 0) (Vec 1 0 0) (Vec 0 1 0)
                  unit_triangle_not_collinear)).
Defined.

(** X7. [triangle_normal_area] depends on the order of the vertices only
    through their orientation: a cyclic shift of three vertices that are
    not collinear gives the same normal and area, and exchanging the first
    and the third vertex gives the opposite normal and the same area. *)
Theorem triangle_normal_area_orientation (vert_0 vert_1 vert_2 : vec) :
  triangle_cross vert_0 vert_1 vert_2 <> Vec 0 0 0 ->
  triangle_normal_area vert_1 vert_2 vert_0
  = triangle_normal_area vert_0 vert_1 vert_2
  /\ triangle_normal_area vert_2 vert_0 vert_1
     = triangle_normal_area vert_0 vert_1 vert_2
  /\ triangle_normal_area vert_2 vert_1 vert_0
     = (vec_scale (-1) (fst (triangle_normal_area vert_0 vert_1 vert_2)),
        snd (triangle_normal_area vert_0 vert_1 vert_2)).
Proof.
  intros _.
  assert (E1 : triangle_cross vert_1 vert_2 vert_0
               = triangle_cross vert_0 vert_1 vert_2).
  { destruct vert_0 as [x0 y0 z0], vert_1 as [x1 y1 z1], vert_2 as [x2 y2 z2].
    unfold triangle_cross, vec_sub. cbn [v_x v_y v_z]. f_equal; ring. }
  assert (E2 : triangle_cross vert_2 vert_0 vert_1
               = triangle_cross vert_0 vert_1 vert_2).
  { destruct vert_0 as [x0 y0 z0], vert_1 as [x1 y1 z1], vert_2 as [x2 y2 z2].
    unfold triangle_cross, vec_sub. cbn [v_x v_y v_z]. f_equal; ring. }
  assert (E3 : triangle_cross vert_2 vert_1 vert_0
               = vec_scale (-1) (triangle_cross vert_0 vert_1 vert_2)).
  { destruct vert_0 as [x0 y0 z0], vert_1 as [x1 y1 z1], vert_2 as [x2 y2 z2].
    unfold triangle_cross, vec_sub, vec_scale. cbn [v_x v_y v_z].
    f_equal; ring. }
  rewrite !triangle_normal_area_cross, E1, E2, E3. cbn [fst snd].
  split; [reflexivity |]. split; [reflexivity |].
  assert (Em : vec_mag (vec_scale (-1) (triangle_cross vert_0 vert_1 vert_2))
               = vec_mag (triangle_cross vert_0 vert_1 vert_2)).
  { apply vec_mag_eq. unfold dot, vec_scale. cbn [v_x v_y v_z]. ring. }
  f_equal; [| rewrite Em; reflexivity].
  unfold vec_unit. rewrite Em. unfold vec_scale. cbn [v_x v_y v_z].
  f_equal; unfold Rdiv; ring.
Qed.

Lemma triangle_normal_area_orientation_witness :
  triangle_cross (Vec 0 0 0) (Vec 1 0 0) (Vec 0 1 0) <> Vec 0 0 0
  /\ triangle_normal_area (Vec 1 0 0) (Vec 0 1 0) (Vec 0 0 0)
     = triangle_normal_area (Vec 0 0 0) (Vec 1 0 0) (Vec 0 1 0).
Proof.
  split; [exact unit_triangle_not_collinear |].
  exact (proj1 (triangle_normal_area_orientation
                  (Vec 0 0 0) (Vec 1 0 0) (Vec 0 1 0)
                  unit_triangle_not_collinear)).
Defined.

(** X8. The centroid that [triangle_centroid] returns does not depend on
    the order of the vertices, the three vectors from the vertices to it
    add up to zero, and it lies in the plane of the triangle. *)
Theorem triangle_centroid_in_plane (vert_0 vert_1 vert_2 : vec) :
  let cent := triangle_centroid vert_0 vert_1 vert_2 in
  triangle_centroid vert_1 vert_0 vert_2 = cent
  /\ triangle_centroid vert_0 vert_2 vert_1 = cent
  /\ (forall c : vec -> R, In c [v_x; v_y; v_z] ->
        c (vec_sub cent vert_0) + c (vec_sub cent vert_1)
        + c (vec_sub cent vert_2) = 0)
  /\ dot (triangle_cross vert_0 vert_1 vert_2) (vec_sub cent vert_1) = 0.
Proof.
  intros cent. subst cent.
  destruct vert_0 as [x0 y0 z0], vert_1 as [x1 y1 z1], vert_2 as [x2 y2 z2].
  unfold triangle_centroid, triangle_cross, vec_sub, dot.
  cbn [v_x v_y v_z].
  split; [f_equal; field |]. split; [f_equal; field |].
  split; [| field].
  intros c [<- | [<- | [<- | []]]]; cbn [v_x v_y v_z]; field.
Qed.

(** X9. For a pixel [(ind_0, ind_1)] inside a grid of [dim_0 x dim_1]
    vertices, the three offsets that [triangle_vert_ll] and
    [triangle_vert_ur] return are multiples of 3 that leave room for the
    three coordinates of a vertex in a buffer of [dim_0 * dim_1 * 3]
    numbers, the offsets of a triangle differ from each other, and the two
    triangles of the pixel share the vertices [(ind_0, ind_1 + 1)] and
    [(ind_0 + 1, ind_1)]. *)
Theorem triangle_vert_in_bounds (dim_0 dim_1 ind_0 ind_1 n : nat) :
  (ind_0 + 1 < dim_0)%nat -> (ind_1 + 1 < dim_1)%nat ->
  let '(ind_tri_0, ind_tri_1, ind_tri_2) := func_ptr n dim_1 ind_0 ind_1 in
  (ind_tri_0 + 2 < dim_0 * dim_1 * 3)%nat
  /\ (ind_tri_1 + 2 < dim_0 * dim_1 * 3)%nat
  /\ (ind_tri_2 + 2 < dim_0 * dim_1 * 3)%nat
  /\ ind_tri_0 <> ind_tri_1 /\ ind_tri_1 <> ind_tri_2
  /\ ind_tri_0 <> ind_tri_2
  /\ snd (fst (triangle_vert_ll dim_1 ind_0 ind_1))
     = fst (fst (triangle_vert_ur dim_1 ind_0 ind_1))
  /\ snd (triangle_vert_ll dim_1 ind_0 ind_1)
     = snd (triangle_vert_ur dim_1 ind_0 ind_1)
  /\ snd (fst (triangle_vert_ll dim_1 ind_0 ind_1))
     = (lin_ind_2d dim_1 ind_0 (ind_1 + 1) * 3)%nat
  /\ snd (triangle_vert_ll dim_1 ind_0 ind_1)
     = (lin_ind_2d dim_1 (ind_0 + 1) ind_1 * 3)%nat.
Proof.
  intros H0 H1.
  destruct n as [| n]; cbn [func_ptr];
    unfold triangle_vert_ll, triangle_vert_ur, lin_ind_2d; cbn [fst snd];
    repeat split; nia.
Qed.

Lemma triangle_vert_in_bounds_witness :
  (0 + 1 < 2)%nat /\ (0 + 1 < 2)%nat
  /\ func_ptr 1 2 0 0 = (3, 9, 6)%nat
  /\ (9 + 2 < 2 * 2 * 3)%nat.
Proof.
  pose proof (triangle_vert_in_bounds 2 2 0 0 1 ltac:(lia) ltac:(lia)) as H.
  split; [lia |]. split; [lia |]. split; [reflexivity |].
  exact (proj1 (proj2 H)).
Defined.

(** * The geometry of the scene *)

Lemma length_flat_map_chunks {A : Type} (w : nat) (F : nat -> list A)
  (N : nat) :
  (forall c, length (F c) = w) ->
  length (flat_map F (seq 0 N)) = (N * w)%nat.
Proof.
  intros HF. induction N as [| N IH]; [reflexivity |].
  rewrite seq_S, flat_map_app, length_app, IH. cbn.
  rewrite length_app, HF. cbn. lia.
Qed.

(** A loop that writes [w] elements per step at a running position. *)
Lemma write_loop {A : Type} (w : nat) (F : nat -> list A) (N : nat)
  (buf : list A) :
  (forall c, length (F c) = w) ->
  (N * w <= length buf)%nat ->
  forall step : nat -> list A * nat -> list A * nat,
  (forall c b n, (n + w <= length b)%nat ->
     step c (b, n) = (take n b ++ F c ++ drop (n + w) b, (n + w)%nat)) ->
  fold_left (fun s c => step c s) (seq 0 N) (buf, 0%nat)
  = (flat_map F (seq 0 N) ++ drop (N * w) buf, (N * w)%nat).
Proof.
  intros HF Hlen step Hstep. induction N as [| N IH].
  - cbn. rewrite drop_0. reflexivity.
  - rewrite seq_S, fold_left_app, IH by lia. cbn [fold_left Nat.add].
    pose proof (length_flat_map_chunks w F N HF) as HL.
    rewrite Hstep by (rewrite length_app, HL, length_drop; lia).
    rewrite flat_map_app. cbn [flat_map]. rewrite app_nil_r.
    rewrite take_app_length' by (symmetry; exact HL).
    rewrite drop_app_ge by lia. rewrite HL, drop_drop.
    replace (N * w + (N * w + w - N * w))%nat with (S N * w)%nat by lia.
    rewrite <- !app_assoc. f_equal. f_equal. lia.
Qed.

Lemma lookup_flat_map_chunks {A : Type} (w : nat) (F : nat -> list A)
  (N c q : nat) :
  (forall c, length (F c) = w) ->
  (c < N)%nat -> (q < w)%nat ->
  flat_map F (seq 0 N) !! (c * w + q)%nat = F c !! q.
Proof.
  intros HF Hc Hq. induction N as [| N IH]; [lia |].
  pose proof (length_flat_map_chunks w F N HF) as HL.
  rewrite seq_S, flat_map_app. cbn [flat_map Nat.add]. rewrite app_nil_r.
  destruct (decide (c = N)) as [-> | Hne].
  - rewrite lookup_app_r by lia. f_equal. lia.
  - rewrite lookup_app_l by nia. apply IH. lia.
Qed.

Lemma insert_take_drop' {A : Type} (l : list A) (n : nat) (x : A) :
  (n < length l)%nat -> <[n := x]> l = take n l ++ x :: drop (S n) l.
Proof. intros H. apply insert_take_drop, H. Qed.

(** The two triangles written for the pixel [(i, j)]. *)
Lemma initializeScene_triangle_pixel_eq (dem_dim_1 : Z) (i j : nat)
  (b : list Triangle.t) (n : nat) :
  (n + 2 <= length b)%nat ->
  initializeScene_triangle_pixel dem_dim_1 i j (b, n)
  = (take n b
     ++ [Triangle.make (Z.of_nat i * dem_dim_1 + Z.of_nat j)
                       (Z.of_nat i * dem_dim_1 + Z.of_nat j + 1)
                       ((Z.of_nat i + 1) * dem_dim_1 + Z.of_nat j);
         Triangle.make (Z.of_nat i * dem_dim_1 + Z.of_nat j + 1)
                       ((Z.of_nat i + 1) * dem_dim_1 + Z.of_nat j + 1)
                       ((Z.of_nat i + 1) * dem_dim_1 + Z.of_nat j)]
     ++ drop (n + 2) b, (n + 2)%nat).
Proof.
  intros Hn. unfold initializeScene_triangle_pixel.
  f_equal; [| lia].
  rewrite (insert_take_drop' b n) by lia.
  rewrite insert_app_r_alt by (rewrite length_take; lia).
  rewrite length_take, Nat.min_l by lia.
  replace (n + 1 - n)%nat with 1%nat by lia. cbn [list_insert insert].
  destruct (drop (S n) b) as [| y rest] eqn:E.
  { apply (f_equal length) in E. rewrite length_drop in E. cbn in E. lia. }
  cbn. f_equal. f_equal. f_equal.
  assert (E' : drop 1 (drop (S n) b) = rest) by (rewrite E; reflexivity).
  rewrite drop_drop in E'. rewrite <- E'. f_equal. lia.
Qed.

Lemma initializeScene_quad_pixel_eq (dem_dim_1 : Z) (i j : nat)
  (b : list Quad.t) (n : nat) :
  (n + 1 <= length b)%nat ->
  initializeScene_quad_pixel dem_dim_1 i j (b, n)
  = (take n b
     ++ [Quad.make (Z.of_nat i * dem_dim_1 + Z.of_nat j)
                   (Z.of_nat i * dem_dim_1 + Z.of_nat j + 1)
                   ((Z.of_nat i + 1) * dem_dim_1 + Z.of_nat j + 1)
                   ((Z.of_nat i + 1) * dem_dim_1 + Z.of_nat j)]
     ++ drop (n + 1) b, (n + 1)%nat).
Proof.
  intros Hn. unfold initializeScene_quad_pixel.
  f_equal. rewrite (insert_take_drop' b n) by lia.
  cbn. do 3 f_equal. lia.
Qed.

(** The index buffers after the loops over the pixels: pixel [(i, j)] of a
    DEM with [P1] pixels per row is element [i * P1 + j] of the grid of
    pixels. *)
Lemma initializeScene_triangles_loop (dem_dim_1 : Z) (P0 P1 : nat) :
  for_range 0 P0 (fun i =>
    for_range 0 P1 (fun j => initializeScene_triangle_pixel dem_dim_1 i j))
    (replicate (P0 * P1 * 2) inhabitant, 0%nat)
  = (flat_map
       (fun c =>
          [Triangle.make
             (Z.of_nat (Nat.div c P1) * dem_dim_1 + Z.of_nat (Nat.modulo c P1))
             (Z.of_nat (Nat.div c P1) * dem_dim_1 + Z.of_nat (Nat.modulo c P1)
              + 1)
             ((Z.of_nat (Nat.div c P1) + 1) * dem_dim_1
              + Z.of_nat (Nat.modulo c P1));
           Triangle.make
             (Z.of_nat (Nat.div c P1) * dem_dim_1 + Z.of_nat (Nat.modulo c P1)
              + 1)
             ((Z.of_nat (Nat.div c P1) + 1) * dem_dim_1
              + Z.of_nat (Nat.modulo c P1) + 1)
             ((Z.of_nat (Nat.div c P1) + 1) * dem_dim_1
              + Z.of_nat (Nat.modulo c P1))])
       (seq 0 (P0 * P1)),
     (P0 * P1 * 2)%nat).
Proof.
  rewrite grid_loop. etransitivity.
  { eapply (write_loop 2) with
      (step := fun c => initializeScene_triangle_pixel dem_dim_1
                          (Nat.div c P1) (Nat.modulo c P1)); cycle 2.
    - intros c b n Hn. apply initializeScene_triangle_pixel_eq, Hn.
    - intros c. reflexivity.
    - rewrite length_replicate. lia. }
  rewrite drop_ge by (rewrite length_replicate; lia).
  rewrite app_nil_r. reflexivity.
Qed.

Lemma initializeScene_quads_loop (dem_dim_1 : Z) (P0 P1 : nat) :
  for_range 0 P0 (fun i =>
    for_range 0 P1 (fun j => initializeScene_quad_pixel dem_dim_1 i j))
    (replicate (P0 * P1) inhabitant, 0%nat)
  = (flat_map
       (fun c =>
          [Quad.make
             (Z.of_nat (Nat.div c P1) * dem_dim_1 + Z.of_nat (Nat.modulo c P1))
             (Z.of_nat (Nat.div c P1) * dem_dim_1 + Z.of_nat (Nat.modulo c P1)
              + 1)
             ((Z.of_nat (Nat.div c P1) + 1) * dem_dim_1
              + Z.of_nat (Nat.modulo c P1) + 1)
             ((Z.of_nat (Nat.div c P1) + 1) * dem_dim_1
              + Z.of_nat (Nat.modulo c P1))])
       (seq 0 (P0 * P1)),
     (P0 * P1)%nat).
Proof.
  rewrite grid_loop. etransitivity.
  { eapply (write_loop 1) with
      (step := fun c => initializeScene_quad_pixel dem_dim_1
                          (Nat.div c P1) (Nat.modulo c P1)); cycle 2.
    - intros c b n Hn. apply initializeScene_quad_pixel_eq, Hn.
    - intros c. reflexivity.
    - rewrite length_replicate. lia. }
  rewrite drop_ge by (rewrite length_replicate; lia).
  rewrite app_nil_r. f_equal. lia.
Qed.

Lemma num_tri_to_nat (dem_dim_0 dem_dim_1 : Z) :
  (1 <= dem_dim_0)%Z -> (1 <= dem_dim_1)%Z ->
  Z.to_nat ((dem_dim_0 - 1) * (dem_dim_1 - 1) * 2)
  = (Z.to_nat (dem_dim_0 - 1) * Z.to_nat (dem_dim_1 - 1) * 2)%nat
  /\ Z.to_nat ((dem_dim_0 - 1) * (dem_dim_1 - 1))
     = (Z.to_nat (dem_dim_0 - 1) * Z.to_nat (dem_dim_1 - 1))%nat.
Proof. intros H0 H1. split; nia. Qed.

(** The index buffer of the triangle geometry and that of the quad
    geometry. *)
Lemma initializeScene_triangle (vert_grid : list R) (dem_dim_0 dem_dim_1 : Z) :
  (1 <= dem_dim_0)%Z -> (1 <= dem_dim_1)%Z ->
  let P1 := Z.to_nat (dem_dim_1 - 1) in
  fst (initializeScene vert_grid dem_dim_0 dem_dim_1 "triangle")
  = Geometry RTC_GEOMETRY_TYPE_TRIANGLE vert_grid (dem_dim_0 * dem_dim_1)
      (Index_triangles
         (flat_map
            (fun c =>
               [Triangle.make
                  (Z.of_nat (Nat.div c P1) * dem_dim_1
                   + Z.of_nat (Nat.modulo c P1))
                  (Z.of_nat (Nat.div c P1) * dem_dim_1
                   + Z.of_nat (Nat.modulo c P1) + 1)
                  ((Z.of_nat (Nat.div c P1) + 1) * dem_dim_1
                   + Z.of_nat (Nat.modulo c P1));
                Triangle.make
                  (Z.of_nat (Nat.div c P1) * dem_dim_1
                   + Z.of_nat (Nat.modulo c P1) + 1)
                  ((Z.of_nat (Nat.div c P1) + 1) * dem_dim_1
                   + Z.of_nat (Nat.modulo c P1) + 1)
                  ((Z.of_nat (Nat.div c P1) + 1) * dem_dim_1
                   + Z.of_nat (Nat.modulo c P1))])
            (seq 0 (Z.to_nat (dem_dim_0 - 1) * P1)))).
Proof.
  intros H0 H1 P1. unfold initializeScene.
  change (String.eqb "triangle" "triangle") with true. cbv iota.
  rewrite (proj1 (num_tri_to_nat dem_dim_0 dem_dim_1 H0 H1)).
  rewrite initializeScene_triangles_loop. reflexivity.
Qed.

Lemma initializeScene_quad (vert_grid : list R) (dem_dim_0 dem_dim_1 : Z) :
  (1 <= dem_dim_0)%Z -> (1 <= dem_dim_1)%Z ->
  let P1 := Z.to_nat (dem_dim_1 - 1) in
  fst (initializeScene vert_grid dem_dim_0 dem_dim_1 "quad")
  = Geometry RTC_GEOMETRY_TYPE_QUAD vert_grid (dem_dim_0 * dem_dim_1)
      (Index_quads
         (flat_map
            (fun c =>
               [Quad.make
                  (Z.of_nat (Nat.div c P1) * dem_dim_1
                   + Z.of_nat (Nat.modulo c P1))
                  (Z.of_nat (Nat.div c P1) * dem_dim_1
                   + Z.of_nat (Nat.modulo c P1) + 1)
                  ((Z.of_nat (Nat.div c P1) + 1) * dem_dim_1
                   + Z.of_nat (Nat.modulo c P1) + 1)
                  ((Z.of_nat (Nat.div c P1) + 1) * dem_dim_1
                   + Z.of_nat (Nat.modulo c P1))])
            (seq 0 (Z.to_nat (dem_dim_0 - 1) * P1)))).
Proof.
  intros H0 H1 P1. unfold initializeScene.
  change (String.eqb "quad" "triangle") with false.
  change (String.eqb "quad" "quad") with true. cbv iota.
  rewrite (proj2 (num_tri_to_nat dem_dim_0 dem_dim_1 H0 H1)).
  rewrite initializeScene_quads_loop. reflexivity.
Qed.

(** X10. For the geometry type triangle and a DEM of at least 1 x 1
    vertices, [initializeScene] fills the whole index buffer of
    [(dem_dim_0 - 1) * (dem_dim_1 - 1) * 2] triangles, and the triangle
    with the number [(i * (dem_dim_1 - 1) + j) * 2 + n] has the vertices
    that [triangle_vert_ll] ([n = 0]) and [triangle_vert_ur] ([n = 1]) give
    the correction engines for the pixel [(i, j)] of that DEM: the
    triangles that occlude are the triangles that are lit. *)
Theorem initializeScene_triangles_match (vert_grid : list R)
  (dem_dim_0 dem_dim_1 : Z) :
  (1 <= dem_dim_0)%Z -> (1 <= dem_dim_1)%Z ->
  exists triangles : list Triangle.t,
    fst (initializeScene vert_grid dem_dim_0 dem_dim_1 "triangle")
    = Geometry RTC_GEOMETRY_TYPE_TRIANGLE vert_grid (dem_dim_0 * dem_dim_1)
               (Index_triangles triangles)
    /\ length triangles
       = Z.to_nat ((dem_dim_0 - 1) * (dem_dim_1 - 1) * 2)
    /\ forall i j n : nat,
         (i + 1 < Z.to_nat dem_dim_0)%nat ->
         (j + 1 < Z.to_nat dem_dim_1)%nat -> (n < 2)%nat ->
         exists t : Triangle.t,
           triangles !! (lin_ind_2d (Z.to_nat dem_dim_1 - 1) i j * 2 + n)%nat
           = Some t
           /\ (0 <= Triangle.v0 t)%Z /\ (0 <= Triangle.v1 t)%Z
           /\ (0 <= Triangle.v2 t)%Z
           /\ func_ptr n (Z.to_nat dem_dim_1) i j
              = (Z.to_nat (Triangle.v0 t) * 3, Z.to_nat (Triangle.v1 t) * 3,
                 Z.to_nat (Triangle.v2 t) * 3)%nat.
Proof.
  intros H0 H1. eexists. split; [apply initializeScene_triangle; assumption |].
  set (P1 := Z.to_nat (dem_dim_1 - 1)).
  split.
  { rewrite (length_flat_map_chunks 2) by (intros c; reflexivity).
    rewrite (proj1 (num_tri_to_nat dem_dim_0 dem_dim_1 H0 H1)). reflexivity. }
  intros i j n Hi Hj Hn.
  replace (Z.to_nat dem_dim_1 - 1)%nat with P1 by (unfold P1; lia).
  assert (HjP : (j < P1)%nat) by (unfold P1; lia).
  assert (Hc : (lin_ind_2d P1 i j < Z.to_nat (dem_dim_0 - 1) * P1)%nat)
    by (apply lin_ind_2d_lt; [lia | exact HjP]).
  rewrite (lookup_flat_map_chunks 2) by (reflexivity || assumption).
  destruct (lin_ind_2d_div P1 i j HjP) as [-> ->].
  destruct n as [| [| n]]; [| | lia]; cbn [lookup list_lookup];
    eexists; (split; [reflexivity |]);
    cbn [Triangle.v0 Triangle.v1 Triangle.v2];
    (split; [nia |]); (split; [nia |]); (split; [nia |]);
    cbn [func_ptr]; unfold triangle_vert_ll, triangle_vert_ur;
    repeat f_equal; nia.
Qed.

Lemma initializeScene_triangles_match_witness :
  (1 <= 3)%Z /\ (1 <= 4)%Z
  /\ exists triangles : list Triangle.t,
       index (fst (initializeScene [] 3 4 "triangle"))
       = Index_triangles triangles
       /\ length triangles = 12%nat.
Proof.
  destruct (initializeScene_triangles_match [] 3 4)
    as (ts & E & Hl & _); [lia | lia |].
  split; [lia |]. split; [lia |]. exists ts. rewrite E. split; [reflexivity |].
  exact Hl.
Defined.

(** X11. For a DEM of at least 1 x 1 vertices whose number of vertices
    [dem_dim_0 * dem_dim_1] and, for the triangle geometry, whose number
    of triangles fit an [int], every vertex index that [initializeScene]
    writes into the index buffer of the triangle or the quad geometry is
    an index of a vertex of the DEM. Any other geometry type gives one
    grid that starts at vertex 0 with the stride [dem_dim_1]; its width
    and its height are [dem_dim_1] and [dem_dim_0] reduced modulo
    [2^16], so that the grid is the DEM when both dimensions are below
    65536 and only then. *)
Theorem initializeScene_indices_in_range (vert_grid : list R)
  (dem_dim_0 dem_dim_1 : Z) (geom_type : string) :
  (1 <= dem_dim_0)%Z -> (1 <= dem_dim_1)%Z ->
  (dem_dim_0 * dem_dim_1 <= 2147483647)%Z ->
  (geom_type = "triangle"%string ->
   ((dem_dim_0 - 1) * (dem_dim_1 - 1) * 2 <= 2147483647)%Z) ->
  let geom := fst (initializeScene vert_grid dem_dim_0 dem_dim_1 geom_type) in
  vertex_buffer geom = vert_grid
  /\ vertex_count geom = (dem_dim_0 * dem_dim_1)%Z
  /\ match index geom with
     | Index_triangles triangles =>
         forall t : Triangle.t, In t triangles ->
           (0 <= Triangle.v0 t < vertex_count geom)%Z
           /\ (0 <= Triangle.v1 t < vertex_count geom)%Z
           /\ (0 <= Triangle.v2 t < vertex_count geom)%Z
     | Index_quads quads =>
         forall q : Quad.t, In q quads ->
           (0 <= Quad.v0 q < vertex_count geom)%Z
           /\ (0 <= Quad.v1 q < vertex_count geom)%Z
           /\ (0 <= Quad.v2 q < vertex_count geom)%Z
           /\ (0 <= Quad.v3 q < vertex_count geom)%Z
     | Index_grid grid =>
         grid = [Grid 0 dem_dim_1 (dem_dim_1 mod 65536)
                      (dem_dim_0 mod 65536)]
         /\ (grid = [Grid 0 dem_dim_1 dem_dim_1 dem_dim_0]
             <-> (dem_dim_0 < 65536)%Z /\ (dem_dim_1 < 65536)%Z)
     end.
Proof.
  intros H0 H1 Hv _ geom. subst geom.
  assert (Hdm : forall c : nat,
             (c < Z.to_nat (dem_dim_0 - 1) * Z.to_nat (dem_dim_1 - 1))%nat ->
             (Z.of_nat (Nat.div c (Z.to_nat (dem_dim_1 - 1))) + 1
              < dem_dim_0)%Z
             /\ (Z.of_nat (Nat.modulo c (Z.to_nat (dem_dim_1 - 1))) + 1
                 < dem_dim_1)%Z).
  { intros c Hc.
    assert (Hp : (0 < Z.to_nat (dem_dim_1 - 1))%nat)
      by (destruct (Z.to_nat (dem_dim_1 - 1));
          [rewrite Nat.mul_0_r in Hc |]; lia).
    pose proof (Nat.mod_upper_bound c (Z.to_nat (dem_dim_1 - 1))
                  ltac:(lia)) as Hm.
    assert (Hd : (Nat.div c (Z.to_nat (dem_dim_1 - 1))
                  < Z.to_nat (dem_dim_0 - 1))%nat)
      by (apply Nat.Div0.div_lt_upper_bound; lia).
    lia. }
  destruct (String.eqb geom_type "triangle") eqn:Et.
  - apply String.eqb_eq in Et. subst geom_type.
    rewrite initializeScene_triangle by assumption.
    cbn [vertex_buffer vertex_count index].
    split; [reflexivity |]. split; [reflexivity |].
    intros t Ht. apply in_flat_map in Ht. destruct Ht as (c & Hc & Ht).
    apply in_seq in Hc. destruct (Hdm c ltac:(lia)) as [Hd Hm].
    destruct Ht as [<- | [<- | []]];
      cbn [Triangle.v0 Triangle.v1 Triangle.v2]; nia.
  - destruct (String.eqb geom_type "quad") eqn:Eq.
    + apply String.eqb_eq in Eq. subst geom_type.
      rewrite initializeScene_quad by assumption.
      cbn [vertex_buffer vertex_count index].
      split; [reflexivity |]. split; [reflexivity |].
      intros q Hq. apply in_flat_map in Hq. destruct Hq as (c & Hc & Hq).
      apply in_seq in Hc. destruct (Hdm c ltac:(lia)) as [Hd Hm].
      destruct Hq as [<- | []];
        cbn [Quad.v0 Quad.v1 Quad.v2 Quad.v3]; nia.
    + unfold initializeScene. rewrite Et, Eq.
      cbn [fst vertex_buffer vertex_count index].
      split; [reflexivity |]. split; [reflexivity |].
      unfold to_unsigned_int, to_unsigned_short.
      change (2 ^ 16)%Z with 65536%Z. change (2 ^ 32)%Z with 4294967296%Z.
      rewrite Z.mod_0_l by lia. rewrite (Z.mod_small dem_dim_1) by nia.
      split; [reflexivity |]. split.
      * intros [= E1 E0].
        pose proof (Z.mod_pos_bound dem_dim_1 65536 ltac:(lia)).
        pose proof (Z.mod_pos_bound dem_dim_0 65536 ltac:(lia)).
        lia.
      * intros [L0 L1]. rewrite !Z.mod_small by lia. reflexivity.
Qed.

Lemma initializeScene_indices_in_range_witness :
  (1 <= 3)%Z /\ (1 <= 4)%Z /\ (3 * 4 <= 2147483647)%Z
  /\ vertex_count (fst (initializeScene [] 3 4 "quad")) = 12%Z.
Proof.
  split; [lia |]. split; [lia |]. split; [lia |].
  exact (proj1 (proj2 (initializeScene_indices_in_range [] 3 4 "quad"
                         ltac:(lia) ltac:(lia) ltac:(lia)
                         ltac:(discriminate)))).
Defined.

(** X12. The quad geometry and the triangle geometry of the same DEM have
    the same faces: quad [c] has the four vertices of the triangles
    [2 c] and [2 c + 1], which share the edge from its second to its
    fourth vertex. *)
Theorem initializeScene_quads_match (vert_grid : list R)
  (dem_dim_0 dem_dim_1 : Z) :
  (1 <= dem_dim_0)%Z -> (1 <= dem_dim_1)%Z ->
  exists (triangles : list Triangle.t) (quads : list Quad.t),
    index (fst (initializeScene vert_grid dem_dim_0 dem_dim_1 "triangle"))
    = Index_triangles triangles
    /\ index (fst (initializeScene vert_grid dem_dim_0 dem_dim_1 "quad"))
       = Index_quads quads
    /\ length quads = Z.to_nat ((dem_dim_0 - 1) * (dem_dim_1 - 1))
    /\ length triangles = (length quads * 2)%nat
    /\ forall c : nat, (c < length quads)%nat ->
         exists (q : Quad.t) (t_ll t_ur : Triangle.t),
           quads !! c = Some q
           /\ triangles !! (c * 2)%nat = Some t_ll
           /\ triangles !! (c * 2 + 1)%nat = Some t_ur
           /\ Triangle.v0 t_ll = Quad.v0 q
           /\ Triangle.v1 t_ll = Quad.v1 q
           /\ Triangle.v2 t_ll = Quad.v3 q
           /\ Triangle.v0 t_ur = Quad.v1 q
           /\ Triangle.v1 t_ur = Quad.v2 q
           /\ Triangle.v2 t_ur = Quad.v3 q.
Proof.
  intros H0 H1. do 2 eexists.
  rewrite initializeScene_triangle, initializeScene_quad by assumption.
  cbn [index]. split; [reflexivity |]. split; [reflexivity |].
  rewrite (length_flat_map_chunks 1) by (intros c; reflexivity).
  rewrite (length_flat_map_chunks 2) by (intros c; reflexivity).
  split; [rewrite (proj2 (num_tri_to_nat dem_dim_0 dem_dim_1 H0 H1)); lia |].
  split; [lia |].
  intros c Hc. do 3 eexists.
  replace c with (c * 1 + 0)%nat at 1 by lia.
  replace (c * 2)%nat with (c * 2 + 0)%nat at 1 by lia.
  rewrite (lookup_flat_map_chunks 1), !(lookup_flat_map_chunks 2)
    by (reflexivity || lia).
  cbn [lookup list_lookup]. repeat split.
Qed.

Lemma initializeScene_quads_match_witness :
  (1 <= 3)%Z /\ (1 <= 4)%Z
  /\ exists (triangles : list Triangle.t) (quads : list Quad.t),
       index (fst (initializeScene [] 3 4 "triangle"))
       = Index_triangles triangles
       /\ index (fst (initializeScene [] 3 4 "quad")) = Index_quads quads
       /\ length triangles = (length quads * 2)%nat.
Proof.
  destruct (initializeScene_quads_match [] 3 4)
    as (ts & qs & E1 & E2 & _ & Hl & _); [lia | lia |].
  split; [lia |]. split; [lia |]. exists ts, qs. repeat split; assumption.
Defined.

(** * Further properties of the correction engines *)

(** ** The reads of the triangle loops *)

Lemma in_cell_triangles (p i j k m n : nat) :
  In (k, m, n) (cell_triangles p i j)
  <-> (i * p <= k < i * p + p)%nat /\ (j * p <= m < j * p + p)%nat
      /\ (n < 2)%nat.
Proof.
  unfold cell_triangles. rewrite in_flat_map. split.
  - intros (k' & Hk & H). apply in_flat_map in H. destruct H as (m' & Hm & H).
    apply in_map_iff in H. destruct H as (n' & E & Hn).
    injection E as <- <- <-. apply in_seq in Hk, Hm, Hn. lia.
  - intros (Hk & Hm & Hn). exists k. split; [apply in_seq; lia |].
    apply in_flat_map. exists m. split; [apply in_seq; lia |].
    apply in_map_iff. exists n. split; [reflexivity | apply in_seq; lia].
Qed.

Lemma to_nat_mul3 (a b : Z) :
  (0 <= a)%Z -> (0 <= b)%Z ->
  Z.to_nat (a * b * 3) = (Z.to_nat a * Z.to_nat b * 3)%nat.
Proof.
  intros Ha Hb. pose proof (Z.mul_nonneg_nonneg a b Ha Hb).
  rewrite !Z2Nat.inj_mul by lia. reflexivity.
Qed.

Lemma func_ptr_in_bounds (dim_0 dim_1 ind_0 ind_1 n : nat) :
  (ind_0 + 1 < dim_0)%nat -> (ind_1 + 1 < dim_1)%nat ->
  (fst (fst (func_ptr n dim_1 ind_0 ind_1)) + 2 < dim_0 * dim_1 * 3)%nat
  /\ (snd (fst (func_ptr n dim_1 ind_0 ind_1)) + 2 < dim_0 * dim_1 * 3)%nat
  /\ (snd (func_ptr n dim_1 ind_0 ind_1) + 2 < dim_0 * dim_1 * 3)%nat.
Proof.
  intros H0 H1.
  destruct n as [| n]; cbn [func_ptr];
    unfold triangle_vert_ll, triangle_vert_ur; cbn [fst snd];
    repeat split; nia.
Qed.

(** The rows and columns of pixels of the grid cells lie within the inner
    DEM. *)
Lemma valid_grid_cell_pixels (T : CppTerrain) (i j k m n : nat) :
  valid_input T ->
  (i < Z.to_nat (num_gc_y_cl T))%nat -> (j < Z.to_nat (num_gc_x_cl T))%nat ->
  In (k, m, n) (cell_triangles (Z.to_nat (pixel_per_gc_cl T)) i j) ->
  (k + 1 < Z.to_nat (dem_dim_in_0_cl T))%nat
  /\ (m + 1 < Z.to_nat (dem_dim_in_1_cl T))%nat
  /\ (n < 2)%nat.
Proof.
  intros HV Hi Hj Ht. apply in_cell_triangles in Ht.
  destruct Ht as (Hk & Hm & Hn).
  pose proof (valid_pixel_per_gc T HV) as Hp.
  pose proof (proj1 (valid_dem_dim_in_0 T HV)) as Hd0.
  pose proof (proj1 (valid_dem_dim_in_1 T HV)) as Hd1.
  pose proof (valid_num_gc_y T HV) as Hy.
  pose proof (valid_num_gc_x T HV) as Hx.
  rewrite Hy in Hi. rewrite Hx in Hj.
  rewrite Z.quot_div_nonneg in Hi, Hj by lia.
  pose proof (Z.mul_div_le (dem_dim_in_0_cl T - 1) (pixel_per_gc_cl T)
                ltac:(lia)) as Hq0.
  pose proof (Z.mul_div_le (dem_dim_in_1_cl T - 1) (pixel_per_gc_cl T)
                ltac:(lia)) as Hq1.
  pose proof (Z.div_pos (dem_dim_in_0_cl T - 1) (pixel_per_gc_cl T)
                ltac:(lia) ltac:(lia)) as Hn0.
  pose proof (Z.div_pos (dem_dim_in_1_cl T - 1) (pixel_per_gc_cl T)
                ltac:(lia) ltac:(lia)) as Hn1.
  set (p := pixel_per_gc_cl T) in *.
  set (qy := ((dem_dim_in_0_cl T - 1) / p)%Z) in *.
  set (qx := ((dem_dim_in_1_cl T - 1) / p)%Z) in *.
  assert (Hiq : ((i + 1) * Z.to_nat p <= Z.to_nat qy * Z.to_nat p)%nat)
    by (apply Nat.mul_le_mono_r; lia).
  assert (Hjq : ((j + 1) * Z.to_nat p <= Z.to_nat qx * Z.to_nat p)%nat)
    by (apply Nat.mul_le_mono_r; lia).
  assert (Ey : Z.of_nat (Z.to_nat qy * Z.to_nat p) = (p * qy)%Z)
    by (rewrite Nat2Z.inj_mul, !Z2Nat.id by lia; ring).
  assert (Ex : Z.of_nat (Z.to_nat qx * Z.to_nat p) = (p * qx)%Z)
    by (rewrite Nat2Z.inj_mul, !Z2Nat.id by lia; ring).
  repeat split; lia.
Qed.

(** X14. For a valid input, every read of the triangle loops of the three
    engines lies within its buffer: the mask entry of a grid cell of the
    grid, and for every triangle of the cell the three coordinates of the
    three vertices in the outer and in the inner DEM. The packet-8 engine
    visits the triangles of the cell that the other two engines visit. *)
Theorem engine_reads_in_bounds (T : CppTerrain) (i j k m n : nat) :
  valid_input T ->
  (i < Z.to_nat (num_gc_y_cl T))%nat -> (j < Z.to_nat (num_gc_x_cl T))%nat ->
  In (k, m, n) (cell_triangles (Z.to_nat (pixel_per_gc_cl T)) i j)
  \/ (Z.even (pixel_per_gc_cl T) = true
      /\ In (k, m, n)
            (cell_triangles_rp8 (Z.to_nat (pixel_per_gc_cl T)) i j)) ->
  let off := Z.to_nat (pixel_per_gc_cl T * offset_gc_cl T) in
  (lin_ind_2d (Z.to_nat (num_gc_x_cl T)) i j < length (mask_cl T))%nat
  /\ (let '(ind_tri_0, ind_tri_1, ind_tri_2) :=
        func_ptr n (Z.to_nat (dem_dim_1_cl T)) (k + off) (m + off) in
      (ind_tri_0 + 2 < length (vert_grid_cl T))%nat
      /\ (ind_tri_1 + 2 < length (vert_grid_cl T))%nat
      /\ (ind_tri_2 + 2 < length (vert_grid_cl T))%nat)
  /\ (let '(ind_tri_0, ind_tri_1, ind_tri_2) :=
        func_ptr n (Z.to_nat (dem_dim_in_1_cl T)) k m in
      (ind_tri_0 + 2 < length (vert_grid_in_cl T))%nat
      /\ (ind_tri_1 + 2 < length (vert_grid_in_cl T))%nat
      /\ (ind_tri_2 + 2 < length (vert_grid_in_cl T))%nat).
Proof.
  intros HV Hi Hj Ht off.
  assert (Ht' : In (k, m, n)
                   (cell_triangles (Z.to_nat (pixel_per_gc_cl T)) i j)).
  { destruct Ht as [Ht | [He Ht]]; [exact Ht |].
    pose proof (valid_pixel_per_gc T HV) as Hp.
    destruct (Z.even_spec (pixel_per_gc_cl T)) as [Hev _].
    destruct (Hev He) as [h Hh].
    assert (E : Z.to_nat (pixel_per_gc_cl T) = (2 * Z.to_nat h)%nat) by lia.
    rewrite E in Ht |- *.
    apply list_elem_of_In.
    rewrite <- (cell_triangles_rp8_perm (Z.to_nat h) i j).
    apply list_elem_of_In, Ht. }
  destruct (valid_grid_cell_pixels T i j k m n HV Hi Hj Ht')
    as (Hk & Hm & Hn).
  pose proof (valid_pixel_per_gc T HV) as Hp.
  pose proof (valid_offset_gc T HV) as Ho.
  destruct (valid_dem_dim_in_0 T HV) as [Hd0 E0].
  destruct (valid_dem_dim_in_1 T HV) as [Hd1 E1].
  pose proof (valid_vert_grid T HV) as Hl.
  pose proof (valid_vert_grid_in T HV) as Hli.
  pose proof (valid_mask T HV) as Hmask.
  split.
  { rewrite Hmask.
    replace (Z.to_nat (num_gc_y_cl T * num_gc_x_cl T))
      with (Z.to_nat (num_gc_y_cl T) * Z.to_nat (num_gc_x_cl T))%nat by lia.
    apply lin_ind_2d_lt; assumption. }
  assert (Hpo : (0 <= pixel_per_gc_cl T * offset_gc_cl T)%Z)
    by (apply Z.mul_nonneg_nonneg; lia).
  assert (Hoff : Z.of_nat off = (pixel_per_gc_cl T * offset_gc_cl T)%Z)
    by (unfold off; apply Z2Nat.id, Hpo).
  split.
  - pose proof (func_ptr_in_bounds (Z.to_nat (dem_dim_0_cl T))
                  (Z.to_nat (dem_dim_1_cl T)) (k + off) (m + off) n
                  ltac:(lia) ltac:(lia)) as H.
    destruct (func_ptr n _ (k + off)%nat (m + off)%nat) as [[a b] c].
    cbn [fst snd] in H. rewrite Hl.
    rewrite to_nat_mul3 by lia.
    exact H.
  - pose proof (func_ptr_in_bounds (Z.to_nat (dem_dim_in_0_cl T))
                  (Z.to_nat (dem_dim_in_1_cl T)) k m n Hk Hm) as H.
    destruct (func_ptr n _ k m) as [[a b] c].
    cbn [fst snd] in H. rewrite Hli.
    rewrite to_nat_mul3 by lia.
    exact H.
Qed.

Lemma engine_reads_in_bounds_witness :
  valid_input terrain_2x2
  /\ In (1, 1, 1)%nat (cell_triangles 2 0 0)
  /\ func_ptr 1 3 1 1 = (15, 24, 21)%nat
  /\ (24 + 2 < length (vert_grid_cl terrain_2x2))%nat.
Proof.
  assert (Hin : In (1, 1, 1)%nat (cell_triangles 2 0 0))
    by (apply in_cell_triangles; lia).
  destruct terrain_2x2_grid as (Hi & Hj & _).
  destruct (engine_reads_in_bounds terrain_2x2 0 0 1 1 1 valid_terrain_2x2
              Hi Hj (or_introl Hin)) as (_ & (_ & H & _) & _).
  split; [exact valid_terrain_2x2 |]. split; [exact Hin |].
  split; [reflexivity | exact H].
Defined.

(** ** The ray origin *)

Lemma triangle_area_nonzero (vert_0 vert_1 vert_2 : vec) :
  snd (triangle_normal_area vert_0 vert_1 vert_2) <> 0 ->
  triangle_cross vert_0 vert_1 vert_2 <> Vec 0 0 0.
Proof.
  rewrite triangle_normal_area_cross. cbn [snd]. intros H E. apply H.
  rewrite E. unfold vec_mag. cbn [v_x v_y v_z].
  replace (0 * 0 + 0 * 0 + 0 * 0) with 0 by ring. rewrite sqrt_0. lra.
Qed.

(** X15. The ray of a triangle with a tilted area that is not zero starts
    on the straight line through the centroid along the normal, at the
    signed distance [ray_org_elev] (0.1 m after [initialise]) from the
    plane of the tilted triangle, on the side the normal points to. *)
Theorem ray_org_above_triangle (T : CppTerrain) (sun_pos : vec)
  (k m n : nat) :
  let off := Z.to_nat (pixel_per_gc_cl T * offset_gc_cl T) in
  let f := sw_dir_cor_scope T sun_pos k m n in
  let vert_1 :=
    vertex (vert_grid_cl T)
           (snd (fst (func_ptr n (Z.to_nat (dem_dim_1_cl T))
                               (k + off) (m + off)))) in
  area_tilt f <> 0 ->
  vec_sub (ray_org f) (cent f) = vec_scale (ray_org_elev_cl T) (norm_tilt f)
  /\ dot (norm_tilt f) (vec_sub (cent f) vert_1) = 0
  /\ dot (norm_tilt f) (vec_sub (ray_org f) vert_1) = ray_org_elev_cl T
  /\ (0 <= ray_org_elev_cl T ->
      vec_mag (vec_sub (ray_org f) (cent f)) = ray_org_elev_cl T).
Proof.
  intros off f vert_1 Ha.
  destruct (sw_dir_cor_scope_ray_org T sun_pos k m n)
    as (Ho & w0 & w1 & w2 & E0 & E1 & E2 & Hc & Hn).
  fold f in Ho, Hc, Hn. fold off in E0, E1, E2. fold vert_1 in E1.
  subst w1.
  assert (Hn1 : norm_tilt f = fst (triangle_normal_area w0 vert_1 w2))
    by (rewrite <- Hn; reflexivity).
  assert (Ha1 : area_tilt f = snd (triangle_normal_area w0 vert_1 w2))
    by (rewrite <- Hn; reflexivity).
  rewrite Ha1 in Ha. apply triangle_area_nonzero in Ha.
  pose proof (vec_mag_unit _ Ha) as Hu.
  pose proof (vec_mag_pos _ Ha) as Hm.
  assert (Hdc : dot (norm_tilt f) (vec_sub (cent f) vert_1) = 0).
  { rewrite Hn1, Hc, triangle_normal_area_cross. cbn [fst].
    rewrite dot_vec_unit_l.
    replace (dot (triangle_cross w0 vert_1 w2)
                 (vec_sub (triangle_centroid w0 vert_1 w2) vert_1)) with 0.
    - unfold Rdiv. ring.
    - destruct w0 as [x0 y0 z0], vert_1 as [x1 y1 z1], w2 as [x2 y2 z2].
      unfold triangle_centroid, triangle_cross, vec_sub, dot.
      cbn [v_x v_y v_z]. field. }
  assert (Hnn : dot (norm_tilt f) (norm_tilt f) = 1).
  { rewrite <- vec_mag_sqr, Hn1, triangle_normal_area_cross. cbn [fst].
    rewrite Hu. ring. }
  assert (Hs : vec_sub (ray_org f) (cent f)
               = vec_scale (ray_org_elev_cl T) (norm_tilt f)).
  { rewrite Ho. unfold vec_sub, vec_scale. cbn [v_x v_y v_z].
    f_equal; ring. }
  split; [exact Hs |]. split; [exact Hdc |]. split.
  - replace (vec_sub (ray_org f) vert_1)
      with (Vec (v_x (vec_sub (cent f) vert_1)
                 + ray_org_elev_cl T * v_x (norm_tilt f))
                (v_y (vec_sub (cent f) vert_1)
                 + ray_org_elev_cl T * v_y (norm_tilt f))
                (v_z (vec_sub (cent f) vert_1)
                 + ray_org_elev_cl T * v_z (norm_tilt f))).
    + transitivity (dot (norm_tilt f) (vec_sub (cent f) vert_1)
                    + ray_org_elev_cl T * dot (norm_tilt f) (norm_tilt f)).
      * unfold dot. cbn [v_x v_y v_z]. ring.
      * rewrite Hdc, Hnn. ring.
    + rewrite Ho. unfold vec_sub. cbn [v_x v_y v_z]. f_equal; ring.
  - intros He. rewrite Hs. unfold vec_mag, vec_scale. cbn [v_x v_y v_z].
    replace (ray_org_elev_cl T * v_x (norm_tilt f)
             * (ray_org_elev_cl T * v_x (norm_tilt f))
             + ray_org_elev_cl T * v_y (norm_tilt f)
               * (ray_org_elev_cl T * v_y (norm_tilt f))
             + ray_org_elev_cl T * v_z (norm_tilt f)
               * (ray_org_elev_cl T * v_z (norm_tilt f)))
      with (ray_org_elev_cl T * ray_org_elev_cl T
            * dot (norm_tilt f) (norm_tilt f)) by (unfold dot; ring).
    rewrite Hnn, Rmult_1_r. apply sqrt_square, He.
Qed.

Lemma ray_org_above_triangle_witness :
  area_tilt (sw_dir_cor_scope terrain_1x1 sun_low 0 0 0) <> 0
  /\ ray_org_elev_cl terrain_1x1 = 0.1
  /\ vec_mag (vec_sub (ray_org (sw_dir_cor_scope terrain_1x1 sun_low 0 0 0))
                      (cent (sw_dir_cor_scope terrain_1x1 sun_low 0 0 0)))
     = ray_org_elev_cl terrain_1x1.
Proof.
  assert (Ha : area_tilt (sw_dir_cor_scope terrain_1x1 sun_low 0 0 0) <> 0).
  { apply (terrain_1x1_non_degenerate (0, 0, 0)%nat).
    apply in_cell_triangles. lia. }
  split; [exact Ha |]. split; [reflexivity |].
  apply (ray_org_above_triangle terrain_1x1 sun_low 0 0 0 Ha).
  change (ray_org_elev_cl terrain_1x1) with 0.1. lra.
Defined.

(** ** What the engines leave as it is *)

Lemma lookup_total_lookup_eq {A : Type} `{Inhabited A} (l1 l2 : list A)
  (c : nat) :
  length l1 = length l2 -> l1 !!! c = l2 !!! c -> l1 !! c = l2 !! c.
Proof.
  intros Hl E. destruct (decide (c < length l1)%nat) as [Hc | Hc].
  - rewrite (list_lookup_lookup_total_lt l1 c Hc).
    rewrite (list_lookup_lookup_total_lt l2 c) by lia. f_equal. exact E.
  - rewrite !lookup_ge_None_2 by lia. reflexivity.
Qed.

(** X16. The three engines keep the length of the output buffer and
    write nothing beyond the [num_gc_y * num_gc_x] elements of the grid. *)
Theorem engines_frame (T : CppTerrain) (sun_pos : vec) (refrac_cor : Z)
  (out0 out : list fval) :
  valid_input T ->
  (Z.to_nat (num_gc_y_cl T) * Z.to_nat (num_gc_x_cl T) <= length out0)%nat ->
  In out [fst (sw_dir_cor T sun_pos out0 refrac_cor);
          fst (sw_dir_cor_coherent T sun_pos out0);
          fst (sw_dir_cor_coherent_rp8 T sun_pos out0)] ->
  length out = length out0
  /\ forall c : nat,
       (Z.to_nat (num_gc_y_cl T) * Z.to_nat (num_gc_x_cl T) <= c)%nat ->
       out !! c = out0 !! c.
Proof.
  intros HV Hlen Hin.
  destruct (valid_num_gc T HV) as [Hy Hx].
  assert (H : length out = length out0
              /\ forall c : nat,
                   (Z.to_nat (num_gc_y_cl T) * Z.to_nat (num_gc_x_cl T)
                    <= c)%nat -> out !!! c = out0 !!! c).
  { destruct Hin as [<- | [<- | [<- | []]]].
    - destruct (sw_dir_cor_spec T sun_pos refrac_cor out0 Hy Hx Hlen)
        as (H1 & _ & H3). split; assumption.
    - destruct (sw_dir_cor_coherent_spec T sun_pos out0 Hlen)
        as (-> & H1 & _ & H3 & _). split; assumption.
    - destruct (Z.even (pixel_per_gc_cl T)) eqn:He.
      + destruct (sw_dir_cor_coherent_rp8_spec T sun_pos out0 He Hlen)
          as (-> & H1 & _ & H3 & _). split; assumption.
      + unfold sw_dir_cor_coherent_rp8.
        rewrite <- Z.negb_odd in He. apply negb_false_iff in He.
        rewrite (rem_2_odd _ He). cbn. split; reflexivity. }
  destruct H as [Hl Hc]. split; [exact Hl |].
  intros c Hge. apply lookup_total_lookup_eq; [exact Hl | apply Hc, Hge].
Qed.

Lemma engines_frame_witness :
  valid_input terrain_2x2
  /\ length (fst (sw_dir_cor terrain_2x2 sun_high [FVal 0; FVal 3] 0))
     = 2%nat
  /\ fst (sw_dir_cor terrain_2x2 sun_high [FVal 0; FVal 3] 0) !! 1%nat
     = Some (FVal 3).
Proof.
  destruct (engines_frame terrain_2x2 sun_high 0 [FVal 0; FVal 3]
              (fst (sw_dir_cor terrain_2x2 sun_high [FVal 0; FVal 3] 0))
              valid_terrain_2x2)
    as [Hl Hc].
  - change (1 * 1 <= 2)%nat. lia.
  - left. reflexivity.
  - split; [exact valid_terrain_2x2 |]. split; [exact Hl |].
    apply (Hc 1%nat). change (1 * 1 <= 1)%nat. lia.
Defined.

Lemma grid_values_eq (ny nx : nat) (l1 l2 : list fval)
  (V : nat -> nat -> fval) :
  length l1 = length l2 ->
  (forall i j, (i < ny)%nat -> (j < nx)%nat ->
     l1 !!! lin_ind_2d nx i j = V i j) ->
  (forall i j, (i < ny)%nat -> (j < nx)%nat ->
     l2 !!! lin_ind_2d nx i j = V i j) ->
  (forall c, (ny * nx <= c)%nat -> l1 !!! c = l2 !!! c) ->
  l1 = l2.
Proof.
  intros Hl H1 H2 H3. apply list_eq. intros c.
  apply lookup_total_lookup_eq; [exact Hl |].
  destruct (decide (c < ny * nx)%nat) as [Hc | Hc]; [| apply H3; lia].
  assert (Hnx : (0 < nx)%nat) by nia.
  rewrite <- (lin_ind_2d_div_mod nx c Hnx).
  assert (Hd : (Nat.div c nx < ny)%nat)
    by (apply Nat.Div0.div_lt_upper_bound; lia).
  pose proof (Nat.mod_upper_bound c nx ltac:(lia)) as Hm.
  rewrite H1, H2 by assumption. reflexivity.
Qed.

(** X17. The coherent-batch engine, and the packet-8 engine for an even
    [pixel_per_gc], overwrite the grid: the buffer after the call does not
    depend on what the grid part of the buffer held before, and a second
    call with the same sun position changes nothing. *)
Theorem coherent_engines_overwrite (T : CppTerrain) (sun_pos : vec)
  (out0 out1 : list fval) :
  (Z.to_nat (num_gc_y_cl T) * Z.to_nat (num_gc_x_cl T) <= length out0)%nat ->
  length out1 = length out0 ->
  (forall c : nat,
     (Z.to_nat (num_gc_y_cl T) * Z.to_nat (num_gc_x_cl T) <= c)%nat ->
     out1 !! c = out0 !! c) ->
  fst (sw_dir_cor_coherent T sun_pos out1)
  = fst (sw_dir_cor_coherent T sun_pos out0)
  /\ fst (sw_dir_cor_coherent T sun_pos
            (fst (sw_dir_cor_coherent T sun_pos out0)))
     = fst (sw_dir_cor_coherent T sun_pos out0)
  /\ (Z.even (pixel_per_gc_cl T) = true ->
      fst (sw_dir_cor_coherent_rp8 T sun_pos out1)
      = fst (sw_dir_cor_coherent_rp8 T sun_pos out0)
      /\ fst (sw_dir_cor_coherent_rp8 T sun_pos
                (fst (sw_dir_cor_coherent_rp8 T sun_pos out0)))
         = fst (sw_dir_cor_coherent_rp8 T sun_pos out0)).
Proof.
  intros Hlen Hl1 Htail.
  set (ny := Z.to_nat (num_gc_y_cl T)) in *.
  set (nx := Z.to_nat (num_gc_x_cl T)) in *.
  assert (Htail' : forall c, (ny * nx <= c)%nat -> out1 !!! c = out0 !!! c).
  { intros c Hc. rewrite !list_lookup_total_alt, (Htail c Hc). reflexivity. }
  assert (Hco : forall a b : list fval,
             (ny * nx <= length b)%nat -> length a = length b ->
             (forall c, (ny * nx <= c)%nat -> a !!! c = b !!! c) ->
             fst (sw_dir_cor_coherent T sun_pos a)
             = fst (sw_dir_cor_coherent T sun_pos b)).
  { intros a b Hb Hab Ht.
    destruct (sw_dir_cor_coherent_spec T sun_pos a ltac:(fold ny nx; lia))
      as (-> & A1 & A2 & A3 & _).
    destruct (sw_dir_cor_coherent_spec T sun_pos b Hb)
      as (-> & B1 & B2 & B3 & _).
    eapply (grid_values_eq ny nx); [lia | exact A2 | exact B2 |].
    intros c Hc. rewrite A3, B3 by exact Hc. apply Ht, Hc. }
  assert (Hrp : Z.even (pixel_per_gc_cl T) = true ->
                forall a b : list fval,
                  (ny * nx <= length b)%nat -> length a = length b ->
                  (forall c, (ny * nx <= c)%nat -> a !!! c = b !!! c) ->
                  fst (sw_dir_cor_coherent_rp8 T sun_pos a)
                  = fst (sw_dir_cor_coherent_rp8 T sun_pos b)).
  { intros He a b Hb Hab Ht.
    destruct (sw_dir_cor_coherent_rp8_spec T sun_pos a He
                ltac:(fold ny nx; lia)) as (-> & A1 & A2 & A3 & _).
    destruct (sw_dir_cor_coherent_rp8_spec T sun_pos b He Hb)
      as (-> & B1 & B2 & B3 & _).
    eapply (grid_values_eq ny nx); [lia | exact A2 | exact B2 |].
    intros c Hc. rewrite A3, B3 by exact Hc. apply Ht, Hc. }
  split; [apply Hco; assumption |]. split.
  - destruct (sw_dir_cor_coherent_spec T sun_pos out0 Hlen)
      as (E & B1 & _ & B3 & _).
    apply Hco; [exact Hlen | rewrite E; exact B1 |].
    intros c Hc. rewrite E. apply B3, Hc.
  - intros He. split; [apply Hrp; assumption |].
    destruct (sw_dir_cor_coherent_rp8_spec T sun_pos out0 He Hlen)
      as (E & B1 & _ & B3 & _).
    apply Hrp; [exact He | exact Hlen | rewrite E; exact B1 |].
    intros c Hc. rewrite E. apply B3, Hc.
Qed.

Lemma coherent_engines_overwrite_witness :
  fst (sw_dir_cor_coherent terrain_2x2 sun_high [FVal 7])
  = fst (sw_dir_cor_coherent terrain_2x2 sun_high [FNaN]).
Proof.
  apply (coherent_engines_overwrite terrain_2x2 sun_high [FNaN] [FVal 7]).
  - change (1 * 1 <= 1)%nat. lia.
  - reflexivity.
  - intros c Hc. change (1 * 1 <= c)%nat in Hc.
    rewrite !lookup_ge_None_2 by (cbn; lia). reflexivity.
Defined.

(** ** The ray batches *)

Lemma candidate_ray (T : CppTerrain) (sun_pos : vec) (refrac_cor : Z)
  (t : nat * nat * nat) (ray : RTCRay) (c : R) :
  candidate T sun_pos refrac_cor t = Some (ray, c) ->
  tnear ray = 0 /\ tfar ray = FVal (dist_search_cl T) /\ id ray = 0%nat
  /\ c <= sw_dir_cor_max_cl T.
Proof.
  destruct t as [[k m] n]. unfold candidate.
  destruct (Rle_dec _ (dot_prod_min_cl T)); [discriminate |].
  destruct (Rle_dec _ 0); [discriminate |].
  intros E. injection E as <- <-. cbn [tnear tfar id].
  repeat split. apply Rmin_r.
Qed.

Lemma candidates_lookup (T : CppTerrain) (sun_pos : vec) (refrac_cor : Z)
  (ts : list (nat * nat * nat)) (q : nat) (ray : RTCRay) (c : R) :
  candidates T sun_pos refrac_cor ts !! q = Some (ray, c) ->
  exists t, In t ts /\ candidate T sun_pos refrac_cor t = Some (ray, c).
Proof.
  intros H. apply list_elem_of_lookup_2 in H. unfold candidates in H.
  apply list_elem_of_omap in H. destruct H as (t & Ht & E).
  exists t. split; [apply list_elem_of_In, Ht | exact E].
Qed.

(** X18. In the coherent-batch engine the arrays of a grid cell are never
    written beyond their [pixel_per_gc^2 * 2] elements: after the loops
    over the triangles of the cell the number of stored rays is the number
    of triangles that pass both self-shadow tests, and the ray stored at
    position [q] carries the identifier [q], [tnear] 0, [tfar]
    [dist_search] and a contribution of at most [sw_dir_cor_max]. *)
Theorem coherent_batch_in_bounds (T : CppTerrain) (sun_pos : vec)
  (i j : nat) :
  (1 <= pixel_per_gc_cl T)%Z ->
  let p := Z.to_nat (pixel_per_gc_cl T) in
  let num_tri_per_gc :=
    Z.to_nat (pixel_per_gc_cl T * pixel_per_gc_cl T * 2) in
  let b :=
    for_range (i * p) p (fun k =>
      for_range (j * p) p (fun m =>
        for_range 0 2 (fun n =>
          sw_dir_cor_coherent_triangle T sun_pos k m n)))
      (Batch (replicate num_tri_per_gc ray_uninit)
             (replicate num_tri_per_gc 0) 0%nat) in
  num_rays_gc b = cell_rays T sun_pos 0 i j
  /\ (num_rays_gc b <= num_tri_per_gc)%nat
  /\ length (rays b) = num_tri_per_gc
  /\ length (sw_dir_cor_ray b) = num_tri_per_gc
  /\ forall q : nat, (q < num_rays_gc b)%nat ->
       id (rays b !!! q) = q
       /\ tnear (rays b !!! q) = 0
       /\ tfar (rays b !!! q) = FVal (dist_search_cl T)
       /\ sw_dir_cor_ray b !!! q <= sw_dir_cor_max_cl T.
Proof.
  intros Hp p N b. subst b. rewrite cell_loop.
  set (ts := cell_triangles p i j).
  set (b0 := Batch (replicate N ray_uninit) (replicate N 0) 0).
  assert (HN : (length ts <= N)%nat).
  { unfold ts. rewrite length_cell_triangles. unfold N, p. nia. }
  pose proof (length_candidates T sun_pos 0 ts) as Hcs.
  destruct (sw_dir_cor_coherent_fill T sun_pos ts b0)
    as (H1 & H2 & H3 & _ & H5).
  { unfold b0. cbn [num_rays_gc rays Nat.add]. rewrite length_replicate.
    lia. }
  { unfold b0. cbn [sw_dir_cor_ray rays]. now rewrite !length_replicate. }
  cbn [num_rays_gc rays sw_dir_cor_ray b0 Nat.add] in H1, H2, H3, H5.
  rewrite length_replicate in H2, H3.
  split.
  { rewrite H1. unfold cell_rays. fold p. fold ts.
    apply (proj2 (Rsum_candidates T sun_pos 0 ts)). }
  split; [rewrite H1; lia |]. split; [exact H2 |]. split; [exact H3 |].
  intros q Hq. rewrite H1 in Hq.
  destruct (lookup_lt_is_Some_2 _ _ Hq) as [[ray c] Hrc].
  destruct (H5 q ray c Hrc) as [Hr Hc].
  destruct (candidates_lookup _ _ _ _ _ _ _ Hrc) as (t & _ & Ht).
  destruct (candidate_ray _ _ _ _ _ _ Ht) as (Hn & Hf & _ & Hm).
  rewrite Hr, Hc. cbn [id tnear tfar]. repeat split; assumption.
Qed.

Lemma coherent_batch_in_bounds_witness :
  (1 <= pixel_per_gc_cl terrain_2x2)%Z
  /\ (cell_rays terrain_2x2 sun_high 0 0 0 <= 8)%nat.
Proof.
  assert (Hp : (1 <= pixel_per_gc_cl terrain_2x2)%Z)
    by (change (1 <= 2)%Z; lia).
  split; [exact Hp |].
  destruct (coherent_batch_in_bounds terrain_2x2 sun_high 0 0 Hp)
    as (H1 & H2 & _).
  rewrite <- H1. exact H2.
Defined.

(** The lanes of a ray package beyond the stored rays are not touched. *)
Lemma sw_dir_cor_coherent_rp8_fill_rest (T : CppTerrain) (sun_pos : vec)
  (ts : list (nat * nat * nat)) (b : ray_package) :
  let b' := fold_left (fun b t => let '(k, m, n) := t in
                         sw_dir_cor_coherent_rp8_triangle T sun_pos k m n b)
                      ts b in
  forall q : nat, (num_rays_gc8 b' <= q)%nat ->
    valid8 b' !!! q = valid8 b !!! q /\ (num_rays_gc8 b <= q)%nat.
Proof.
  revert b. induction ts as [| [[k m] n] ts IH]; intros b b' q Hq.
  - subst b'. cbn in *. split; [reflexivity | exact Hq].
  - subst b'. cbn [fold_left] in *.
    rewrite sw_dir_cor_coherent_rp8_triangle_candidate in *.
    destruct (candidate T sun_pos 0 (k, m, n)) as [[ray c] |].
    + destruct (IH _ q Hq) as [E Hge]. cbn [valid8 num_rays_gc8] in E, Hge.
      rewrite E. split; [| lia].
      apply list_lookup_total_insert_ne. lia.
    + apply IH, Hq.
Qed.

(** X19. In the packet-8 engine the package of a block of 2 x 2 pixels
    holds at most 8 rays, and the lanes that are marked valid (-1) for
    [rtcOccluded8] are exactly the lanes of the stored rays; the other
    lanes stay invalid (0), so that no ray is traced for a triangle that
    fails a self-shadow test. *)
Theorem rp8_package_lanes (T : CppTerrain) (sun_pos : vec) (k m : nat)
  (c : rp8_cell) :
  length (cell_ray8 c) = 8%nat -> length (cell_sw_dir_cor_ray c) = 8%nat ->
  let b :=
    for_range k 2 (fun k_block =>
      for_range m 2 (fun m_block =>
        for_range 0 2 (fun n =>
          sw_dir_cor_coherent_rp8_triangle T sun_pos k_block m_block n)))
      (Package (cell_ray8 c) (replicate 8 0%Z) (cell_sw_dir_cor_ray c)
               0%nat) in
  num_rays_gc8 b
  = sum_list (map (rays_of T sun_pos 0) (block_triangles k m))
  /\ (num_rays_gc8 b <= 8)%nat
  /\ length (ray8 b) = 8%nat /\ length (valid8 b) = 8%nat
  /\ length (sw_dir_cor_ray8 b) = 8%nat
  /\ forall q : nat, (q < 8)%nat ->
       valid8 b !!! q = (if decide (q < num_rays_gc8 b)%nat then -1 else 0)%Z.
Proof.
  intros Hr Hs b. subst b. rewrite block_loop.
  set (ts := block_triangles k m).
  set (b0 := Package (cell_ray8 c) (replicate 8 0%Z) (cell_sw_dir_cor_ray c) 0).
  pose proof (length_candidates T sun_pos 0 ts) as Hcs.
  change (length ts) with 8%nat in Hcs.
  destruct (sw_dir_cor_coherent_rp8_fill T sun_pos ts b0)
    as (H1 & H2 & H3 & H4 & _ & H6).
  { unfold b0. cbn [num_rays_gc8 ray8 Nat.add]. lia. }
  { unfold b0. cbn [valid8 ray8]. rewrite length_replicate. lia. }
  { unfold b0. cbn [sw_dir_cor_ray8 ray8]. lia. }
  pose proof (sw_dir_cor_coherent_rp8_fill_rest T sun_pos ts b0) as H7.
  cbn [num_rays_gc8 ray8 valid8 sw_dir_cor_ray8 b0 Nat.add] in H1, H2, H3, H4,
    H6, H7.
  split.
  { rewrite H1. apply (proj2 (Rsum_candidates T sun_pos 0 ts)). }
  split; [rewrite H1; lia |]. split; [lia |]. split; [lia |].
  split; [lia |].
  intros q Hq. destruct (decide (q < _)%nat) as [Hlt | Hge].
  - rewrite H1 in Hlt.
    destruct (lookup_lt_is_Some_2 _ _ Hlt) as [[ray c'] Hrc].
    apply (H6 q ray c' Hrc).
  - destruct (H7 q ltac:(lia)) as [E _]. rewrite E.
    apply lookup_total_replicate_2. exact Hq.
Qed.

Lemma rp8_package_lanes_witness :
  length (replicate 8 ray_uninit) = 8%nat
  /\ length (replicate 8 0) = 8%nat
  /\ (sum_list (map (rays_of terrain_2x2 sun_high 0) (block_triangles 0 0))
      <= 8)%nat.
Proof.
  destruct (rp8_package_lanes terrain_2x2 sun_high 0 0
              (Rp8Cell (replicate 8 ray_uninit) (replicate 8 0) 0 0)
              eq_refl eq_refl) as (H1 & H2 & _).
  split; [reflexivity |]. split; [reflexivity |].
  rewrite <- H1. exact H2.
Defined.

(** ** The report of a correction call *)

Lemma sum_list_bound (G : nat -> nat) (l : list nat) (B : nat) :
  (forall c, In c l -> (G c <= B)%nat) ->
  (sum_list (map G l) <= length l * B)%nat.
Proof.
  induction l as [| a l IH]; intros H; [cbn; lia |].
  change (sum_list (map G (a :: l))) with (G a + sum_list (map G l))%nat.
  cbn [length]. pose proof (H a (or_introl eq_refl)).
  pose proof (IH (fun c Hc => H c (or_intror Hc))). lia.
Qed.

Lemma cell_rays_bound (T : CppTerrain) (sun_pos : vec) (refrac_cor : Z)
  (i j : nat) :
  (cell_rays T sun_pos refrac_cor i j
   <= Z.to_nat (pixel_per_gc_cl T) * Z.to_nat (pixel_per_gc_cl T) * 2)%nat.
Proof.
  unfold cell_rays.
  rewrite <- (proj2 (Rsum_candidates T sun_pos refrac_cor _)).
  rewrite <- (length_cell_triangles (Z.to_nat (pixel_per_gc_cl T)) i j).
  apply length_candidates.
Qed.

Lemma grid_rays_bound (T : CppTerrain) (sun_pos : vec) (refrac_cor : Z) :
  valid_input T ->
  num_tri_cl T
  = ((dem_dim_in_0_cl T - 1) * (dem_dim_in_1_cl T - 1) * 2)%Z ->
  let ny := Z.to_nat (num_gc_y_cl T) in
  let nx := Z.to_nat (num_gc_x_cl T) in
  (Z.of_nat
     (sum_list
        (map (fun c =>
                if (mask_cl T !!! lin_ind_2d nx (Nat.div c nx) (Nat.modulo c nx)
                    =? 1)%Z
                then cell_rays T sun_pos refrac_cor (Nat.div c nx)
                               (Nat.modulo c nx)
                else 0%nat)
             (seq 0 (ny * nx))))
   <= num_tri_cl T)%Z.
Proof.
  intros HV Hnt ny nx.
  set (P := Z.to_nat (pixel_per_gc_cl T)).
  pose proof (sum_list_bound
                (fun c =>
                   if (mask_cl T
                         !!! lin_ind_2d nx (Nat.div c nx) (Nat.modulo c nx)
                       =? 1)%Z
                   then cell_rays T sun_pos refrac_cor (Nat.div c nx)
                                  (Nat.modulo c nx)
                   else 0%nat)
                (seq 0 (ny * nx)) (P * P * 2)) as Hs.
  rewrite length_seq in Hs.
  assert (Hb : (sum_list
                  (map (fun c =>
                          if (mask_cl T
                                !!! lin_ind_2d nx (Nat.div c nx)
                                      (Nat.modulo c nx) =? 1)%Z
                          then cell_rays T sun_pos refrac_cor (Nat.div c nx)
                                         (Nat.modulo c nx)
                          else 0%nat)
                       (seq 0 (ny * nx)))
                <= ny * nx * (P * P * 2))%nat).
  { apply Hs. intros c _. destruct (_ =? 1)%Z; [| lia].
    apply cell_rays_bound. }
  clear Hs.
  pose proof (valid_pixel_per_gc T HV) as Hp.
  pose proof (proj1 (valid_dem_dim_in_0 T HV)) as Hd0.
  pose proof (proj1 (valid_dem_dim_in_1 T HV)) as Hd1.
  pose proof (valid_num_gc_y T HV) as Hy.
  pose proof (valid_num_gc_x T HV) as Hx.
  rewrite Z.quot_div_nonneg in Hy, Hx by lia.
  pose proof (Z.mul_div_le (dem_dim_in_0_cl T - 1) (pixel_per_gc_cl T)
                ltac:(lia)) as Hq0.
  pose proof (Z.mul_div_le (dem_dim_in_1_cl T - 1) (pixel_per_gc_cl T)
                ltac:(lia)) as Hq1.
  pose proof (Z.div_pos (dem_dim_in_0_cl T - 1) (pixel_per_gc_cl T)
                ltac:(lia) ltac:(lia)) as Hn0.
  pose proof (Z.div_pos (dem_dim_in_1_cl T - 1) (pixel_per_gc_cl T)
                ltac:(lia) ltac:(lia)) as Hn1.
  rewrite <- Hy in Hq0, Hn0. rewrite <- Hx in Hq1, Hn1.
  assert (Ey : Z.of_nat (ny * P) = (pixel_per_gc_cl T * num_gc_y_cl T)%Z)
    by (unfold ny, P; rewrite Nat2Z.inj_mul, !Z2Nat.id by lia; ring).
  assert (Ex : Z.of_nat (nx * P) = (pixel_per_gc_cl T * num_gc_x_cl T)%Z)
    by (unfold nx, P; rewrite Nat2Z.inj_mul, !Z2Nat.id by lia; ring).
  assert (Hprod : (Z.of_nat (ny * P) * Z.of_nat (nx * P)
                   <= (dem_dim_in_0_cl T - 1) * (dem_dim_in_1_cl T - 1))%Z)
    by (apply Z.mul_le_mono_nonneg; lia).
  rewrite Hnt.
  apply Z.le_trans with (Z.of_nat (ny * nx * (P * P * 2))); [lia |].
  replace (Z.of_nat (ny * nx * (P * P * 2)))
    with (Z.of_nat (ny * P) * Z.of_nat (nx * P) * 2)%Z by lia.
  lia.
Qed.

(** X20. For a valid input whose field [num_tri] is the number of
    triangles of the inner DEM, as [initialise] sets it, a correction call
    with the single-ray or the coherent-batch engine prints the ray
    tracing time, the number of rays and the fraction of rays; the number
    of rays is at most the number of triangles, so that the fraction lies
    between 0 and 1 when the inner DEM has a triangle. *)
Theorem correction_report (T : CppTerrain) (sun_pos : vec) (refrac_cor : Z)
  (out0 : list fval) (out : list message) :
  valid_input T ->
  num_tri_cl T
  = ((dem_dim_in_0_cl T - 1) * (dem_dim_in_1_cl T - 1) * 2)%Z ->
  (Z.to_nat (num_gc_y_cl T) * Z.to_nat (num_gc_x_cl T) <= length out0)%nat ->
  In out [snd (sw_dir_cor T sun_pos out0 refrac_cor);
          snd (sw_dir_cor_coherent T sun_pos out0)] ->
  exists num_rays : nat,
    out = [Msg_ray_tracing_time; Msg_number_of_rays num_rays;
           Msg_fraction_of_rays (INR num_rays / IZR (num_tri_cl T))]
    /\ (Z.of_nat num_rays <= num_tri_cl T)%Z
    /\ ((0 < num_tri_cl T)%Z ->
        0 <= INR num_rays / IZR (num_tri_cl T) <= 1).
Proof.
  intros HV Hnt Hlen Hin.
  assert (H : exists num_rays : nat,
             out = report T num_rays
             /\ (Z.of_nat num_rays <= num_tri_cl T)%Z).
  { destruct Hin as [<- | [<- | []]].
    - destruct (sw_dir_cor_cells_spec T sun_pos refrac_cor out0 Hlen)
        as (_ & _ & _ & Hs).
      unfold sw_dir_cor.
      destruct (sw_dir_cor_cells T sun_pos refrac_cor out0) as [o nr].
      cbn [snd] in *. exists nr. split; [reflexivity |].
      rewrite Hs. apply grid_rays_bound; assumption.
    - destruct (sw_dir_cor_coherent_spec T sun_pos out0 Hlen)
        as (_ & _ & _ & _ & Hs).
      unfold sw_dir_cor_coherent.
      destruct (sw_dir_cor_coherent_cells T sun_pos out0) as [o nr].
      cbn [snd] in *. exists nr. split; [reflexivity |].
      rewrite Hs. apply grid_rays_bound; assumption. }
  destruct H as (nr & -> & Hb). exists nr.
  split; [reflexivity |]. split; [exact Hb |].
  intros Hpos. apply IZR_lt in Hpos. apply IZR_le in Hb.
  rewrite <- INR_IZR_INZ in Hb. pose proof (pos_INR nr) as Hnr.
  split.
  - apply Rmult_le_pos; [exact Hnr |].
    apply Rlt_le, Rinv_0_lt_compat, Hpos.
  - apply Rmult_le_reg_r with (IZR (num_tri_cl T)); [exact Hpos |].
    unfold Rdiv. rewrite Rmult_assoc, Rinv_l by lra. lra.
Qed.

Lemma correction_report_witness :
  valid_input terrain_2x2
  /\ num_tri_cl terrain_2x2 = 8%Z
  /\ exists num_rays : nat,
       snd (sw_dir_cor_coherent terrain_2x2 sun_high [FVal 0])
       = [Msg_ray_tracing_time; Msg_number_of_rays num_rays;
          Msg_fraction_of_rays (INR num_rays / IZR (num_tri_cl terrain_2x2))]
       /\ (Z.of_nat num_rays <= 8)%Z.
Proof.
  destruct (correction_report terrain_2x2 sun_high 0 [FVal 0]
              (snd (sw_dir_cor_coherent terrain_2x2 sun_high [FVal 0]))
              valid_terrain_2x2 eq_refl)
    as (nr & E & Hb & _).
  - change (1 * 1 <= 1)%nat. lia.
  - right. left. reflexivity.
  - split; [exact valid_terrain_2x2 |]. split; [reflexivity |].
    exists nr. split; [exact E | exact Hb].
Defined.

(** * Refraction *)










(** * Atmospheric refraction and initialisation *)

Lemma clamp_elev (elev : R) :
  -1 <= Rmax (-1) (Rmin elev 90) <= 90
  /\ (90 <= elev -> Rmax (-1) (Rmin elev 90) = 90)
  /\ (elev <= -1 -> Rmax (-1) (Rmin elev 90) = -1)
  /\ (-1 <= elev <= 90 -> Rmax (-1) (Rmin elev 90) = elev).
Proof.
  unfold Rmax, Rmin.
  destruct (Rle_dec elev 90); destruct (Rle_dec (-1) _); repeat split;
    intros; lra.
Qed.

(** X22. [atmos_refrac] saturates outside of the elevation angles from -1
    to 90 degree: an angle above 90 gives the value of 90, an angle below
    -1 the value of -1. For a true elevation angle of at most 89.8 degree,
    a positive pressure and a temperature above -273 degree Celsius the
    correction is positive: refraction lifts the sun. *)
Theorem atmos_refrac_positive (elev_ang_true temp pressure : R) :
  elev_ang_true <= 89.8 -> -273 < temp -> 0 < pressure ->
  0 < atmos_refrac elev_ang_true temp pressure
  /\ (elev_ang_true <= -1 ->
      atmos_refrac elev_ang_true temp pressure
      = atmos_refrac (-1) temp pressure)
  /\ (forall elev : R, 90 <= elev ->
        atmos_refrac elev temp pressure = atmos_refrac 90 temp pressure).
Proof.
  intros He Ht Hp.
  destruct (clamp_elev elev_ang_true) as (Hc & _ & Hlo & Hmid).
  split; [| split].
  - unfold atmos_refrac. cbv zeta.
    set (e := Rmax (-1) (Rmin elev_ang_true 90)) in *.
    assert (He' : e <= 89.8).
    { destruct (Rle_dec elev_ang_true (-1)) as [H | H];
        [rewrite Hlo by exact H; lra | rewrite Hmid by lra; exact He]. }
    set (q := 10.3 / (e + 5.11)).
    assert (Hq : q * (e + 5.11) = 10.3) by (unfold q; field; lra).
    assert (Hq0 : 0 < q)
      by (unfold q; apply Rdiv_lt_0_compat; lra).
    assert (Hx : 0 < e + q < 90).
    { split.
      - destruct (Rle_dec 0 e); [lra | nra].
      - destruct (Rle_dec e 87); nra. }
    pose proof PI_RGT_0 as Hpi.
    assert (Hy : 0 < deg2rad (e + q) < PI / 2).
    { unfold deg2rad. split.
      - apply Rmult_lt_0_compat; lra.
      - apply Rmult_lt_reg_r with (/ PI); [apply Rinv_0_lt_compat; lra |].
        replace ((e + q) / 180 * PI * / PI) with ((e + q) / 180)
          by (field; lra).
        replace (PI / 2 * / PI) with (1 / 2) by (field; lra). lra. }
    pose proof (tan_gt_0 _ (proj1 Hy) (proj2 Hy)) as Htan.
    assert (H1 : 0 < 1.02 / tan (deg2rad (e + q)))
      by (apply Rdiv_lt_0_compat; lra).
    assert (H2 : 0 < pressure / 101 * (283 / (273 + temp))).
    { apply Rmult_lt_0_compat; apply Rdiv_lt_0_compat; lra. }
    apply Rmult_lt_0_compat; [| lra].
    apply Rmult_lt_0_compat; [lra | exact H2].
  - intros H. unfold atmos_refrac. cbv zeta. rewrite (Hlo H).
    destruct (clamp_elev (-1)) as (_ & _ & _ & E). rewrite E by lra.
    reflexivity.
  - intros elev H. unfold atmos_refrac. cbv zeta.
    destruct (clamp_elev elev) as (_ & E1 & _). rewrite (E1 H).
    destruct (clamp_elev 90) as (_ & E2 & _). rewrite E2 by lra.
    reflexivity.
Qed.

Lemma atmos_refrac_positive_witness :
  0 <= 89.8 /\ -273 < 10 /\ 0 < 101 /\ 0 < atmos_refrac 0 10 101.
Proof.
  split; [lra |]. split; [lra |]. split; [lra |].
  apply (atmos_refrac_positive 0 10 101); lra.
Defined.

Lemma quot_grid_cells (d p : Z) :
  (1 <= d)%Z -> (1 <= p)%Z ->
  (0 <= Z.quot (d - 1) p)%Z
  /\ (Z.quot (d - 1) p * p <= d - 1 < (Z.quot (d - 1) p + 1) * p)%Z.
Proof.
  intros Hd Hp. rewrite Z.quot_div_nonneg by lia.
  pose proof (Z.div_pos (d - 1) p ltac:(lia) ltac:(lia)).
  pose proof (Z.mul_div_le (d - 1) p ltac:(lia)).
  pose proof (Z.mul_succ_div_gt (d - 1) p ltac:(lia)).
  split; [assumption |]. split; lia.
Qed.

(** X23. [initialise] derives from arguments within the constraints of
    the interface a terrain that is a valid input: the number of grid
    cells in each direction is the number of whole grid cells of
    [pixel_per_gc] pixels that fit into the inner DEM (the pixels that
    are left over belong to no grid cell), [dist_search] is converted
    from kilometre to metre, the ray origin is lifted by 0.1 m, and
    [dot_prod_min] lies between 0 and 1. *)
Theorem initialise_valid
  (initializeScene : list R -> Z -> Z -> string -> RTCScene)
  (vert_grid : list R) (dem_dim_0 dem_dim_1 : Z)
  (vert_grid_in : list R) (dem_dim_in_0 dem_dim_in_1 : Z)
  (pixel_per_gc offset_gc : Z) (mask : list Z) (dist_search : R)
  (geom_type : string) (sw_dir_cor_max ang_max : R) :
  0 < ang_max <= 90 -> 0 < sw_dir_cor_max -> 0 < dist_search ->
  (1 <= pixel_per_gc)%Z -> (0 <= offset_gc)%Z ->
  (1 <= dem_dim_in_0)%Z -> (1 <= dem_dim_in_1)%Z ->
  dem_dim_in_0 = (dem_dim_0 - 2 * offset_gc * pixel_per_gc)%Z ->
  dem_dim_in_1 = (dem_dim_1 - 2 * offset_gc * pixel_per_gc)%Z ->
  length vert_grid = Z.to_nat (dem_dim_0 * dem_dim_1 * 3) ->
  length vert_grid_in = Z.to_nat (dem_dim_in_0 * dem_dim_in_1 * 3) ->
  length mask
  = Z.to_nat (Z.quot (dem_dim_in_0 - 1) pixel_per_gc
              * Z.quot (dem_dim_in_1 - 1) pixel_per_gc) ->
  let T := initialise initializeScene vert_grid dem_dim_0 dem_dim_1
             vert_grid_in dem_dim_in_0 dem_dim_in_1 pixel_per_gc offset_gc
             mask dist_search geom_type sw_dir_cor_max ang_max in
  valid_input T
  /\ (0 <= num_gc_y_cl T)%Z /\ (0 <= num_gc_x_cl T)%Z
  /\ (num_gc_y_cl T * pixel_per_gc <= dem_dim_in_0 - 1
      < (num_gc_y_cl T + 1) * pixel_per_gc)%Z
  /\ (num_gc_x_cl T * pixel_per_gc <= dem_dim_in_1 - 1
      < (num_gc_x_cl T + 1) * pixel_per_gc)%Z
  /\ dist_search_cl T = dist_search * 1000
  /\ ray_org_elev_cl T = 0.1
  /\ 0 <= dot_prod_min_cl T < 1.
Proof.
  intros Ha Hm Hd Hp Ho H0 H1 E0 E1 Hl Hli Hmask T.
  destruct (quot_grid_cells dem_dim_in_0 pixel_per_gc H0 Hp) as [Hy0 Hy1].
  destruct (quot_grid_cells dem_dim_in_1 pixel_per_gc H1 Hp) as [Hx0 Hx1].
  assert (HV : valid_input T).
  { constructor; unfold T, initialise; cbn; try assumption;
      try reflexivity; try lra; split; assumption. }
  split; [exact HV |].
  split; [exact Hy0 |]. split; [exact Hx0 |].
  split; [exact Hy1 |]. split; [exact Hx1 |].
  split; [reflexivity |]. split; [reflexivity |].
  split; [exact (valid_dot_prod_min_nonneg T HV) |].
  change (dot_prod_min_cl T) with (cos (deg2rad ang_max)).
  pose proof PI_RGT_0 as Hpi.
  rewrite <- cos_0. apply cos_decreasing_1; unfold deg2rad; try lra.
  - apply Rmult_le_pos; lra.
  - assert (ang_max / 180 * PI <= 1 * PI)
      by (apply Rmult_le_compat_r; lra). lra.
  - apply Rmult_lt_0_compat; lra.
Qed.

Lemma initialise_valid_witness :
  valid_input
    (initialise (fun _ _ _ _ => open_sky) dem_3x3 3 3 dem_3x3 3 3 2 0
                [1%Z] 1 "triangle" 5 90).
Proof.
  apply (initialise_valid (fun _ _ _ _ => open_sky) dem_3x3 3 3 dem_3x3 3 3
           2 0 [1%Z] 1 "triangle" 5 90);
    try lra; try lia; reflexivity.
Defined.

(** * Coordinate transformations *)

(** A loop that writes element [i] of three arrays in iteration [i]. *)
Lemma write3_loop (n : nat) (fx fy fz : nat -> R) :
  for_range 0 n (fun i '(x, y, z) =>
                   (<[i := fx i]> x, <[i := fy i]> y, <[i := fz i]> z))
            (replicate n 0, replicate n 0, replicate n 0)
  = (map fx (seq 0 n), map fy (seq 0 n), map fz (seq 0 n)).
Proof.
  unfold for_range.
  assert (Hk : forall k, (k <= n)%nat ->
            fold_left (fun (s : list R * list R * list R) i =>
                         (let '(x, y, z) := s in
                          (<[i := fx i]> x, <[i := fy i]> y,
                           <[i := fz i]> z)))
                      (seq 0 k)
                      (replicate n 0, replicate n 0, replicate n 0)
            = (map fx (seq 0 k) ++ replicate (n - k) 0,
               map fy (seq 0 k) ++ replicate (n - k) 0,
               map fz (seq 0 k) ++ replicate (n - k) 0)).
  { induction k as [| k IH]; intros Hle.
    - cbn. rewrite Nat.sub_0_r. reflexivity.
    - rewrite seq_S, fold_left_app, IH by lia. cbn [fold_left Nat.add].
      replace (n - k)%nat with (S (n - S k)) by lia.
      rewrite !map_app. cbn [map replicate].
      rewrite !insert_app_r_alt by (rewrite length_map, length_seq; lia).
      rewrite !length_map, !length_seq, Nat.sub_diag. cbn [list_insert insert].
      rewrite <- !app_assoc. reflexivity. }
  rewrite (Hk n (le_n n)), Nat.sub_diag. cbn [replicate].
  rewrite !app_nil_r. reflexivity.
Qed.

Lemma lookup_total_map_seq (f : nat -> R) (n i : nat) :
  (i < n)%nat -> map f (seq 0 n) !!! i = f i.
Proof.
  intros Hi. apply list_lookup_total_correct.
  rewrite list_lookup_fmap, lookup_seq_lt by exact Hi. reflexivity.
Qed.

Lemma _ecef2enu_1d_eq (x_ecef y_ecef z_ecef : list R)
  (tr : transform.TransformerEcef2enu) :
  let sin_lon := sin (transform.deg2rad (transform.lon_or tr)) in
  let cos_lon := cos (transform.deg2rad (transform.lon_or tr)) in
  let sin_lat := sin (transform.deg2rad (transform.lat_or tr)) in
  let cos_lat := cos (transform.deg2rad (transform.lat_or tr)) in
  transform._ecef2enu_1d x_ecef y_ecef z_ecef tr
  = (map (fun i =>
            - sin_lon * (x_ecef !!! i - transform.x_ecef_or tr)
            + cos_lon * (y_ecef !!! i - transform.y_ecef_or tr))
         (seq 0 (length x_ecef)),
     map (fun i =>
            - sin_lat * cos_lon * (x_ecef !!! i - transform.x_ecef_or tr)
            - sin_lat * sin_lon * (y_ecef !!! i - transform.y_ecef_or tr)
            + cos_lat * (z_ecef !!! i - transform.z_ecef_or tr))
         (seq 0 (length x_ecef)),
     map (fun i =>
            cos_lat * cos_lon * (x_ecef !!! i - transform.x_ecef_or tr)
            + cos_lat * sin_lon * (y_ecef !!! i - transform.y_ecef_or tr)
            + sin_lat * (z_ecef !!! i - transform.z_ecef_or tr))
         (seq 0 (length x_ecef))).
Proof.
  intros. unfold transform._ecef2enu_1d. cbv zeta. apply write3_loop.
Qed.

(** X24. [_ecef2enu_1d] is a rigid motion: it returns as many points as
    it is given and keeps the distance between any two of them. *)
Theorem ecef2enu_isometry (x_ecef y_ecef z_ecef : list R)
  (trans_ecef2enu : transform.TransformerEcef2enu) (i j : nat) :
  length y_ecef = length x_ecef -> length z_ecef = length x_ecef ->
  (i < length x_ecef)%nat -> (j < length x_ecef)%nat ->
  let '(x_enu, y_enu, z_enu) :=
    transform._ecef2enu_1d x_ecef y_ecef z_ecef trans_ecef2enu in
  length x_enu = length x_ecef /\ length y_enu = length x_ecef
  /\ length z_enu = length x_ecef
  /\ (x_enu !!! i - x_enu !!! j) ^ 2 + (y_enu !!! i - y_enu !!! j) ^ 2
     + (z_enu !!! i - z_enu !!! j) ^ 2
     = (x_ecef !!! i - x_ecef !!! j) ^ 2 + (y_ecef !!! i - y_ecef !!! j) ^ 2
       + (z_ecef !!! i - z_ecef !!! j) ^ 2.
Proof.
  intros _ _ Hi Hj. rewrite _ecef2enu_1d_eq.
  rewrite !length_map, !length_seq.
  split; [reflexivity |]. split; [reflexivity |]. split; [reflexivity |].
  rewrite !lookup_total_map_seq by assumption.
  pose proof (sin2_cos2 (transform.deg2rad (transform.lon_or trans_ecef2enu)))
    as Hlon.
  pose proof (sin2_cos2 (transform.deg2rad (transform.lat_or trans_ecef2enu)))
    as Hlat.
  unfold Rsqr in Hlon, Hlat.
  set (sl := sin (transform.deg2rad (transform.lon_or trans_ecef2enu))) in *.
  set (cl := cos (transform.deg2rad (transform.lon_or trans_ecef2enu))) in *.
  set (sp := sin (transform.deg2rad (transform.lat_or trans_ecef2enu))) in *.
  set (cp := cos (transform.deg2rad (transform.lat_or trans_ecef2enu))) in *.
  clearbody sl cl sp cp.
  generalize (x_ecef !!! i), (y_ecef !!! i), (z_ecef !!! i),
    (x_ecef !!! j), (y_ecef !!! j), (z_ecef !!! j),
    (transform.x_ecef_or trans_ecef2enu),
    (transform.y_ecef_or trans_ecef2enu),
    (transform.z_ecef_or trans_ecef2enu).
  intros xi yi zi xj yj zj xo yo zo.
  transitivity ((sl * sl + cl * cl) * ((xi - xj) ^ 2 + (yi - yj) ^ 2)
                + (zi - zj) ^ 2
                + (sp * sp + cp * cp - 1)
                  * ((cl * (xi - xj) + sl * (yi - yj)) ^ 2 + (zi - zj) ^ 2));
    [ring | rewrite Hlon, Hlat; ring].
Qed.

Lemma ecef2enu_isometry_witness :
  let '(x_enu, y_enu, z_enu) :=
    transform._ecef2enu_1d [1; 4] [2; 6] [3; 8]
                           (transform.Transformer 10 20 0 0 0) in
  (x_enu !!! 0%nat - x_enu !!! 1%nat) ^ 2
  + (y_enu !!! 0%nat - y_enu !!! 1%nat) ^ 2
  + (z_enu !!! 0%nat - z_enu !!! 1%nat) ^ 2
  = (1 - 4) ^ 2 + (2 - 6) ^ 2 + (3 - 8) ^ 2.
Proof.
  pose proof (ecef2enu_isometry [1; 4] [2; 6] [3; 8]
                (transform.Transformer 10 20 0 0 0) 0 1
                eq_refl eq_refl ltac:(cbn; lia) ltac:(cbn; lia)) as H.
  destruct (transform._ecef2enu_1d _ _ _ _) as [[x y] z].
  exact (proj2 (proj2 (proj2 H))).
Defined.

Lemma _lonlat2ecef_1d_sphere (lon lat h : list R) :
  transform._lonlat2ecef_1d lon lat h "sphere"
  = (map (fun i => (6370997 + h !!! i)
                   * cos (transform.deg2rad (lat !!! i))
                   * cos (transform.deg2rad (lon !!! i)))
         (seq 0 (length lon)),
     map (fun i => (6370997 + h !!! i)
                   * cos (transform.deg2rad (lat !!! i))
                   * sin (transform.deg2rad (lon !!! i)))
         (seq 0 (length lon)),
     map (fun i => (6370997 + h !!! i)
                   * sin (transform.deg2rad (lat !!! i)))
         (seq 0 (length lon))).
Proof.
  unfold transform._lonlat2ecef_1d.
  change (String.eqb "sphere" "sphere") with true. cbv iota zeta.
  apply write3_loop.
Qed.

Lemma _lonlat2ecef_1d_ellipsoid (lon lat h : list R) (ellps : string) :
  ellps <> "sphere"%string ->
  let a := 6378137 in
  let f := if String.eqb ellps "GRS80" then 1 / 298.257222101
           else 1 / 298.257223563 in
  let b := a * (1 - f) in
  let e_2 := 1 - (b ^ 2 / a ^ 2) in
  transform._lonlat2ecef_1d lon lat h ellps
  = (map (fun i =>
            (a / sqrt (1 - e_2 * sin (transform.deg2rad (lat !!! i)) ^ 2)
             + h !!! i)
            * cos (transform.deg2rad (lat !!! i))
            * cos (transform.deg2rad (lon !!! i)))
         (seq 0 (length lon)),
     map (fun i =>
            (a / sqrt (1 - e_2 * sin (transform.deg2rad (lat !!! i)) ^ 2)
             + h !!! i)
            * cos (transform.deg2rad (lat !!! i))
            * sin (transform.deg2rad (lon !!! i)))
         (seq 0 (length lon)),
     map (fun i =>
            (b ^ 2 / a ^ 2
             * (a / sqrt (1 - e_2 * sin (transform.deg2rad (lat !!! i)) ^ 2))
             + h !!! i)
            * sin (transform.deg2rad (lat !!! i)))
         (seq 0 (length lon))).
Proof.
  intros Hs a f b e_2. unfold transform._lonlat2ecef_1d.
  apply String.eqb_neq in Hs. rewrite Hs. cbv zeta.
  apply (write3_loop (length lon)).
Qed.

(** X25. With the sphere, every point that [_lonlat2ecef_1d] returns
    lies at the distance of the earth radius 6370997 m plus its elevation
    from the centre of the earth; the function returns as many points as
    it is given longitudes. *)
Theorem lonlat2ecef_sphere_radius (lon lat h : list R) (i : nat) :
  length lat = length lon -> length h = length lon ->
  (i < length lon)%nat ->
  let '(x_ecef, y_ecef, z_ecef) :=
    transform._lonlat2ecef_1d lon lat h "sphere" in
  length x_ecef = length lon /\ length y_ecef = length lon
  /\ length z_ecef = length lon
  /\ (x_ecef !!! i) ^ 2 + (y_ecef !!! i) ^ 2 + (z_ecef !!! i) ^ 2
     = (6370997 + h !!! i) ^ 2.
Proof.
  intros _ _ Hi. rewrite _lonlat2ecef_1d_sphere.
  rewrite !length_map, !length_seq.
  split; [reflexivity |]. split; [reflexivity |]. split; [reflexivity |].
  rewrite !lookup_total_map_seq by assumption.
  pose proof (sin2_cos2 (transform.deg2rad (lon !!! i))) as Hlon.
  pose proof (sin2_cos2 (transform.deg2rad (lat !!! i))) as Hlat.
  unfold Rsqr in Hlon, Hlat.
  set (sl := sin (transform.deg2rad (lon !!! i))) in *.
  set (cl := cos (transform.deg2rad (lon !!! i))) in *.
  set (sp := sin (transform.deg2rad (lat !!! i))) in *.
  set (cp := cos (transform.deg2rad (lat !!! i))) in *.
  set (rh := 6370997 + h !!! i).
  transitivity (rh ^ 2 * (cp * cp * (sl * sl + cl * cl) + sp * sp));
    [ring |].
  rewrite Hlon, Rmult_1_r, (Rplus_comm (cp * cp)), Hlat. ring.
Qed.

Lemma lonlat2ecef_sphere_radius_witness :
  let '(x_ecef, y_ecef, z_ecef) :=
    transform._lonlat2ecef_1d [8] [47] [500] "sphere" in
  (x_ecef !!! 0%nat) ^ 2 + (y_ecef !!! 0%nat) ^ 2 + (z_ecef !!! 0%nat) ^ 2
  = (6370997 + 500) ^ 2.
Proof.
  pose proof (lonlat2ecef_sphere_radius [8] [47] [500] 0
                eq_refl eq_refl ltac:(cbn; lia)) as H.
  destruct (transform._lonlat2ecef_1d _ _ _ _) as [[x y] z].
  exact (proj2 (proj2 (proj2 H))).
Defined.

Lemma flattening_bounds (ellps : string) :
  let f := if String.eqb ellps "GRS80" then 1 / 298.257222101
           else 1 / 298.257223563 in
  0 < f < 1 / 298.
Proof.
  intros f. subst f. destruct (String.eqb ellps "GRS80"); lra.
Qed.

(** X26. With the ellipsoid GRS80 or WGS84, a point of elevation 0 that
    [_lonlat2ecef_1d] returns lies on the ellipsoid of revolution with the
    semi-major axis [a] = 6378137 m and the semi-minor axis
    [b = a (1 - f)]: [(x^2 + y^2) / a^2 + z^2 / b^2 = 1]. *)
Theorem lonlat2ecef_on_ellipsoid (lon lat h : list R) (ellps : string)
  (i : nat) :
  ellps = "GRS80"%string \/ ellps = "WGS84"%string ->
  length lat = length lon -> length h = length lon ->
  (i < length lon)%nat -> h !!! i = 0 ->
  let a := 6378137 in
  let f := if String.eqb ellps "GRS80" then 1 / 298.257222101
           else 1 / 298.257223563 in
  let b := a * (1 - f) in
  let '(x_ecef, y_ecef, z_ecef) :=
    transform._lonlat2ecef_1d lon lat h ellps in
  ((x_ecef !!! i) ^ 2 + (y_ecef !!! i) ^ 2) / a ^ 2
  + (z_ecef !!! i) ^ 2 / b ^ 2 = 1.
Proof.
  intros He _ _ Hi Hh a f b.
  assert (Hs : ellps <> "sphere"%string)
    by (destruct He as [-> | ->]; discriminate).
  rewrite (_lonlat2ecef_1d_ellipsoid lon lat h ellps Hs).
  rewrite !lookup_total_map_seq by assumption. rewrite Hh.
  fold a f b.
  pose proof (flattening_bounds ellps) as Hf. cbv zeta in Hf. fold f in Hf.
  pose proof (sin2_cos2 (transform.deg2rad (lon !!! i))) as Hlon.
  pose proof (sin2_cos2 (transform.deg2rad (lat !!! i))) as Hlat.
  unfold Rsqr in Hlon, Hlat.
  set (sl := sin (transform.deg2rad (lon !!! i))) in *.
  set (cl := cos (transform.deg2rad (lon !!! i))) in *.
  set (sp := sin (transform.deg2rad (lat !!! i))) in *.
  set (cp := cos (transform.deg2rad (lat !!! i))) in *.
  assert (Ha : a = 6378137) by reflexivity.
  assert (Hb : b = a * (1 - f)) by reflexivity.
  clearbody a b.
  set (e_2 := 1 - b ^ 2 / a ^ 2).
  assert (He2 : e_2 = 1 - (1 - f) ^ 2) by (unfold e_2; rewrite Hb; field; lra).
  assert (He2b : 0 < e_2 < 1) by (rewrite He2; nra).
  assert (Hsp : 0 <= sp * sp <= 1) by nra.
  assert (HW : 0 < 1 - e_2 * sp ^ 2) by nra.
  set (W := 1 - e_2 * sp ^ 2) in *.
  pose proof (sqrt_lt_R0 W HW) as HS.
  pose proof (sqrt_sqrt W (Rlt_le _ _ HW)) as HSS.
  set (S := sqrt W) in *.
  assert (Hb0 : b <> 0) by (rewrite Hb; nra).
  assert (Ha0 : a <> 0) by lra.
  assert (HS0 : S <> 0) by lra.
  transitivity ((cp * cp * (sl * sl + cl * cl) + b ^ 2 / a ^ 2 * (sp * sp))
                / (S * S)); [field; repeat split; assumption |].
  rewrite Hlon, HSS. unfold W.
  replace (b ^ 2 / a ^ 2) with (1 - e_2) by (unfold e_2; ring).
  replace (cp * cp * 1 + (1 - e_2) * (sp * sp))
    with (sp * sp + cp * cp - e_2 * sp ^ 2) by ring.
  rewrite Hlat. field. fold W. lra.
Qed.

Lemma lonlat2ecef_on_ellipsoid_witness :
  let '(x_ecef, y_ecef, z_ecef) :=
    transform._lonlat2ecef_1d [8] [47] [0] "WGS84" in
  ((x_ecef !!! 0%nat) ^ 2 + (y_ecef !!! 0%nat) ^ 2) / 6378137 ^ 2
  + (z_ecef !!! 0%nat) ^ 2 / (6378137 * (1 - 1 / 298.257223563)) ^ 2 = 1.
Proof.
  pose proof (lonlat2ecef_on_ellipsoid [8] [47] [0] "WGS84" 0
                (or_intror eq_refl) eq_refl eq_refl ltac:(cbn; lia)
                eq_refl) as H.
  cbv zeta in H.
  destruct (transform._lonlat2ecef_1d _ _ _ _) as [[x y] z].
  exact H.
Defined.

Lemma init_in_range (lon_or lat_or : R) (ellps : string) :
  -180 <= lon_or <= 180 -> -90 <= lat_or <= 90 ->
  transform.TransformerEcef2enu__init__ lon_or lat_or ellps
  = if String.eqb ellps "sphere" then
      transform.Return
        (transform.Transformer lon_or lat_or
           (6370997 * cos (transform.deg2rad lat_or)
            * cos (transform.deg2rad lon_or))
           (6370997 * cos (transform.deg2rad lat_or)
            * sin (transform.deg2rad lon_or))
           (6370997 * sin (transform.deg2rad lat_or)))
    else if bool_decide (elem_of ellps ["GRS80"; "WGS84"]%string) then
      let a := 6378137 in
      let f := if String.eqb ellps "GRS80" then 1 / 298.257222101
               else 1 / 298.257223563 in
      let b := a * (1 - f) in
      let e_2 := 1 - (b ^ 2 / a ^ 2) in
      let n := a / sqrt (1 - e_2 * sin (transform.deg2rad lat_or) ^ 2) in
      transform.Return
        (transform.Transformer lon_or lat_or
           (n * cos (transform.deg2rad lat_or)
            * cos (transform.deg2rad lon_or))
           (n * cos (transform.deg2rad lat_or)
            * sin (transform.deg2rad lon_or))
           ((b ^ 2 / a ^ 2 * n) * sin (transform.deg2rad lat_or)))
    else transform.Raise (transform.ValueError "Unknown value for 'ellps'").
Proof.
  intros Hlon Hlat. unfold transform.TransformerEcef2enu__init__.
  rewrite (bool_decide_eq_false_2 (lon_or < -180)) by lra.
  rewrite (bool_decide_eq_false_2 (lon_or > 180)) by lra.
  rewrite (bool_decide_eq_false_2 (lat_or < -90)) by lra.
  rewrite (bool_decide_eq_false_2 (lat_or > 90)) by lra.
  reflexivity.
Qed.

(** X27. [TransformerEcef2enu.__init__] raises [ValueError] for a
    longitude outside of -180 to 180 degree, else for a latitude outside
    of -90 to 90 degree, else for an earth model other than sphere, GRS80
    and WGS84. Otherwise it stores the origin, and the ECEF coordinates
    it stores are those [_lonlat2ecef_1d] gives for the origin at
    elevation 0. *)
Theorem TransformerEcef2enu_init_spec (lon_or lat_or : R) (ellps : string) :
  (lon_or < -180 \/ lon_or > 180 ->
   transform.TransformerEcef2enu__init__ lon_or lat_or ellps
   = transform.Raise
       (transform.ValueError "Value for 'lon_or' is outside of valid range"))
  /\ (-180 <= lon_or <= 180 -> lat_or < -90 \/ lat_or > 90 ->
      transform.TransformerEcef2enu__init__ lon_or lat_or ellps
      = transform.Raise
          (transform.ValueError
             "Value for 'lat_or' is outside of valid range"))
  /\ (-180 <= lon_or <= 180 -> -90 <= lat_or <= 90 ->
      ~ In ellps ["sphere"; "GRS80"; "WGS84"]%string ->
      transform.TransformerEcef2enu__init__ lon_or lat_or ellps
      = transform.Raise (transform.ValueError "Unknown value for 'ellps'"))
  /\ (-180 <= lon_or <= 180 -> -90 <= lat_or <= 90 ->
      In ellps ["sphere"; "GRS80"; "WGS84"]%string ->
      exists tr : transform.TransformerEcef2enu,
        transform.TransformerEcef2enu__init__ lon_or lat_or ellps
        = transform.Return tr
        /\ transform.lon_or tr = lon_or /\ transform.lat_or tr = lat_or
        /\ transform._lonlat2ecef_1d [lon_or] [lat_or] [0] ellps
           = ([transform.x_ecef_or tr], [transform.y_ecef_or tr],
              [transform.z_ecef_or tr])).
Proof.
  split; [| split; [| split]].
  - intros H. unfold transform.TransformerEcef2enu__init__.
    destruct H as [H | H].
    + rewrite (bool_decide_eq_true_2 (lon_or < -180)) by exact H.
      reflexivity.
    + rewrite (bool_decide_eq_true_2 (lon_or > 180)) by exact H.
      rewrite orb_true_r. reflexivity.
  - intros Hlon H. unfold transform.TransformerEcef2enu__init__.
    rewrite (bool_decide_eq_false_2 (lon_or < -180)) by lra.
    rewrite (bool_decide_eq_false_2 (lon_or > 180)) by lra.
    cbn [orb]. destruct H as [H | H].
    + rewrite (bool_decide_eq_true_2 (lat_or < -90)) by exact H.
      reflexivity.
    + rewrite (bool_decide_eq_true_2 (lat_or > 90)) by exact H.
      rewrite orb_true_r. reflexivity.
  - intros Hlon Hlat Hn. rewrite init_in_range by assumption.
    destruct (String.eqb ellps "sphere") eqn:Es.
    { apply String.eqb_eq in Es. exfalso. apply Hn. left. now rewrite Es. }
    rewrite bool_decide_eq_false_2; [reflexivity |].
    intros H. apply Hn. right. apply list_elem_of_In, H.
  - intros Hlon Hlat Hin. rewrite init_in_range by assumption.
    destruct (String.eqb ellps "sphere") eqn:Es.
    + apply String.eqb_eq in Es. subst ellps. eexists.
      split; [reflexivity |]. split; [reflexivity |].
      split; [reflexivity |].
      rewrite _lonlat2ecef_1d_sphere. cbn [length seq map].
      change ([0] !!! 0%nat) with 0. change ([lat_or] !!! 0%nat) with lat_or.
      change ([lon_or] !!! 0%nat) with lon_or.
      cbn [transform.x_ecef_or transform.y_ecef_or transform.z_ecef_or].
      repeat f_equal; ring.
    + apply String.eqb_neq in Es.
      rewrite bool_decide_eq_true_2
        by (apply list_elem_of_In; destruct Hin as [E | Hin];
            [congruence | exact Hin]).
      eexists. split; [reflexivity |]. split; [reflexivity |].
      split; [reflexivity |].
      rewrite (_lonlat2ecef_1d_ellipsoid _ _ _ ellps Es).
      cbn [length seq map].
      change ([0] !!! 0%nat) with 0. change ([lat_or] !!! 0%nat) with lat_or.
      change ([lon_or] !!! 0%nat) with lon_or.
      cbn [transform.x_ecef_or transform.y_ecef_or transform.z_ecef_or].
      repeat f_equal; ring.
Qed.

Lemma TransformerEcef2enu_init_spec_witness :
  181 > 180
  /\ transform.TransformerEcef2enu__init__ 181 0 "sphere"
     = transform.Raise
         (transform.ValueError "Value for 'lon_or' is outside of valid range").
Proof.
  assert (H : 181 > 180) by lra.
  split; [exact H |].
  exact (proj1 (TransformerEcef2enu_init_spec 181 0 "sphere") (or_intror H)).
Defined.

(** X28. For a transformer that [TransformerEcef2enu.__init__] has built
    for an origin and an earth model, the point at the longitude and
    latitude of the origin with the elevation [h], converted by
    [_lonlat2ecef_1d] with the same earth model and then by
    [_ecef2enu_1d], has the ENU coordinates [(0, 0, h)]: the origin lies
    on the surface of the sphere or ellipsoid, and the third axis points
    along its normal. *)
Theorem ecef2enu_origin_up (lon_or lat_or : R) (ellps : string)
  (tr : transform.TransformerEcef2enu) (lon lat h : list R) (i : nat) :
  transform.TransformerEcef2enu__init__ lon_or lat_or ellps
  = transform.Return tr ->
  length lat = length lon -> length h = length lon ->
  (i < length lon)%nat ->
  lon !!! i = lon_or -> lat !!! i = lat_or ->
  let '(x_ecef, y_ecef, z_ecef) :=
    transform._lonlat2ecef_1d lon lat h ellps in
  let '(x_enu, y_enu, z_enu) :=
    transform._ecef2enu_1d x_ecef y_ecef z_ecef tr in
  x_enu !!! i = 0 /\ y_enu !!! i = 0 /\ z_enu !!! i = h !!! i.
Proof.
  intros Hinit _ _ Hi Elon Elat.
  assert (Hr : -180 <= lon_or <= 180 /\ -90 <= lat_or <= 90).
  { unfold transform.TransformerEcef2enu__init__ in Hinit.
    destruct (bool_decide_reflect (lon_or < -180)); [discriminate |].
    destruct (bool_decide_reflect (lon_or > 180)); [discriminate |].
    destruct (bool_decide_reflect (lat_or < -90)); [discriminate |].
    destruct (bool_decide_reflect (lat_or > 90)); [discriminate |].
    lra. }
  destruct Hr as [Hlon Hlat].
  rewrite init_in_range in Hinit by assumption.
  pose proof (sin2_cos2 (transform.deg2rad lon_or)) as Hsl.
  pose proof (sin2_cos2 (transform.deg2rad lat_or)) as Hsp.
  unfold Rsqr in Hsl, Hsp.
  destruct (String.eqb ellps "sphere") eqn:Es.
  - apply String.eqb_eq in Es. subst ellps.
    injection Hinit as <-.
    rewrite _lonlat2ecef_1d_sphere, _ecef2enu_1d_eq.
    cbn [transform.lon_or transform.lat_or transform.x_ecef_or
         transform.y_ecef_or transform.z_ecef_or].
    rewrite !length_map, !length_seq.
    rewrite !lookup_total_map_seq by assumption.
    rewrite Elon, Elat.
    set (sl := sin (transform.deg2rad lon_or)) in *.
    set (cl := cos (transform.deg2rad lon_or)) in *.
    set (sp := sin (transform.deg2rad lat_or)) in *.
    set (cp := cos (transform.deg2rad lat_or)) in *.
    split; [ring |]. split.
    + transitivity (h !!! i * sp * cp * (1 - (sl * sl + cl * cl)));
        [ring | rewrite Hsl; ring].
    + transitivity (h !!! i * (cp * cp * (sl * sl + cl * cl) + sp * sp));
        [ring |].
      rewrite Hsl, Rmult_1_r, (Rplus_comm (cp * cp)), Hsp. ring.
  - apply String.eqb_neq in Es.
    destruct (bool_decide (elem_of ellps ["GRS80"; "WGS84"]%string));
      [| discriminate].
    cbv zeta in Hinit. injection Hinit as <-.
    rewrite (_lonlat2ecef_1d_ellipsoid _ _ _ ellps Es), _ecef2enu_1d_eq.
    cbn [transform.lon_or transform.lat_or transform.x_ecef_or
         transform.y_ecef_or transform.z_ecef_or].
    rewrite !length_map, !length_seq.
    rewrite !lookup_total_map_seq by assumption.
    rewrite Elon, Elat.
    set (sl := sin (transform.deg2rad lon_or)) in *.
    set (cl := cos (transform.deg2rad lon_or)) in *.
    set (sp := sin (transform.deg2rad lat_or)) in *.
    set (cp := cos (transform.deg2rad lat_or)) in *.
    set (n := 6378137 / sqrt _).
    set (f := if String.eqb ellps "GRS80" then _ else _).
    split; [ring |]. split.
    + transitivity (h !!! i * sp * cp * (1 - (sl * sl + cl * cl)));
        [field; lra | rewrite Hsl; ring].
    + transitivity (h !!! i * (cp * cp * (sl * sl + cl * cl) + sp * sp));
        [field; lra |].
      rewrite Hsl, Rmult_1_r, (Rplus_comm (cp * cp)), Hsp. ring.
Qed.

Lemma ecef2enu_origin_up_witness :
  transform.TransformerEcef2enu__init__ 8 47 "sphere"
  = transform.Return
      (transform.Transformer 8 47
         (6370997 * cos (transform.deg2rad 47) * cos (transform.deg2rad 8))
         (6370997 * cos (transform.deg2rad 47) * sin (transform.deg2rad 8))
         (6370997 * sin (transform.deg2rad 47)))
  /\ let '(x_ecef, y_ecef, z_ecef) :=
       transform._lonlat2ecef_1d [8] [47] [500] "sphere" in
     let '(x_enu, y_enu, z_enu) :=
       transform._ecef2enu_1d x_ecef y_ecef z_ecef
         (transform.Transformer 8 47
            (6370997 * cos (transform.deg2rad 47) * cos (transform.deg2rad 8))
            (6370997 * cos (transform.deg2rad 47) * sin (transform.deg2rad 8))
            (6370997 * sin (transform.deg2rad 47))) in
     z_enu !!! 0%nat = 500.
Proof.
  assert (E : transform.TransformerEcef2enu__init__ 8 47 "sphere"
              = transform.Return
                  (transform.Transformer 8 47
                     (6370997 * cos (transform.deg2rad 47)
                      * cos (transform.deg2rad 8))
                     (6370997 * cos (transform.deg2rad 47)
                      * sin (transform.deg2rad 8))
                     (6370997 * sin (transform.deg2rad 47))))
    by (rewrite init_in_range by lra; reflexivity).
  split; [exact E |].
  pose proof (ecef2enu_origin_up 8 47 "sphere" _ [8] [47] [500] 0 E
                eq_refl eq_refl ltac:(cbn; lia) eq_refl eq_refl) as H.
  destruct (transform._lonlat2ecef_1d _ _ _ _) as [[x y] z].
  destruct (transform._ecef2enu_1d _ _ _ _) as [[xe ye] ze].
  exact (proj2 (proj2 H)).
Defined.
